(** * Phonetic versioning: the codec, the separator engine and the parser

    A shallow embedding of encoder.js, separator-balancer.js,
    separators.js, decoder.js, config-loader.js and generator.js, with the
    properties the specification states about them.

    Conventions of the embedding:
    - a JavaScript integer is a [Z]; a score, weight or percentage is an exact
      rational [Q] (the doubles of the runtime are idealised);
    - a string is a [string] over 8-bit characters (the Latin-1 range);
    - an array is a [list]; a plain object used as a map is a [gmap] with
      string keys (inherited prototype properties are not modelled), and an
      object whose key order matters is an association list;
    - a call that may throw returns an [outcome];
    - the module-level balancer of separators.js is threaded explicitly;
    - config.json and data/syllables.json are arguments. *)

From Stdlib Require Import ZArith QArith Qminmax Lia Lqa String Ascii List.
From stdpp Require Import base list strings gmap sorting relations.
From Equations Require Import Equations.

Local Open Scope Z_scope.

(** ** Outcomes *)

(** The errors the modules throw. *)
Inductive error : Type :=
| EmptyVersion                              (* Cannot parse empty version string *)
| NoValidSyllables                          (* no valid syllables found *)
| UnrecognizedSyllable (remaining : string) (* unrecognized syllable at ... *)
| UnknownSyllable (syllable : string)       (* Unknown syllable: ... *)
| TypeError.                                (* raised by the runtime itself *)

(** Outcome of a call: a returned value or a thrown error. *)
Inductive outcome (A : Type) : Type :=
| Returns (a : A)
| Throws (e : error).
Arguments Returns {A} a.
Arguments Throws {A} e.

Definition rejects {A} (o : outcome A) : Prop := ∃ e, o = Throws e.

(** ** JavaScript helpers *)
Module Js.

(** [x || d] on an optional number: [undefined] and [0] are falsy. *)
Definition or_default (x : option Q) (d : Q) : Q :=
  match x with
  | Some v => if Qeq_bool v 0 then d else v
  | None => d
  end.

Definition or_defaultZ (x : option Z) (d : Z) : Z :=
  match x with
  | Some v => if decide (v = 0) then d else v
  | None => d
  end.

(** [String.prototype.toLowerCase] on the Latin-1 range. *)
Definition lower_char (c : ascii) : ascii :=
  let n := nat_of_ascii c in
  if ((65 <=? n) && (n <=? 90))%nat then ascii_of_nat (n + 32)
  else if ((192 <=? n) && (n <=? 222) && negb (n =? 215))%nat then ascii_of_nat (n + 32)
  else c.

Fixpoint string_map (f : ascii → ascii) (s : string) : string :=
  match s with
  | EmptyString => EmptyString
  | String c s' => String (f c) (string_map f s')
  end.

Fixpoint string_filter (p : ascii → bool) (s : string) : string :=
  match s with
  | EmptyString => EmptyString
  | String c s' => if p c then String c (string_filter p s') else string_filter p s'
  end.

Definition toLowerCase (s : string) : string := string_map lower_char s.

(** the character class [a-z] *)
Definition is_lower_letter (c : ascii) : bool :=
  let n := nat_of_ascii c in ((97 <=? n) && (n <=? 122))%nat.

(** [s.substring(0, len)] and [s.substring(len)] *)
Definition substring_to (len : nat) (s : string) : string := String.substring 0 len s.

Definition substring_from (len : nat) (s : string) : string :=
  String.substring len (String.length s - len) s.

(** [s.slice(-k)] *)
Definition slice_last (k : nat) (s : string) : string :=
  String.substring (String.length s - k) k s.

(** [s[0]] and [s[s.length - 1]]; [None] is [undefined] *)
Definition first_char (s : string) : option ascii := String.get 0 s.

Definition last_char (s : string) : option ascii :=
  String.get (String.length s - 1) s.

(** [arr.join('')] *)
Definition join (parts : list string) : string := String.concat EmptyString parts.

(** [Array.prototype.sort] with a comparator is stable: an element goes
    behind every element that the comparator does not put after it.
    [before a b] holds when the comparator puts [a] strictly before [b]. *)
Fixpoint sort_insert {A} (before : A → A → bool) (x : A) (sorted : list A) : list A :=
  match sorted with
  | [] => [x]
  | y :: rest => if before x y then x :: y :: rest else y :: sort_insert before x rest
  end.

Definition sort {A} (before : A → A → bool) (l : list A) : list A :=
  fold_left (λ sorted x, sort_insert before x sorted) l [].

(** a value together with the equation that names it *)
Definition inspect {A} (a : A) : {b : A | a = b} := exist _ a eq_refl.

End Js.

(** ** encoder.js *)
Module Encoder.

(** the number of loop iterations [remaining] still needs *)
Definition digits_left (remaining : Z) : nat :=
  if decide (remaining > 0) then S (Z.to_nat (Z.log2 remaining)) else O.

(** the loop [while (remaining > 0)] of [toBase128] *)
Equations? toBase128_loop (digits : list Z) (remaining : Z) : list Z
  by wf (digits_left remaining) lt :=
  toBase128_loop digits remaining with decide (remaining > 0) := {
    | left _ => toBase128_loop ((remaining mod 128) :: digits) (remaining / 128)
    | right _ => digits }.
Proof.
  unfold digits_left.
  destruct (decide (remaining > 0)) as [_|]; [|lia].
  destruct (decide (remaining / 128 > 0)) as [Hq|]; [|lia].
  assert (Hsh : remaining / 128 = Z.shiftr remaining 7)
    by (rewrite Z.shiftr_div_pow2; [reflexivity | lia]).
  rewrite Hsh, Z.log2_shiftr by lia.
  assert (128 <= remaining).
  { destruct (Z_lt_le_dec remaining 128) as [Hlt|]; [|lia].
    rewrite Z.div_small in Hq; lia. }
  assert (7 <= Z.log2 remaining)
    by (change 7 with (Z.log2 128); apply Z.log2_le_mono; lia).
  lia.
Qed.

Definition toBase128 (num : Z) : list Z :=
  if decide (num = 0) then [0] else toBase128_loop [] num.

(** The accumulation is exact integer arithmetic here.  In the code it is
    done in doubles, which agree with it as long as the value stays below
    2^53; the digits that [toBase128] produces for such a number do. *)
Definition fromBase128 (digits : list Z) : Z :=
  fold_left (λ num d, num * 128 + d) digits 0.

(** the loop [while (indices.length < minLength)] *)
Equations? pad_loop (indices : list Z) (minLength : Z) : list Z
  by wf (Z.to_nat (minLength - Z.of_nat (length indices))) lt :=
  pad_loop indices minLength with decide (Z.of_nat (length indices) < minLength) := {
    | left _ => pad_loop (0 :: indices) minLength
    | right _ => indices }.
Proof. simpl length. lia. Qed.

Definition encodeToSyllableIndices (num : Z) (minLength : Z) : list Z :=
  let indices := toBase128 num in
  pad_loop indices minLength.

Definition decodeSyllableIndices (indices : list Z) : Z := fromBase128 indices.

(** encoder.js holds no [throw]: every exported function returns normally.
    [encode_step] is the encode step as its caller observes it. *)
Definition encode_step (num minLength : Z) : outcome (list Z) :=
  Returns (encodeToSyllableIndices num minLength).

(** [digits[i]].  Every read below is within the array (see
    [interleave_loop_cycle]), so the [undefined] of a read past the end
    never arises and the inhabitant is never used. *)
Definition at_index {A} `{Inhabited A} (digits : list A) (i : Z) : A :=
  digits !!! Z.to_nat i.

(** the loop [while (left <= right)], with the cursors and the step counter *)
Equations? interleave_loop {A} `{Inhabited A} (digits : list A) (left right step : Z)
  (result : list A) : list A by wf (Z.to_nat (right + 1 - left)) lt :=
  interleave_loop digits l r step result with decide (l <= r) := {
    | Specif.left _ =>
        let cyclePos := step mod 4 in
        if cyclePos =? 0 then
          interleave_loop digits l (r - 1) (step + 1) (at_index digits r :: result)
        else if cyclePos =? 1 then
          interleave_loop digits l (r - 1) (step + 1) (result ++ [at_index digits r])
        else if cyclePos =? 2 then
          interleave_loop digits (l + 1) r (step + 1) (at_index digits l :: result)
        else
          interleave_loop digits (l + 1) r (step + 1) (result ++ [at_index digits l])
    | Specif.right _ => result }.
Proof. all: lia. Qed.

Definition interleaveDigits {A} `{Inhabited A} (digits : list A) : list A :=
  if decide (length digits = 0%nat) then []
  else if decide (length digits = 1%nat) then digits
  else
    let n := Z.of_nat (length digits) in
    interleave_loop digits 1 (n - 1) 0 [at_index digits 0].

(** [deinterleaveDigits] runs the same loop on [0 .. n-1] and scatters the
    digits.  [new Array(n)] is a list of [n] unset cells; every [origPos] is
    below [n] (see [position_map_perm]), so the assignment never extends
    the array, which is where [<[_:=_]>] would differ from JavaScript. *)
Definition deinterleaveDigits {A} `{Inhabited A} (digits : list A) : list A :=
  if decide (length digits = 0%nat) then []
  else if decide (length digits = 1%nat) then digits
  else
    let n := length digits in
    let dummy := seq 0 n in
    let dummyInterleaved := interleave_loop dummy 1 (Z.of_nat n - 1) 0 [at_index dummy 0] in
    fold_left (λ result i,
                 let origPos := dummyInterleaved !!! i in
                 <[origPos := digits !!! i]> result)
              (seq 0 n) (replicate n inhabitant).

End Encoder.

(** ** separator-balancer.js *)
Module Balancer.
Import Js.
Local Open Scope Q_scope.

Record BalancerConfig : Type := {
  cfg_historySize : option Z;
  cfg_targets : option (gmap string Q);
  cfg_diversityStrength : option Q
}.

Record SeparatorBalancer : Type := {
  historySize : Z;
  history : list string;
  targets : gmap string Q;
  diversityStrength : Q
}.

Definition defaultTargets : gmap string Q :=
  {[ "space" := 50; "dot" := 25; "colon" := 10;
     "tilde" := 8; "hyphen" := 5; "apostrophe" := 2 ]}%string.

(** the constructor *)
Definition new (config : BalancerConfig) : SeparatorBalancer :=
  {| historySize := or_defaultZ (cfg_historySize config) 100;
     history := [];
     targets := default defaultTargets (cfg_targets config);
     diversityStrength := or_default (cfg_diversityStrength config) (3 # 10) |}.

Definition recordUsage (b : SeparatorBalancer) (separator : string) : SeparatorBalancer :=
  let pushed := history b ++ [separator] in
  {| historySize := historySize b;
     history := if decide (Z.of_nat (length pushed) > historySize b)%Z
                then tail pushed else pushed;
     targets := targets b;
     diversityStrength := diversityStrength b |}.

(** The shares are exact rationals here; the code computes them in
    doubles, each correct up to rounding. *)
Definition getCurrentDistribution (b : SeparatorBalancer) : gmap string Q :=
  if decide (length (history b) = 0%nat) then ∅
  else
    let counts : gmap string Z :=
      fold_left (λ counts sep, <[sep := (default 0 (counts !! sep) + 1)%Z]> counts)
                (history b) ∅ in
    (λ count, (inject_Z count / inject_Z (Z.of_nat (length (history b)))) * 100) <$> counts.

Definition getDiversityMultipliers (b : SeparatorBalancer) : gmap string Q :=
  let current := getCurrentDistribution b in
  map_imap (λ sep target,
              let actual := or_default (current !! sep) 0 in
              let diff := actual - target in
              let adjustment := 1 - (diff / 100) * diversityStrength b in
              Some (Qmax (1 # 2) (Qmin 2 adjustment)))
           (targets b).

(** [scores] is an object whose keys are enumerated in creation order *)
Definition adjustScores (b : SeparatorBalancer) (scores : list (string * Q))
  : list (string * Q) :=
  let multipliers := getDiversityMultipliers b in
  map (λ '(sep, score), (sep, score * or_default (multipliers !! sep) 1)) scores.

(** comparator [(a, b) => b[1] - a[1]]: [a] goes first when its score is larger *)
Definition by_score_desc (a b : string * Q) : bool :=
  match snd b ?= snd a with Lt => true | _ => false end.

Definition chooseSeparator (b : SeparatorBalancer) (rawScores : list (string * Q))
  (threshold : Q) : option string * SeparatorBalancer :=
  let adjustedScores := adjustScores b rawScores in
  let candidates :=
    sort by_score_desc (filter (λ e, Qle_bool threshold (snd e) = true) adjustedScores) in
  match candidates with
  | [] => (None, b)
  | (winner, score) :: _ => (Some winner, recordUsage b winner)
  end.

Definition reset (b : SeparatorBalancer) : SeparatorBalancer :=
  {| historySize := historySize b; history := [];
     targets := targets b; diversityStrength := diversityStrength b |}.

End Balancer.
(** ** config.json *)
Module Config.
Local Open Scope Q_scope.

Record WeightEntry : Type := { weight : Q; enabled : bool }.

Record CompressionInterval : Type := { threshold : Z; interval : Z }.

Record Encoding : Type := {
  baseInterval : Z;
  maxSyllables : Z;
  adaptiveCompression : bool;
  digitInterleaving : bool;
  compressionIntervals : list CompressionInterval
}.

Record Thresholds : Type := { first : Q; second : Q; third : Q }.

Record Separators : Type := {
  separators_enabled : bool;
  maxSeparators : Z;
  thresholds : Thresholds
}.

Record Scoring : Type := {
  apostrophe_vowelHiatus : Q;
  apostrophe_elisionPattern : Q;
  apostrophe_shortLeftBonus : Q;
  apostrophe_interestBonus : Q;
  dot_prefixPattern : Q;
  dot_veryShortLeft : Q;
  dot_interestBonus : Q;
  hyphen_criticalCluster : Q;
  hyphen_hardCluster : Q;
  hyphen_moderateCluster : Q;
  hyphen_heavySimilarRhyme : Q;
  hyphen_heavyPartialRhyme : Q;
  hyphen_heavyAndHeavy : Q;
  hyphen_identicalConsonants : Q;
  hyphen_samePlaceArticulation : Q;
  hyphen_interestBonus : Q;
  space_cleanConsonantBoundary : Q;
  space_heavyAndHeavySpace : Q;
  space_cleanSyllables : Q;
  space_naturalWordSplit : Q;
  tilde_creativePattern : Q;
  tilde_technicalSeparator : Q;
  tilde_alternativeToDot : Q;
  tilde_alternativeToHyphen : Q;
  tilde_heavyRhyme : Q;
  tilde_cleanBoundary : Q;
  tilde_interestBonus : Q;
  (* the colon entries are read through optional chaining *)
  colon_sameConsonantPattern : option WeightEntry;
  colon_similarStructure : option WeightEntry;
  colon_rhythmicPair : option WeightEntry;
  colon_interestBonus : option WeightEntry;
  heavySyllableThreshold : Z;
  critical_pairs : list string;
  hard_pairs : list string;
  moderate_pairs : list string;
  (* the array-valued entries of placeOfArticulation *)
  placeOfArticulation : list (list ascii)
}.

Record Config : Type := {
  encoding : Encoding;
  separators : Separators;
  separatorBalancing : option Balancer.BalancerConfig;
  scoring : Scoring;
  vowels : list ascii
}.

End Config.

(** ** separators.js *)
Module Separators.
Import Js Config.
Local Open Scope Q_scope.

(** the module-level [globalBalancer]; [None] is [null] *)
Definition Global : Type := option Balancer.SeparatorBalancer.

Definition getBalancer (config : Config) (g : Global) : Balancer.SeparatorBalancer :=
  match g with
  | Some balancer => balancer
  | None =>
      let balancingConfig :=
        default {| Balancer.cfg_historySize := None; Balancer.cfg_targets := None;
                   Balancer.cfg_diversityStrength := None |}
                (separatorBalancing config) in
      Balancer.new
        {| Balancer.cfg_historySize :=
             Some (or_defaultZ (Balancer.cfg_historySize balancingConfig) 100);
           Balancer.cfg_diversityStrength :=
             Some (or_default (Balancer.cfg_diversityStrength balancingConfig) (8 # 10));
           Balancer.cfg_targets :=
             Some (default Balancer.defaultTargets (Balancer.cfg_targets balancingConfig)) |}
  end.

Inductive difficulty : Type := critical | hard | moderate.

Global Instance difficulty_eq_dec : EqDecision difficulty.
Proof. solve_decision. Defined.

Definition isVowel (config : Config) (char : option ascii) : bool :=
  match char with
  | Some c => bool_decide (lower_char c ∈ vowels config)
  | None => false
  end.

Definition isHeavySyllable (config : Config) (syllable : string) : bool :=
  bool_decide (Z.of_nat (String.length syllable) >= heavySyllableThreshold (scoring config))%Z.

Definition getEnding (syllable : string) : string := slice_last 2 syllable.

Definition hasExactRhyme (syl1 syl2 : string) : bool :=
  bool_decide (getEnding syl1 = getEnding syl2).

Definition hasPartialRhyme (config : Config) (syl1 syl2 : string) : bool :=
  let last1 := last_char syl1 in
  let last2 := last_char syl2 in
  negb (isVowel config last1) && bool_decide (last1 = last2).

(** [c1 + c2]: string concatenation, with [undefined] printed as text;
    [undefined + undefined] is the number [NaN], which has no [toLowerCase]. *)
Definition char_text (c : option ascii) : string :=
  match c with
  | Some a => String a EmptyString
  | None => "undefined"
  end.

Definition checkClusterDifficulty (config : Config) (c1 c2 : option ascii)
  : outcome (option difficulty) :=
  match c1, c2 with
  | None, None => Throws TypeError
  | _, _ =>
      let pair := toLowerCase (char_text c1 +:+ char_text c2) in
      let clusters := scoring config in
      if bool_decide (pair ∈ critical_pairs clusters) then Returns (Some critical)
      else if bool_decide (pair ∈ hard_pairs clusters) then Returns (Some hard)
      else if bool_decide (pair ∈ moderate_pairs clusters) then Returns (Some moderate)
      else Returns None
  end.

Definition samePlaceOfArticulation (config : Config) (c1 c2 : option ascii) : bool :=
  match c1, c2 with
  | Some a1, Some a2 =>
      existsb (λ place, bool_decide (a1 ∈ place) && bool_decide (a2 ∈ place))
              (placeOfArticulation (scoring config))
  | _, _ => false
  end.

(** *** Rule B *)
Record RuleWeights : Type := {
  w_hyphen : option Q;
  w_space : option Q;
  w_dot : option Q
}.

Record RuleMatch : Type := {
  position : Z;
  type : option string;
  weights : RuleWeights;
  priority : Z
}.

Definition noWeights : RuleWeights := {| w_hyphen := None; w_space := None; w_dot := None |}.

Definition better (candidate bestMatch : RuleMatch) : RuleMatch :=
  if decide (priority candidate > priority bestMatch)%Z then candidate else bestMatch.

(** the counting loops: advance while the test holds, [break] otherwise *)
Fixpoint count_run (test : string → bool) (rest : list string) (count : Z) : Z :=
  match rest with
  | [] => count
  | syl :: rest' => if test syl then count_run test rest' (count + 1)%Z else count
  end.

Definition getRuleBPosition (syllables : list string) : RuleMatch :=
  if decide (length syllables < 2)%nat
  then {| position := -1; type := None; weights := noWeights; priority := 0 |}
  else
    let n := length syllables in
    let bestMatch := {| position := -1; type := None; weights := noWeights; priority := 0 |} in
    (* PRIORITY 0: non-consecutive identical syllables *)
    let bestMatch :=
      fold_left (λ bestMatch i,
        let syl := syllables !! i in
        let positions := filter (λ j, syllables !! j = syl) (seq 0 n) in
        if decide (2 <= length positions)%nat then
          fold_left (λ bestMatch p,
            match positions !! p, positions !! (p + 1)%nat with
            | Some pos1, Some pos2 =>
                if decide (Z.of_nat pos2 - Z.of_nat pos1 > 1)%Z then
                  better {| position := Z.of_nat pos2;
                            type := Some "non-consecutive-identical"%string;
                            weights := {| w_hyphen := Some 120; w_space := Some 25;
                                          w_dot := None |};
                            priority := 110 |} bestMatch
                else bestMatch
            | _, _ => bestMatch
            end) (seq 0 (length positions - 1)) bestMatch
        else bestMatch) (seq 0 n) bestMatch in
    (* PRIORITY 1: consecutive identical syllables *)
    let bestMatch :=
      fold_left (λ bestMatch start,
        let firstSyl := syllables !!! start in
        let identicalCount :=
          count_run (λ syl, bool_decide (syl = firstSyl)) (drop (start + 1) syllables) 1 in
        let bestMatch :=
          if decide (identicalCount >= 4)%Z then
            better {| position := Z.of_nat start + 2; type := Some "4x-identical"%string;
                      weights := {| w_hyphen := Some 100; w_space := Some 20; w_dot := None |};
                      priority := 100 |} bestMatch
          else bestMatch in
        let bestMatch :=
          if decide (identicalCount >= 3)%Z then
            better {| position := Z.of_nat start + 1; type := Some "3x-identical"%string;
                      weights := {| w_hyphen := Some 100; w_space := Some 20; w_dot := None |};
                      priority := 90 |} bestMatch
          else bestMatch in
        if decide (identicalCount >= 2)%Z then
          better {| position := Z.of_nat start + 1; type := Some "2x-identical"%string;
                    weights := {| w_hyphen := Some 100; w_space := Some 20; w_dot := None |};
                    priority := 80 |} bestMatch
        else bestMatch) (seq 0 (n - 1)) bestMatch in
    (* PRIORITY 2: similar syllables (same length and first character) *)
    fold_left (λ bestMatch start,
      let firstSyl := syllables !!! start in
      let firstChar := first_char firstSyl in
      let sylLen := String.length firstSyl in
      let matchCount :=
        count_run (λ syl, bool_decide (String.length syl = sylLen)
                          && bool_decide (first_char syl = firstChar))
                  (drop (start + 1) syllables) 1 in
      let bestMatch :=
        if decide (matchCount >= 4)%Z then
          better {| position := Z.of_nat start + 2; type := Some "4x"%string;
                    weights := {| w_hyphen := Some 40; w_space := Some 20; w_dot := None |};
                    priority := 50 |} bestMatch
        else bestMatch in
      if decide (matchCount >= 3)%Z then
        better {| position := Z.of_nat start + 1; type := Some "3x"%string;
                  weights := {| w_hyphen := Some 40; w_space := Some 20; w_dot := Some 40 |};
                  priority := 40 |} bestMatch
      else bestMatch) (seq 0 (n - 2)) bestMatch.

(** *** Boundary scoring *)
Record Scores : Type := {
  apostrophe : Q;
  dot : Q;
  hyphen : Q;
  space : Q;
  tilde : Q;
  colon : Q
}.

(** [Object.entries(scores)], in the order the keys are created *)
Definition entries (scores : Scores) : list (string * Q) :=
  [ ("apostrophe", apostrophe scores); ("dot", dot scores); ("hyphen", hyphen scores);
    ("space", space scores); ("tilde", tilde scores); ("colon", colon scores) ]%string.

(** [Math.max(...Object.values(scores))] *)
Definition maxScore (scores : Scores) : Q :=
  Qmax (apostrophe scores) (Qmax (dot scores) (Qmax (hyphen scores)
    (Qmax (space scores) (Qmax (tilde scores) (colon scores))))).

(** a weight used as a condition is truthy when it is present and not zero *)
Definition truthy (w : option Q) : bool :=
  match w with Some v => negb (Qeq_bool v 0) | None => false end.

Definition add_if (cond : bool) (w : Q) (score : Q) : Q :=
  if cond then score + w else score.

(** [if (weights.colon?.entry?.enabled) score += weights.colon.entry.weight] *)
Definition add_enabled (cond : bool) (entry : option WeightEntry) (score : Q) : Q :=
  match entry with
  | Some e => if cond && enabled e then score + weight e else score
  | None => score
  end.

Definition positive (q : Q) : bool := negb (Qle_bool q 0).

Definition analyzeBoundary (config : Config) (leftSyllables rightSyllables : list string)
  (allSyllables : option (list string)) : outcome Scores :=
  let weights := scoring config in
  match last leftSyllables, head rightSyllables with
  | None, _ => Throws TypeError
  | Some _, None => Throws TypeError
  | Some lastSyl, Some firstSyl =>
      let lastChar := last_char lastSyl in
      let firstChar := first_char firstSyl in
      let leftWord := join leftSyllables in
      let rightWord := join rightSyllables in
      let leftLen := length leftSyllables in
      let rightLen := length rightSyllables in
      (* RULE B *)
      let ruleBInfo :=
        match allSyllables with
        | Some all => getRuleBPosition all
        | None => {| position := -1; type := None; weights := noWeights; priority := 0 |}
        end in
      let currentPosition := Z.of_nat leftLen in
      let atRuleB :=
        bool_decide (position ruleBInfo = currentPosition) && bool_decide (is_Some (type ruleBInfo)) in
      let ruleW := Separators.weights ruleBInfo in
      let dot0 :=
        add_if (atRuleB && truthy (w_dot ruleW) && bool_decide (currentPosition = 1%Z))
               (default 0 (w_dot ruleW)) 0 in
      let hyphen0 := add_if (atRuleB && truthy (w_hyphen ruleW)) (default 0 (w_hyphen ruleW)) 0 in
      let space0 := add_if (atRuleB && truthy (w_space ruleW)) (default 0 (w_space ruleW)) 0 in
      (* APOSTROPHE *)
      let apostrophe1 :=
        add_if (isVowel config lastChar && isVowel config firstChar)
               (apostrophe_vowelHiatus weights) 0 in
      let apostrophe2 :=
        add_if (negb (isVowel config lastChar) && isVowel config firstChar)
               (apostrophe_elisionPattern weights) apostrophe1 in
      let apostrophe3 :=
        add_if (bool_decide (String.length leftWord <= 3)%nat && isVowel config firstChar)
               (apostrophe_shortLeftBonus weights) apostrophe2 in
      let apostrophe4 :=
        add_if (positive apostrophe3) (apostrophe_interestBonus weights) apostrophe3 in
      (* DOT *)
      let prefixShape :=
        bool_decide (leftLen = 1%nat) && bool_decide (2 <= rightLen)%nat
        && bool_decide (2 <= String.length leftWord)%nat
        && bool_decide (String.length leftWord <= 5)%nat in
      let dot1 := add_if prefixShape (dot_prefixPattern weights) dot0 in
      let dot2 :=
        add_if (bool_decide (leftLen = 1%nat) && bool_decide (String.length leftWord = 2%nat))
               (dot_veryShortLeft weights) dot1 in
      let dot3 := add_if (positive dot2) (dot_interestBonus weights) dot2 in
      (* HYPHEN *)
      let isHeavy1 := isHeavySyllable config lastSyl in
      let isHeavy2 := isHeavySyllable config firstSyl in
      match checkClusterDifficulty config lastChar firstChar with
      | Throws e => Throws e
      | Returns clusterDiff =>
          let exactRhyme := hasExactRhyme lastSyl firstSyl in
          let partialRhyme := hasPartialRhyme config lastSyl firstSyl in
          let bothConsonants := negb (isVowel config lastChar) && negb (isVowel config firstChar) in
          let noCluster := bool_decide (clusterDiff = None) in
          let hyphen1 :=
            match clusterDiff with
            | Some critical => hyphen0 + hyphen_criticalCluster weights
            | Some hard => hyphen0 + hyphen_hardCluster weights
            | Some moderate => hyphen0 + hyphen_moderateCluster weights
            | None => hyphen0
            end in
          let hyphen2 :=
            add_if (isHeavy1 && isHeavy2 && exactRhyme) (hyphen_heavySimilarRhyme weights) hyphen1 in
          let hyphen3 :=
            add_if (isHeavy1 && isHeavy2 && negb exactRhyme && partialRhyme)
                   (hyphen_heavyPartialRhyme weights) hyphen2 in
          let hyphen4 := add_if (isHeavy1 && isHeavy2) (hyphen_heavyAndHeavy weights) hyphen3 in
          let hyphen5 :=
            add_if (bool_decide (lastChar = firstChar) && negb (isVowel config lastChar))
                   (hyphen_identicalConsonants weights) hyphen4 in
          let hyphen6 :=
            add_if (bothConsonants && samePlaceOfArticulation config lastChar firstChar)
                   (hyphen_samePlaceArticulation weights) hyphen5 in
          let hyphen7 := add_if (positive hyphen6) (hyphen_interestBonus weights) hyphen6 in
          (* SPACE *)
          let space1 :=
            add_if (bothConsonants && noCluster) (space_cleanConsonantBoundary weights) space0 in
          let space2 :=
            add_if (isHeavy1 && isHeavy2 && negb exactRhyme)
                   (space_heavyAndHeavySpace weights) space1 in
          let space3 := add_if bothConsonants (space_cleanSyllables weights) space2 in
          let space4 :=
            add_if (bool_decide (4 <= String.length leftWord)%nat
                    && bool_decide (4 <= String.length rightWord)%nat)
                   (space_naturalWordSplit weights) space3 in
          (* TILDE *)
          let tilde1 := 0 + tilde_creativePattern weights in
          let tilde2 := tilde1 + tilde_technicalSeparator weights in
          let tilde3 := add_if prefixShape (tilde_alternativeToDot weights) tilde2 in
          let tilde4 :=
            add_if (bool_decide (clusterDiff = Some moderate) || bool_decide (clusterDiff = Some hard))
                   (tilde_alternativeToHyphen weights) tilde3 in
          let tilde5 :=
            add_if (isHeavy1 && isHeavy2 && (exactRhyme || partialRhyme))
                   (tilde_heavyRhyme weights) tilde4 in
          let tilde6 := add_if (bothConsonants && noCluster) (tilde_cleanBoundary weights) tilde5 in
          let tilde7 := tilde6 + tilde_interestBonus weights in
          (* COLON *)
          let getConsonants := λ syl, string_filter (λ c, negb (isVowel config (Some c))) syl in
          let lastConsonants := getConsonants lastSyl in
          let firstConsonants := getConsonants firstSyl in
          let colon1 :=
            add_enabled (bool_decide (lastConsonants = firstConsonants)
                         && bool_decide (2 <= String.length lastConsonants)%nat)
                        (colon_sameConsonantPattern weights) 0 in
          let colon2 :=
            add_enabled (bool_decide (String.length lastSyl = String.length firstSyl)
                         && bool_decide (String.length lastConsonants
                                         = String.length firstConsonants))
                        (colon_similarStructure weights) colon1 in
          let colon3 :=
            add_enabled (bool_decide (2 <= String.length lastSyl)%nat
                         && bool_decide (2 <= String.length firstSyl)%nat)
                        (colon_rhythmicPair weights) colon2 in
          let colon4 := add_enabled true (colon_interestBonus weights) colon3 in
          Returns {| apostrophe := apostrophe4; dot := dot3; hyphen := hyphen7;
                     space := space4; tilde := tilde7; colon := colon4 |}
      end
  end.

(** *** Choosing and placing separators *)
Definition separatorMap (winner : string) : option string :=
  if decide (winner = "apostrophe") then Some "'"
  else if decide (winner = "dot") then Some ". "
  else if decide (winner = "hyphen") then Some "-"
  else if decide (winner = "space") then Some " "
  else if decide (winner = "tilde") then Some "~"
  else if decide (winner = "colon") then Some ":"
  else None.

(** The winner is always a key of [scores], so [separatorMap] is defined on
    it; a missing key would give [undefined], which the caller treats like
    the empty string. *)
Definition chooseSeparator (config : Config) (g : Global) (scores : Scores)
  (threshold : Q) (useBalancing : bool) : string * Global :=
  let '(winner, g) :=
    if useBalancing then
      let balancer := getBalancer config g in
      let '(winner, balancer) :=
        Balancer.chooseSeparator balancer (entries scores) threshold in
      (winner, Some balancer)
    else
      let sorted :=
        sort Balancer.by_score_desc
             (filter (λ e, Qle_bool threshold (snd e) = true) (entries scores)) in
      (fst <$> head sorted, g) in
  match winner with
  | None => (EmptyString, g)
  | Some winner => (default EmptyString (separatorMap winner), g)
  end.

Record Placed : Type := {
  placed_position : nat;
  separator : string;
  score : Q
}.

Record Best : Type := {
  bestScore : Q;
  bestPosition : option nat;   (* [None] is the initial -1 *)
  bestSeparator : string
}.

Record Options : Type := {
  opt_maxSeparators : option Z;
  opt_thresholds : option Thresholds
}.

Definition noOptions : Options := {| opt_maxSeparators := None; opt_thresholds := None |}.

(** [separators.some(s => Math.abs(s.position - i) <= 1)] *)
Definition nearby (separators : list Placed) (i : nat) : bool :=
  existsb (λ s, bool_decide (Z.abs (Z.of_nat (placed_position s) - Z.of_nat i) <= 1)%Z)
          separators.

Definition nonempty (s : string) : bool :=
  match s with EmptyString => false | _ => true end.

(** the inner loop [for (let i = 1; i < syllables.length; i++)] *)
Fixpoint try_positions (config : Config) (syllables : list string) (threshold : Q)
  (separators : list Placed) (positions : list nat) (best : Best) (g : Global)
  : outcome (Best * Global) :=
  match positions with
  | [] => Returns (best, g)
  | i :: positions =>
      if nearby separators i
      then try_positions config syllables threshold separators positions best g
      else
        let left := take i syllables in
        let right := drop i syllables in
        match analyzeBoundary config left right (Some syllables) with
        | Throws e => Throws e
        | Returns scores =>
            let '(separator, g) := chooseSeparator config g scores threshold true in
            let maxScore := maxScore scores in
            let best :=
              if negb (Qle_bool maxScore (bestScore best)) && nonempty separator
              then {| bestScore := maxScore; bestPosition := Some i;
                      bestSeparator := separator |}
              else best in
            try_positions config syllables threshold separators positions best g
        end
  end.

Definition round_threshold (thresholds : Thresholds) (round : nat) : Q :=
  match round with
  | O => first thresholds
  | S O => second thresholds
  | _ => third thresholds
  end.

(** the outer loop [for (let round = 0; round < maxSeparators; round++)];
    [remaining] counts the rounds still allowed *)
Fixpoint place_rounds (config : Config) (syllables : list string) (thresholds : Thresholds)
  (remaining : nat) (round : nat) (separators : list Placed) (g : Global)
  : outcome (list Placed * Global) :=
  match remaining with
  | O => Returns (separators, g)
  | S remaining =>
      let threshold := round_threshold thresholds round in
      match try_positions config syllables threshold separators
                          (seq 1 (length syllables - 1))
                          {| bestScore := 0; bestPosition := None;
                             bestSeparator := EmptyString |} g with
      | Throws e => Throws e
      | Returns (best, g) =>
          match bestPosition best with
          | None => Returns (separators, g)
          | Some position =>
              if negb (Qle_bool threshold (bestScore best))
              then Returns (separators, g)
              else
                place_rounds config syllables thresholds remaining (S round)
                  (separators ++ [{| placed_position := position;
                                     separator := bestSeparator best;
                                     score := bestScore best |}]) g
          end
      end
  end.

(** comparator [(a, b) => a.position - b.position] *)
Definition by_position (a b : Placed) : bool :=
  bool_decide (placed_position a < placed_position b)%nat.

(** [syllables.slice(from, to)] *)
Definition slice_between {A} (l : list A) (from to : nat) : list A :=
  take (to - from) (drop from l).

Definition build (syllables : list string) (separators : list Placed) : string :=
  let '(result, lastPos) :=
    fold_left (λ '(result, lastPos) sep,
                 (result +:+ join (slice_between syllables lastPos (placed_position sep))
                         +:+ separator sep,
                  placed_position sep))
              separators (EmptyString, 0%nat) in
  result +:+ join (drop lastPos syllables).

Definition addSmartSeparators (config : Config) (g : Global) (syllables : list string)
  (options : Options) : outcome (string * Global) :=
  let sepConfig := separators config in
  if negb (separators_enabled sepConfig) then Returns (join syllables, g)
  else
    let maxSeparators := default (maxSeparators sepConfig) (opt_maxSeparators options) in
    let thresholds := default (thresholds sepConfig) (opt_thresholds options) in
    if decide (length syllables < 2)%nat then Returns (join syllables, g)
    else
      match place_rounds config syllables thresholds (Z.to_nat maxSeparators) 0 [] g with
      | Throws e => Throws e
      | Returns (separators, g) =>
          match separators with
          | [] => Returns (join syllables, g)
          | _ => Returns (build syllables (sort by_position separators), g)
          end
      end.

End Separators.

(** ** decoder.js *)
Module Decoder.
Import Js Config.

(** [createReverseLookup]: a [Map] from the lower-cased syllable to its index;
    a later duplicate overwrites an earlier one *)
Definition createReverseLookup (inventory : list string) : gmap string nat :=
  fold_left (λ map '(index, syllable), <[toLowerCase syllable := index]> map)
            (imap (λ index syllable, (index, syllable)) inventory) ∅.

Definition clean (version : string) : string :=
  string_filter is_lower_letter (toLowerCase version).

(** the inner loop [for (let len = 4; len >= 2; len--)], leaving at the first match *)
Fixpoint try_lengths (inventory : list string) (remaining : string) (lens : list nat)
  : option (string * nat) :=
  match lens with
  | [] => None
  | len :: lens =>
      if bool_decide (len <= String.length remaining)%nat
         && bool_decide (substring_to len remaining ∈ inventory)
      then Some (substring_to len remaining, len)
      else try_lengths inventory remaining lens
  end.

Equations? parse_loop (inventory : list string) (syllables : list string)
  (remaining : string) : outcome (list string) by wf (String.length remaining) lt :=
  parse_loop inventory syllables remaining with decide (0 < String.length remaining)%nat := {
    | right _ => Returns syllables
    | left _ with inspect (try_lengths inventory remaining [4; 3; 2]%nat) := {
        | exist _ (Some (candidate, len)) Hmatch =>
            parse_loop inventory (syllables ++ [candidate]) (substring_from len remaining)
        | exist _ None _ => Throws (UnrecognizedSyllable remaining) } }.
Proof.
  assert (Hlen : (2 <= len <= String.length remaining)%nat).
  { simpl in Hmatch.
    repeat match type of Hmatch with
           | (if ?c then _ else _) = _ =>
               let E := fresh in destruct c eqn:E;
               [ apply andb_true_iff in E as [E _]; apply bool_decide_eq_true in E;
                 inversion Hmatch; subst; lia | ]
           end.
    discriminate. }
  assert (Hsub : ∀ n m s, (n + m <= String.length s)%nat →
                          String.length (String.substring n m s) = m).
  { clear. induction n as [|n IHn]; intros m s.
    - revert s. induction m as [|m IHm]; intros s Hs.
      + destruct s; reflexivity.
      + destruct s as [|c s]; simpl in *; [lia|]. f_equal. apply IHm. lia.
    - destruct s as [|c s]; simpl; intros Hs; [lia|]. apply IHn. lia. }
  unfold substring_from. rewrite Hsub by lia. lia.
Qed.

Definition parseVersionToSyllables (inventory : list string) (version : string)
  : outcome (list string) :=
  if decide (String.length version = 0%nat) then Throws EmptyVersion
  else
    let cleaned := clean version in
    if decide (String.length cleaned = 0%nat) then Throws NoValidSyllables
    else parse_loop inventory [] cleaned.

Fixpoint lookup_all (lookup : gmap string nat) (syllables : list string) (indices : list Z)
  : outcome (list Z) :=
  match syllables with
  | [] => Returns indices
  | syllable :: syllables =>
      match lookup !! syllable with
      | None => Throws (UnknownSyllable syllable)
      | Some index => lookup_all lookup syllables (indices ++ [Z.of_nat index])
      end
  end.

Definition decodeVersion (config : Config) (inventory : list string) (version : string)
  : outcome Z :=
  match parseVersionToSyllables inventory version with
  | Throws e => Throws e
  | Returns syllables =>
      let lookup := createReverseLookup inventory in
      match lookup_all lookup syllables [] with
      | Throws e => Throws e
      | Returns indices =>
          let indices :=
            if digitInterleaving (encoding config)
            then Encoder.deinterleaveDigits indices else indices in
          Returns (Encoder.decodeSyllableIndices indices)
      end
  end.

(** [decodeToTimestamp(version, buildInterval = 180)]; [None] is an omitted
    argument *)
Definition decodeToTimestamp (config : Config) (inventory : list string) (version : string)
  (buildInterval : option Z) : outcome Z :=
  let buildInterval := default 180%Z buildInterval in
  match decodeVersion config inventory version with
  | Throws e => Throws e
  | Returns normalized => Returns (normalized * buildInterval)%Z
  end.

End Decoder.

(** ** config-loader.js and generator.js *)
Module Generator.
Import Js Config.

Section Generate.
(** [estimateSyllableCount] is [Math.ceil(Math.log(num + 1) / Math.log(128))],
    floating-point arithmetic; it is kept as a parameter. *)
Variable estimateSyllableCount : Z → Z.
Variable config : Config.

(** the loop over [compressionIntervals], returning from inside *)
Fixpoint try_compression (timestamp maxSyllables : Z)
  (intervals : list CompressionInterval) (interval syllableCount : Z) : Z :=
  match intervals with
  | [] => interval
  | compression :: intervals =>
      if decide (syllableCount >= threshold compression) then
        let interval := Config.interval compression in
        let normalized := timestamp / interval in
        let syllableCount := estimateSyllableCount normalized in
        if decide (syllableCount <= maxSyllables) then interval
        else try_compression timestamp maxSyllables intervals interval syllableCount
      else try_compression timestamp maxSyllables intervals interval syllableCount
  end.

Definition findOptimalInterval (timestamp maxSyllables : Z) : Z :=
  let encodingConfig := encoding config in
  let baseInterval := baseInterval encodingConfig in
  if negb (adaptiveCompression encodingConfig) then baseInterval
  else
    let interval := baseInterval in
    let normalized := timestamp / interval in
    let syllableCount := estimateSyllableCount normalized in
    if decide (syllableCount <= maxSyllables) then interval
    else try_compression timestamp maxSyllables
           (compressionIntervals encodingConfig) interval syllableCount.

Record Options : Type := {
  buildInterval : option Z;
  hyphenated : option bool;
  smartSeparators : option bool;
  minSyllables : option Z;
  maxSyllables : option Z;
  adaptiveCompression : option bool
}.

Definition noOptions : Options :=
  {| buildInterval := None; hyphenated := None; smartSeparators := None;
     minSyllables := None; maxSyllables := None; adaptiveCompression := None |}.

(** The world a call runs in: the clock ([Date.now()] in seconds) and the
    global balancer of separators.js.  The result is the returned string
    (the [version] field when metadata is asked for).  The intervals are
    positive.  An index past the inventory reads [undefined], which [join]
    prints as the empty string, as [!!!] does here; the inventory covers
    all digits, 128 entries, wherever the smart separators are used. *)
Definition generateVersion (inventory : list string) (now : Z) (g : Separators.Global)
  (timestamp : option Z) (options : Options) : outcome (string * Separators.Global) :=
  let encodingConfig := encoding config in
  let separatorConfig := separators config in
  let hyphenated := default false (hyphenated options) in
  let smartSeparators := default (separators_enabled separatorConfig) (smartSeparators options) in
  let minSyllables := default 0 (minSyllables options) in
  let maxSyllables := default (Config.maxSyllables encodingConfig) (maxSyllables options) in
  let adaptiveCompression :=
    default (Config.adaptiveCompression encodingConfig) (adaptiveCompression options) in
  let ts := default now timestamp in
  let buildInterval :=
    match buildInterval options with
    | Some given =>
        if decide (given = 0) then
          if adaptiveCompression then findOptimalInterval ts maxSyllables
          else baseInterval encodingConfig
        else given
    | None =>
        if adaptiveCompression then findOptimalInterval ts maxSyllables
        else baseInterval encodingConfig
    end in
  let normalized := ts / buildInterval in
  let indices := Encoder.encodeToSyllableIndices normalized minSyllables in
  let indices :=
    if digitInterleaving encodingConfig then Encoder.interleaveDigits indices else indices in
  let syllables := map (λ index, inventory !!! Z.to_nat index) indices in
  if smartSeparators then
    Separators.addSmartSeparators config g syllables Separators.noOptions
  else if hyphenated then
    Returns (String.concat "-" syllables, g)
  else
    Returns (join syllables, g).
End Generate.

(** [try { decodeVersion(version); return true; } catch (error) { return false; }] *)
Definition isValidVersion (config : Config) (inventory : list string) (version : string)
  : bool :=
  match Decoder.decodeVersion config inventory version with
  | Returns _ => true
  | Throws _ => false
  end.

End Generator.

(** ** The vocabulary of the specification *)
Module Spec.
Import Js Config Separators.

(** *** The four-phase cycle, as the specification words it: a machine with
    the output built so far, the two cursors and the phase counter. *)
Record cycle_state (A : Type) : Type := CycleState {
  output : list A;
  cursor_left : Z;
  cursor_right : Z;
  phase : Z
}.
Arguments CycleState {A} output cursor_left cursor_right phase.
Arguments output {A} c.
Arguments cursor_left {A} c.
Arguments cursor_right {A} c.
Arguments phase {A} c.

Inductive cycle_step {A} (digits : list A) : cycle_state A → cycle_state A → Prop :=
| phase_0 out l r d :
    l <= r → 0 <= r → digits !! Z.to_nat r = Some d →
    cycle_step digits (CycleState out l r 0) (CycleState (d :: out) l (r - 1) 1)
| phase_1 out l r d :
    l <= r → 0 <= r → digits !! Z.to_nat r = Some d →
    cycle_step digits (CycleState out l r 1) (CycleState (out ++ [d]) l (r - 1) 2)
| phase_2 out l r d :
    l <= r → 0 <= l → digits !! Z.to_nat l = Some d →
    cycle_step digits (CycleState out l r 2) (CycleState (d :: out) (l + 1) r 3)
| phase_3 out l r d :
    l <= r → 0 <= l → digits !! Z.to_nat l = Some d →
    cycle_step digits (CycleState out l r 3) (CycleState (out ++ [d]) (l + 1) r 0).

Definition cycle_done {A} (st : cycle_state A) : Prop := cursor_left st > cursor_right st.

(** [digits[l..r]] *)
Definition slice {A} (digits : list A) (l r : Z) : list A :=
  take (Z.to_nat (r + 1 - l)) (drop (Z.to_nat l) digits).

(** the position mapping [deinterleaveDigits] builds for arrays of length [n] *)
Definition position_map (n : nat) : list nat :=
  Encoder.interleave_loop (seq 0 n) 1 (Z.of_nat n - 1) 0 [Encoder.at_index (seq 0 n) 0].

(** *** The balancer *)

Definition occurrences (history : list string) (sep : string) : nat :=
  length (filter (λ s, s = sep) history).

(** the share of [sep] in the history, in percent *)
Definition usage_percent (history : list string) (sep : string) : Q :=
  match history with
  | [] => 0
  | _ => inject_Z (Z.of_nat (occurrences history sep))
         / inject_Z (Z.of_nat (length history)) * 100
  end.

Definition clamp (lo hi x : Q) : Q := Qmax lo (Qmin hi x).

(** a balancer after any sequence of calls: only the history differs *)
Definition with_history (b : Balancer.SeparatorBalancer) (h : list string)
  : Balancer.SeparatorBalancer :=
  {| Balancer.historySize := Balancer.historySize b; Balancer.history := h;
     Balancer.targets := Balancer.targets b;
     Balancer.diversityStrength := Balancer.diversityStrength b |}.

Definition defaultBalancerConfig : Balancer.BalancerConfig :=
  {| Balancer.cfg_historySize := None; Balancer.cfg_targets := None;
     Balancer.cfg_diversityStrength := None |}.

(** *** The parser *)

(** the two alphabets, letter by letter *)
Definition lowercase_letters : list ascii :=
  list_ascii_of_string "abcdefghijklmnopqrstuvwxyz".

Definition uppercase_letters : list ascii :=
  list_ascii_of_string "ABCDEFGHIJKLMNOPQRSTUVWXYZ".

(** the letter a character stands for, in lower case: a lowercase letter
    stands for itself, an uppercase letter for its lowercase form, and any
    other character for no letter *)
Definition letter_of (c : ascii) : option ascii :=
  snd <$> List.find (λ entry, Ascii.eqb (fst entry) c)
            (zip lowercase_letters lowercase_letters
             ++ zip uppercase_letters lowercase_letters).

(** the letter stream of an input: its letters in input order, each in
    lower case, every other character deleted *)
Definition letter_stream (version : string) : string :=
  string_of_list_ascii (omap letter_of (list_ascii_of_string version)).

(** what is left of an input when only the characters that are lowercase
    letters already are kept, without lower-casing *)
Definition lowercase_only (version : string) : string :=
  string_of_list_ascii
    (List.filter (λ c, existsb (Ascii.eqb c) lowercase_letters)
                 (list_ascii_of_string version)).

(** every character is one of a..z *)
Fixpoint lowercase_word (s : string) : bool :=
  match s with
  | EmptyString => true
  | String c s' => is_lower_letter c && lowercase_word s'
  end.

Definition is_prefix (syl r : string) : Prop := ∃ rest, r = syl +:+ rest.

(** the lengths the parser tries *)
Definition tried_length (syl : string) : Prop := (2 <= String.length syl <= 4)%nat.

(** [syl] is the longest inventory syllable of a tried length that begins [r] *)
Definition longest_match (inventory : list string) (r syl : string) : Prop :=
  syl ∈ inventory ∧ tried_length syl ∧ is_prefix syl r
  ∧ ∀ other, other ∈ inventory → tried_length other → is_prefix other r →
             (String.length other <= String.length syl)%nat.

Definition no_match (inventory : list string) (r : string) : Prop :=
  ∀ syl, syl ∈ inventory → tried_length syl → ¬ is_prefix syl r.

(** greedy scanning: from [r], emitting [syls], arriving at the remainder *)
Inductive greedy (inventory : list string) : string → list string → string → Prop :=
| greedy_stop r : greedy inventory r [] r
| greedy_step r syl rest syls final :
    longest_match inventory r syl → r = syl +:+ rest →
    greedy inventory rest syls final →
    greedy inventory r (syl :: syls) final.

(** what a run of the parsing loop ends in *)
Inductive loop_result (inventory : list string) (acc : list string) (r : string)
  : outcome (list string) → Prop :=
| loop_returns syls :
    greedy inventory r syls EmptyString →
    loop_result inventory acc r (Returns (acc ++ syls))
| loop_throws syls stuck :
    greedy inventory r syls stuck → stuck ≠ EmptyString → no_match inventory stuck →
    loop_result inventory acc r (Throws (UnrecognizedSyllable stuck)).

Definition halted (inventory : list string) (r : string) : Prop :=
  r = EmptyString ∨ no_match inventory r.

(** the external precondition on the inventory, prefix-unambiguity: a
    syllable followed by further syllables is never begun by a longer
    inventory syllable.  It says nothing on the lengths of the syllables;
    that every syllable has a length the parser tries is a condition of its
    own, [Forall tried_length]. *)
Definition prefix_unambiguous (inventory : list string) : Prop :=
  ∀ syl rest other,
    syl ∈ inventory → Forall (λ s, s ∈ inventory) rest → other ∈ inventory →
    is_prefix other (syl +:+ join rest) →
    (String.length other <= String.length syl)%nat.

(** a decidable criterion for the two conditions together: every syllable
    has 2 to 4 letters, and no syllable continues another with letters that
    could begin a syllable *)
Definition unambiguous_check (inventory : list string) : bool :=
  forallb (λ syl,
    (2 <=? String.length syl)%nat && (String.length syl <=? 4)%nat
    && forallb (λ other,
         implb (String.prefix syl other && (String.length syl <? String.length other)%nat)
               (forallb (λ next,
                  negb (String.prefix (substring_from (String.length syl) other) next))
                  inventory))
         inventory)
    inventory.

(** *** The separator engine *)
Local Open Scope Q_scope.

Definition position_le (a b : Placed) : Prop :=
  (placed_position a <= placed_position b)%nat.

(** a separator that the parser's cleaning step removes entirely *)
Definition decoration (s : string) : Prop := Decoder.clean s = EmptyString.

Definition six_separators : list string := ["'"; ". "; "-"; " "; "~"; ":"].

(** the balancer [b] picks [sep]: its category has the highest
    diversity-adjusted score, and that score reaches the threshold *)
Definition chosen_by (b : Balancer.SeparatorBalancer) (scores : Scores) (threshold : Q)
  (sep : string) : Prop :=
  ∃ winner adjusted,
    (winner, adjusted) ∈ Balancer.adjustScores b (entries scores)
    ∧ threshold <= adjusted
    ∧ (∀ other adjusted', (other, adjusted') ∈ Balancer.adjustScores b (entries scores) →
                           adjusted' <= adjusted)
    ∧ separatorMap winner = Some sep.

(** the balancer [b] picks nothing: no adjusted score reaches the threshold *)
Definition rejected_by (b : Balancer.SeparatorBalancer) (scores : Scores) (threshold : Q)
  : Prop :=
  ∀ category adjusted,
    (category, adjusted) ∈ Balancer.adjustScores b (entries scores) → adjusted < threshold.

(** the raw scores of boundary [i] *)
Definition boundary_scores (config : Config) (syllables : list string) (i : nat)
  : outcome Scores :=
  analyzeBoundary config (take i syllables) (drop i syllables) (Some syllables).

(** the balancer a call started in state [g0] works with: its settings are
    fixed, only the history moves *)
Definition settings_of (config : Config) (g0 : Global) (b : Balancer.SeparatorBalancer)
  : Prop :=
  ∃ h, b = with_history (getBalancer config g0) h.

Inductive state_of (config : Config) (g0 : Global) : Global → Prop :=
| state_initial : state_of config g0 g0
| state_later b : settings_of config g0 b → state_of config g0 (Some b).

(** boundary [i] has been examined and did not beat [best] *)
Definition examined_ok (config : Config) (syllables : list string) (g0 : Global)
  (threshold : Q) (best : Best) (i : nat) : Prop :=
  ∃ scores, boundary_scores config syllables i = Returns scores
            ∧ (maxScore scores <= bestScore best
               ∨ ∃ b, settings_of config g0 b ∧ rejected_by b scores threshold).

(** [best] is the initial record or was taken from an examined boundary *)
Definition candidate_ok (config : Config) (syllables : list string) (g0 : Global)
  (threshold : Q) (separators : list Placed) (domain : list nat) (best : Best) : Prop :=
  match bestPosition best with
  | None => bestScore best == 0
  | Some i =>
      i ∈ domain ∧ nearby separators i = false
      ∧ 0 < bestScore best
      ∧ bestSeparator best ∈ six_separators
      ∧ ∃ scores b, boundary_scores config syllables i = Returns scores
                    ∧ bestScore best = maxScore scores
                    ∧ settings_of config g0 b
                    ∧ chosen_by b scores threshold (bestSeparator best)
  end.

Definition boundaries (syllables : list string) : list nat :=
  seq 1 (length syllables - 1).

(** conditions that hold of every separator placed in round [round], with
    [earlier] placed before it (they do not single out the placed separator;
    [Selection.selection] does): it sits on a boundary farther than 1 from
    the earlier ones; its recorded score is the highest raw score of its boundary and
    reaches the round's threshold; its category is the balancer's pick
    there; and every other boundary still eligible either has no higher raw
    score or was turned down by the balancer *)
Definition placement_ok (config : Config) (syllables : list string) (g0 : Global)
  (thresholds : Thresholds) (earlier : list Placed) (round : nat) (p : Placed) : Prop :=
  let threshold := round_threshold thresholds round in
  (1 <= placed_position p < length syllables)%nat
  ∧ nearby earlier (placed_position p) = false
  ∧ separator p ∈ six_separators
  ∧ threshold <= score p
  ∧ (∃ scores b, boundary_scores config syllables (placed_position p) = Returns scores
                 ∧ score p = maxScore scores
                 ∧ settings_of config g0 b
                 ∧ chosen_by b scores threshold (separator p))
  ∧ (∀ i, (1 <= i < length syllables)%nat → nearby earlier i = false →
          ∃ scores, boundary_scores config syllables i = Returns scores
                    ∧ (maxScore scores <= score p
                       ∨ ∃ b, settings_of config g0 b ∧ rejected_by b scores threshold)).

(** the engine can score every boundary *)
Definition scorable (config : Config) (syllables : list string) : Prop :=
  ∀ i, (1 <= i < length syllables)%nat →
       ∃ scores, boundary_scores config syllables i = Returns scores.



End Spec.

(** ** Example data: the documented configuration and a small inventory *)
Module Example.
Import Config.
Local Open Scope Q_scope.

(** the weights, thresholds and cluster tables of the documentation *)
Definition documentedScoring : Scoring := {|
  apostrophe_vowelHiatus := 200; apostrophe_elisionPattern := 120;
  apostrophe_shortLeftBonus := 30; apostrophe_interestBonus := 50;
  dot_prefixPattern := 200; dot_veryShortLeft := 50; dot_interestBonus := 30;
  hyphen_criticalCluster := 160; hyphen_hardCluster := 140; hyphen_moderateCluster := 100;
  hyphen_heavySimilarRhyme := 140; hyphen_heavyPartialRhyme := 140;
  hyphen_heavyAndHeavy := 60; hyphen_identicalConsonants := 120;
  hyphen_samePlaceArticulation := 40; hyphen_interestBonus := 5;
  space_cleanConsonantBoundary := 300; space_heavyAndHeavySpace := 280;
  space_cleanSyllables := 120; space_naturalWordSplit := 80;
  tilde_creativePattern := 30; tilde_technicalSeparator := 0;
  tilde_alternativeToDot := 60; tilde_alternativeToHyphen := 60;
  tilde_heavyRhyme := 80; tilde_cleanBoundary := 40; tilde_interestBonus := 15;
  colon_sameConsonantPattern := Some {| weight := 300; enabled := true |};
  colon_similarStructure := Some {| weight := 30; enabled := false |};
  colon_rhythmicPair := Some {| weight := 20; enabled := false |};
  colon_interestBonus := Some {| weight := 0; enabled := true |};
  heavySyllableThreshold := 4;
  critical_pairs := ["tl"; "dl"; "pn"; "bn"; "gn"; "sr"; "zr"; "pb"; "td"; "kg"];
  hard_pairs := ["kd"; "kt"; "bd"; "bk"; "gd"; "gt"; "pd"; "pt"; "nm"; "mn"];
  moderate_pairs := ["fs"; "sz"; "fp"; "vb"; "ft"; "vd"];
  placeOfArticulation := [ ["p"; "b"; "m"]; ["t"; "d"; "n"; "s"; "z"; "l"]; ["k"; "g"] ]%char
|}.

Definition documentedConfig : Config := {|
  encoding := {| baseInterval := 900; maxSyllables := 6; adaptiveCompression := true;
                 digitInterleaving := true; compressionIntervals := [] |};
  separators := {| separators_enabled := true; maxSeparators := 2;
                   thresholds := {| first := 100; second := 70; third := 50 |} |};
  separatorBalancing := Some {| Balancer.cfg_historySize := Some 100%Z;
                                Balancer.cfg_targets := None;
                                Balancer.cfg_diversityStrength := Some (8 # 10) |};
  scoring := documentedScoring;
  vowels := ["a"; "e"; "i"; "o"; "u"]%char
|}.

Definition exampleInventory : list string :=
  ["ba"; "be"; "bi"; "tik"; "tok"; "brak"; "drak"; "nok"].

(** the count of base-128 digits, standing in for the floating-point estimate *)
Definition digitCount (num : Z) : Z := Z.of_nat (length (Encoder.toBase128 num)).

(** a run of the engine in which the two boundaries compete: the syllables,
    the balancer before and after the first boundary is examined, and the
    raw and the balancer-adjusted scores of a boundary *)
Definition competing : list string := ["bat"; "nok"; "nok"].

Definition fresh : Balancer.SeparatorBalancer := Separators.getBalancer documentedConfig None.

Definition later : Balancer.SeparatorBalancer := Balancer.recordUsage fresh "space".

Definition raw (i : nat) : list (string * Q) :=
  match Spec.boundary_scores documentedConfig competing i with
  | Returns scores => Separators.entries scores
  | Throws _ => []
  end.

Definition adjusted (i : nat) : list (string * Q) :=
  Balancer.adjustScores (if decide (i = 1%nat) then fresh else later) (raw i).

(** an inventory that covers all 128 digits: the two-letter syllables made
    of one of 16 first letters and one of 8 second letters *)
Definition gridInventory : list string :=
  flat_map (λ a, map (λ b, String a (String b EmptyString))
                     (list_ascii_of_string "aeiouyrl"))
           (list_ascii_of_string "bcdfghjkmnpstvwz").

(** the options of a call that names its build interval and nothing else *)
Definition intervalOnly : Generator.Options := {|
  Generator.buildInterval := Some 1%Z; Generator.hyphenated := None;
  Generator.smartSeparators := None; Generator.minSyllables := None;
  Generator.maxSyllables := None; Generator.adaptiveCompression := None
|}.

End Example.

(** ** Further notions used in the statements *)
Module Notions.
Import Js Config Separators.

(** a digit sequence as [toBase128] writes it: digits of base 128, no
    leading zero, the number 0 written as the single digit 0 *)
Definition canonical (digits : list Z) : Prop :=
  Forall (λ d, 0 <= d < 128)%Z digits
  ∧ (digits = [0%Z] ∨ ∃ d rest, digits = d :: rest ∧ d ≠ 0%Z).

(** the last [n] entries of a list *)
Definition window {A} (n : nat) (l : list A) : list A := drop (length l - n) l.

(** the first entry of [l] whose score is the highest among the entries
    that reach the threshold *)
Definition first_highest (l : list (string * Q)) (threshold : Q) (i : nat)
  (winner : string) (score : Q) : Prop :=
  l !! i = Some (winner, score) ∧ (threshold <= score)%Q
  ∧ ∀ j e, l !! j = Some e → (threshold <= snd e)%Q →
           (snd e <= score)%Q ∧ ((j < i)%nat → (snd e < score)%Q).

(** the syllables [generateVersion] maps the normalised number [x] to, with
    the minimum length [m] *)
Definition syllables_of (config : Config) (inventory : list string) (x m : Z)
  : list string :=
  let indices := Encoder.encodeToSyllableIndices x m in
  let indices :=
    if digitInterleaving (encoding config) then Encoder.interleaveDigits indices
    else indices in
  map (λ index, inventory !!! Z.to_nat index) indices.

(** the index [i] is the last place of the key [k] in [keys] *)
Definition last_index (keys : list string) (k : string) (i : nat) : Prop :=
  keys !! i = Some k ∧ ∀ j, (i < j)%nat → keys !! j ≠ Some k.

End Notions.

(** ** The selection of separators, round by round *)
Module Selection.
Import Js Config Separators Spec Notions.
Local Open Scope Q_scope.

(** boundary [i] is farther than 1 position from every separator placed
    so far *)
Definition far_from (placed : list Placed) (i : nat) : Prop :=
  Forall (λ p, (1 < Z.abs (Z.of_nat (placed_position p) - Z.of_nat i))%Z) placed.

Global Instance far_from_dec (placed : list Placed) (i : nat) : Decision (far_from placed i).
Proof. apply Forall_dec. intros p. apply _. Defined.

(** the boundaries a round examines, in the order in which it examines them *)
Definition eligible (syllables : list string) (placed : list Placed) : list nat :=
  filter (far_from placed) (seq 1 (length syllables - 1)).

(** what the balancer [b] answers for the scores of a boundary: the
    category whose adjusted score is the highest among those that reach the
    threshold, the first in key order among equals, with its separator
    string; or nothing, when no adjusted score reaches the threshold *)
Definition balancer_answer (b : Balancer.SeparatorBalancer) (scores : Scores)
  (threshold : Q) (answer : option (string * string)) : Prop :=
  match answer with
  | Some (category, sep) =>
      (∃ i adjusted,
         first_highest (Balancer.adjustScores b (entries scores)) threshold i category adjusted)
      ∧ separatorMap category = Some sep
  | None => ∀ e, e ∈ Balancer.adjustScores b (entries scores) → snd e < threshold
  end.

(** the balancer after its answer: a usage of the answered category is
    recorded *)
Definition after_answer (b : Balancer.SeparatorBalancer) (answer : option (string * string))
  : Balancer.SeparatorBalancer :=
  match answer with
  | Some (category, _) => Balancer.recordUsage b category
  | None => b
  end.

(** one examination: the boundary, its raw scores, the balancer as it was
    when the boundary was examined, and the balancer's answer *)
Record Examination : Type := {
  ex_boundary : nat;
  ex_scores : Scores;
  ex_balancer : Balancer.SeparatorBalancer;
  ex_answer : option (string * string)
}.

(** the examinations of the boundaries [positions], one after the other,
    from the global balancer [g]: each boundary is scored and put to the
    balancer in the state the examinations before it have left *)
Inductive examinations (config : Config) (syllables : list string) (threshold : Q)
  : Global → list nat → list Examination → Global → Prop :=
| exam_none g : examinations config syllables threshold g [] [] g
| exam_next g i positions scores answer trace g' :
    boundary_scores config syllables i = Returns scores →
    balancer_answer (getBalancer config g) scores threshold answer →
    examinations config syllables threshold
      (Some (after_answer (getBalancer config g) answer)) positions trace g' →
    examinations config syllables threshold g (i :: positions)
      ({| ex_boundary := i; ex_scores := scores;
          ex_balancer := getBalancer config g; ex_answer := answer |} :: trace) g'.

(** the examination a round takes: the balancer gave an answer there, the
    highest raw score is positive and no examination with an answer has a
    higher one, and every earlier examination with an answer has a lower
    one *)
Definition candidate (trace : list Examination) (k : nat) (e : Examination) : Prop :=
  trace !! k = Some e ∧ is_Some (ex_answer e) ∧ 0 < maxScore (ex_scores e)
  ∧ ∀ j e', trace !! j = Some e' → is_Some (ex_answer e') →
            maxScore (ex_scores e') <= maxScore (ex_scores e)
            ∧ ((j < k)%nat → maxScore (ex_scores e') < maxScore (ex_scores e)).

(** a round, with [placed] from the earlier rounds: it examines the
    eligible boundaries and places the balancer's answer at the candidate
    if the candidate's highest raw score reaches the threshold; if there is
    no candidate, or its score is below the threshold, it places nothing *)
Inductive round (config : Config) (syllables : list string) (threshold : Q)
  (placed : list Placed) (g : Global) : option Placed → Global → Prop :=
| round_places trace g' k e category p :
    examinations config syllables threshold g (eligible syllables placed) trace g' →
    candidate trace k e →
    threshold <= maxScore (ex_scores e) →
    ex_answer e = Some (category, separator p) →
    placed_position p = ex_boundary e →
    score p = maxScore (ex_scores e) →
    round config syllables threshold placed g (Some p) g'
| round_stops trace g' :
    examinations config syllables threshold g (eligible syllables placed) trace g' →
    (∀ k e, candidate trace k e → maxScore (ex_scores e) < threshold) →
    round config syllables threshold placed g None g'.



End Selection.

(** * Properties *)

Import Js Config Encoder Balancer Separators Decoder Spec Example.

(** ** encoder.js *)

(** *** The loops *)

Lemma digits_left_div (remaining : Z) :
  remaining > 0 → (digits_left (remaining / 128) < digits_left remaining)%nat.
Proof.
  intros Hpos. unfold digits_left.
  destruct (decide (remaining > 0)) as [_|]; [|lia].
  destruct (decide (remaining / 128 > 0)) as [Hq|]; [|lia].
  assert (Hsh : remaining / 128 = Z.shiftr remaining 7)
    by (rewrite Z.shiftr_div_pow2; [reflexivity | lia]).
  rewrite Hsh, Z.log2_shiftr by lia.
  assert (128 <= remaining).
  { destruct (Z_lt_le_dec remaining 128) as [Hlt|]; [|lia].
    rewrite Z.div_small in Hq; lia. }
  assert (7 <= Z.log2 remaining)
    by (change 7 with (Z.log2 128); apply Z.log2_le_mono; lia).
  lia.
Qed.

Lemma toBase128_loop_unfold digits remaining :
  toBase128_loop digits remaining =
    if decide (remaining > 0)
    then toBase128_loop ((remaining mod 128) :: digits) (remaining / 128)
    else digits.
Proof.
  rewrite toBase128_loop_equation_1. 
  destruct (decide (remaining > 0)); reflexivity.
Qed.

Lemma pad_loop_unfold indices minLength :
  pad_loop indices minLength =
    if decide (Z.of_nat (length indices) < minLength)
    then pad_loop (0 :: indices) minLength
    else indices.
Proof.
  rewrite pad_loop_equation_1.
  destruct (decide (Z.of_nat (length indices) < minLength)); reflexivity.
Qed.

Lemma interleave_loop_unfold {A} `{Inhabited A} (digits : list A) left right step result :
  interleave_loop digits left right step result =
    if decide (left <= right) then
      let cyclePos := step mod 4 in
      if cyclePos =? 0 then
        interleave_loop digits left (right - 1) (step + 1) (at_index digits right :: result)
      else if cyclePos =? 1 then
        interleave_loop digits left (right - 1) (step + 1) (result ++ [at_index digits right])
      else if cyclePos =? 2 then
        interleave_loop digits (left + 1) right (step + 1) (at_index digits left :: result)
      else
        interleave_loop digits (left + 1) right (step + 1) (result ++ [at_index digits left])
    else result.
Proof.
  rewrite interleave_loop_equation_1.
  destruct (decide (left <= right)); reflexivity.
Qed.

(** *** The codec *)

Lemma toBase128_loop_ind (P : list Z → Z → list Z → Prop) :
  (∀ digits remaining, ¬ remaining > 0 → P digits remaining digits) →
  (∀ digits remaining out, remaining > 0 →
     P ((remaining mod 128) :: digits) (remaining / 128) out → P digits remaining out) →
  ∀ digits remaining, P digits remaining (toBase128_loop digits remaining).
Proof.
  intros Hstop Hstep digits remaining.
  remember (digits_left remaining) as k eqn:Hk.
  revert digits remaining Hk.
  induction k as [k IH] using lt_wf_ind. intros digits remaining ->.
  rewrite toBase128_loop_unfold.
  destruct (decide (remaining > 0)) as [Hpos|Hneg].
  - apply Hstep; [assumption|].
    eapply IH; [|reflexivity]. apply digits_left_div; assumption.
  - apply Hstop; assumption.
Qed.

Lemma fromBase128_snoc digits d :
  fromBase128 (digits ++ [d]) = fromBase128 digits * 128 + d.
Proof. unfold fromBase128. rewrite fold_left_app. reflexivity. Qed.

Lemma fold_decode_app acc l :
  fold_left (λ num d, num * 128 + d) l acc
  = acc * 128 ^ Z.of_nat (length l) + fromBase128 l.
Proof.
  unfold fromBase128. revert acc. induction l as [|d l IH] using rev_ind; intros acc.
  - simpl. lia.
  - rewrite !fold_left_app. simpl. rewrite IH, (IH 0).
    rewrite length_app, Nat2Z.inj_add. simpl length.
    rewrite Z.pow_add_r by lia. change (128 ^ Z.of_nat 1) with 128. ring.
Qed.

Lemma toBase128_loop_value digits remaining :
  0 <= remaining →
  fold_left (λ num d, num * 128 + d) (toBase128_loop digits remaining) 0
  = remaining * 128 ^ Z.of_nat (length digits) + fromBase128 digits.
Proof.
  pattern digits, remaining, (toBase128_loop digits remaining).
  apply toBase128_loop_ind; clear digits remaining.
  - intros digits remaining Hle Hge. assert (remaining = 0) as -> by lia.
    unfold fromBase128. lia.
  - intros digits remaining out Hpos IH _.
    rewrite IH by (apply Z.div_pos; lia).
    change (fromBase128 (remaining mod 128 :: digits))
      with (fold_left (λ num d, num * 128 + d) digits (0 * 128 + remaining mod 128)).
    rewrite fold_decode_app. simpl length. rewrite Nat2Z.inj_succ, Z.pow_succ_r by lia.
    pose proof (Z.div_mod remaining 128 ltac:(lia)) as Hdm. nia.
Qed.

Lemma fromBase128_toBase128 x : 0 <= x → fromBase128 (toBase128 x) = x.
Proof.
  intros Hx. unfold toBase128. destruct (decide (x = 0)) as [->|Hne]; [reflexivity|].
  unfold fromBase128 at 1. rewrite toBase128_loop_value by assumption.
  simpl. unfold fromBase128. simpl. lia.
Qed.

Lemma pad_loop_ind (minLength : Z) (P : list Z → list Z → Prop) :
  (∀ indices, ¬ Z.of_nat (length indices) < minLength → P indices indices) →
  (∀ indices out, Z.of_nat (length indices) < minLength →
     P (0 :: indices) out → P indices out) →
  ∀ indices, P indices (pad_loop indices minLength).
Proof.
  intros Hstop Hstep indices.
  remember (Z.to_nat (minLength - Z.of_nat (length indices))) as k eqn:Hk.
  revert indices Hk. induction k as [k IH] using lt_wf_ind. intros indices ->.
  rewrite pad_loop_unfold.
  destruct (decide (Z.of_nat (length indices) < minLength)) as [Hlt|Hge].
  - apply Hstep; [assumption|]. eapply IH; [|reflexivity]. simpl length. lia.
  - apply Hstop; assumption.
Qed.

Lemma fromBase128_zero_cons digits : fromBase128 (0 :: digits) = fromBase128 digits.
Proof. reflexivity. Qed.

Lemma pad_loop_value indices minLength :
  fromBase128 (pad_loop indices minLength) = fromBase128 indices.
Proof.
  pattern indices, (pad_loop indices minLength). apply pad_loop_ind; clear indices.
  - reflexivity.
  - intros indices out _ ->. apply fromBase128_zero_cons.
Qed.

Lemma pad_loop_shape indices minLength :
  ∃ k, pad_loop indices minLength = replicate k 0 ++ indices
       ∧ Z.of_nat (length (pad_loop indices minLength))
         = Z.max minLength (Z.of_nat (length indices)).
Proof.
  pattern indices, (pad_loop indices minLength). apply pad_loop_ind; clear indices.
  - intros indices Hge. exists 0%nat. split; [reflexivity | lia].
  - intros indices out Hlt (k & -> & Hlen). exists (S k). split.
    + change (0 :: indices) with ([0] ++ indices). rewrite app_assoc.
      f_equal. change [0] with (replicate 1 0). rewrite <- replicate_add.
      f_equal. lia.
    + rewrite Hlen. simpl length. lia.
Qed.

Lemma toBase128_loop_range digits remaining :
  Forall (λ d, 0 <= d < 128) digits →
  Forall (λ d, 0 <= d < 128) (toBase128_loop digits remaining).
Proof.
  pattern digits, remaining, (toBase128_loop digits remaining).
  apply toBase128_loop_ind; clear digits remaining.
  - auto.
  - intros digits remaining out _ IH Hall. apply IH. constructor; [|assumption].
    apply Z.mod_pos_bound. lia.
Qed.

Lemma toBase128_loop_nonempty digits remaining :
  remaining > 0 ∨ digits ≠ [] → toBase128_loop digits remaining ≠ [].
Proof.
  pattern digits, remaining, (toBase128_loop digits remaining).
  apply toBase128_loop_ind; clear digits remaining.
  - intros digits remaining Hle [?|?]; [lia | assumption].
  - intros digits remaining out _ IH _. apply IH. right. discriminate.
Qed.

Lemma toBase128_negative x : x < 0 → toBase128 x = [].
Proof.
  intros Hx. unfold toBase128. destruct (decide (x = 0)); [lia|].
  rewrite toBase128_loop_unfold. destruct (decide (x > 0)); [lia | reflexivity].
Qed.

(** *** Interleaving *)

Section InterleaveFacts.
Context {A : Type} `{Inhabited A}.
Implicit Types digits res : list A.

Lemma interleave_loop_ind digits (P : Z → Z → Z → list A → list A → Prop) :
  (∀ l r s res, ¬ l <= r → P l r s res res) →
  (∀ l r s res out, l <= r → s mod 4 = 0 →
     P l (r - 1) (s + 1) (at_index digits r :: res) out → P l r s res out) →
  (∀ l r s res out, l <= r → s mod 4 = 1 →
     P l (r - 1) (s + 1) (res ++ [at_index digits r]) out → P l r s res out) →
  (∀ l r s res out, l <= r → s mod 4 = 2 →
     P (l + 1) r (s + 1) (at_index digits l :: res) out → P l r s res out) →
  (∀ l r s res out, l <= r → s mod 4 = 3 →
     P (l + 1) r (s + 1) (res ++ [at_index digits l]) out → P l r s res out) →
  ∀ l r s res, P l r s res (interleave_loop digits l r s res).
Proof.
  intros Hstop H0 H1 H2 H3 l r s res.
  remember (Z.to_nat (r + 1 - l)) as k eqn:Hk.
  revert l r s res Hk. induction k as [k IH] using lt_wf_ind. intros l r s res ->.
  rewrite interleave_loop_unfold.
  destruct (decide (l <= r)) as [Hle|Hgt]; [|apply Hstop; assumption].
  cbv zeta. pose proof (Z.mod_pos_bound s 4 ltac:(lia)) as Hb.
  destruct (Z.eqb_spec (s mod 4) 0) as [E0|N0].
  { apply H0; try assumption. eapply IH; [|reflexivity]. lia. }
  destruct (Z.eqb_spec (s mod 4) 1) as [E1|N1].
  { apply H1; try assumption. eapply IH; [|reflexivity]. lia. }
  destruct (Z.eqb_spec (s mod 4) 2) as [E2|N2].
  { apply H2; try assumption. eapply IH; [|reflexivity]. lia. }
  apply H3; [assumption | lia |]. eapply IH; [|reflexivity]. lia.
Qed.

Lemma at_index_lookup digits i :
  0 <= i < Z.of_nat (length digits) → digits !! Z.to_nat i = Some (at_index digits i).
Proof.
  intros Hi. unfold at_index. apply list_lookup_lookup_total_lt. lia.
Qed.

Lemma slice_empty digits l r : ¬ l <= r → slice digits l r = [].
Proof. intros Hgt. unfold slice. replace (Z.to_nat (r + 1 - l)) with O by lia. reflexivity. Qed.

Lemma slice_first digits l r :
  0 <= l → l <= r → r < Z.of_nat (length digits) →
  slice digits l r = at_index digits l :: slice digits (l + 1) r.
Proof.
  intros Hl Hle Hr. unfold slice.
  rewrite (drop_S digits (at_index digits l) (Z.to_nat l)) by (apply at_index_lookup; lia).
  replace (Z.to_nat (r + 1 - l)) with (S (Z.to_nat (r + 1 - (l + 1)))) by lia.
  replace (Z.to_nat (l + 1)) with (S (Z.to_nat l)) by lia.
  reflexivity.
Qed.

Lemma slice_last digits l r :
  0 <= l → l <= r → r < Z.of_nat (length digits) →
  slice digits l r = slice digits l (r - 1) ++ [at_index digits r].
Proof.
  intros Hl Hle Hr. unfold slice.
  replace (Z.to_nat (r + 1 - l)) with (S (Z.to_nat (r - 1 + 1 - l))) by lia.
  apply take_S_r. rewrite lookup_drop.
  replace (Z.to_nat l + Z.to_nat (r - 1 + 1 - l))%nat with (Z.to_nat r) by lia.
  apply at_index_lookup. lia.
Qed.

Lemma interleave_loop_perm digits l r s res :
  0 <= l → r < Z.of_nat (length digits) →
  interleave_loop digits l r s res ≡ₚ res ++ slice digits l r.
Proof.
  pattern l, r, s, res, (interleave_loop digits l r s res).
  apply interleave_loop_ind; clear l r s res.
  - intros l r s res Hgt _ _. rewrite slice_empty by assumption. by rewrite app_nil_r.
  - intros l r s res out Hle _ IH Hl Hr. rewrite IH by lia.
    rewrite (slice_last digits l r) by lia.
    rewrite app_assoc. rewrite <- Permutation_cons_append. simpl. 
    by rewrite Permutation_middle.
  - intros l r s res out Hle _ IH Hl Hr. rewrite IH by lia.
    rewrite (slice_last digits l r) by lia.
    rewrite <- !app_assoc. apply Permutation_app_head, Permutation_app_comm.
  - intros l r s res out Hle _ IH Hl Hr. rewrite IH by lia.
    rewrite (slice_first digits l r) by lia. simpl. by rewrite Permutation_middle.
  - intros l r s res out Hle _ IH Hl Hr. rewrite IH by lia.
    rewrite (slice_first digits l r) by lia. by rewrite <- app_assoc.
Qed.

Lemma slice_tail digits :
  (2 <= length digits)%nat →
  digits = at_index digits 0 :: slice digits 1 (Z.of_nat (length digits) - 1).
Proof.
  intros Hn. destruct digits as [|d digits]; [simpl in Hn; lia|].
  unfold slice, at_index. simpl length.
  replace (Z.to_nat (Z.of_nat (S (length digits)) - 1 + 1 - 1)) with (length digits) by lia.
  simpl. by rewrite firstn_all.
Qed.

Lemma interleaveDigits_perm digits : interleaveDigits digits ≡ₚ digits.
Proof.
  unfold interleaveDigits.
  destruct (decide (length digits = 0%nat)) as [E|N0].
  { apply nil_length_inv in E. by subst. }
  destruct (decide (length digits = 1%nat)) as [E|N1]; [reflexivity|].
  cbv zeta. rewrite interleave_loop_perm by lia.
  rewrite (slice_tail digits) at 4 by lia. reflexivity.
Qed.
End InterleaveFacts.

Section InterleaveMap.
Context {A B : Type} `{Inhabited A} `{Inhabited B} (f : A → B).

Lemma at_index_fmap (digits : list A) i :
  0 <= i < Z.of_nat (length digits) →
  at_index (f <$> digits) i = f (at_index digits i).
Proof.
  intros Hi. unfold at_index at 1. apply list_lookup_total_correct.
  rewrite list_lookup_fmap, (at_index_lookup digits i Hi). reflexivity.
Qed.

Lemma interleave_loop_fmap (digits : list A) l r s res :
  0 <= l → r < Z.of_nat (length digits) →
  interleave_loop (f <$> digits) l r s (f <$> res)
  = f <$> interleave_loop digits l r s res.
Proof.
  pattern l, r, s, res, (interleave_loop digits l r s res).
  apply interleave_loop_ind; clear l r s res.
  - intros l r s res Hgt _ _. rewrite interleave_loop_unfold.
    destruct (decide (l <= r)); [lia | reflexivity].
  - intros l r s res out Hle Hs IH Hl Hr. rewrite interleave_loop_unfold.
    destruct (decide (l <= r)); [|lia]. cbv zeta. rewrite Hs. simpl.
    rewrite at_index_fmap by lia. rewrite <- IH by lia. reflexivity.
  - intros l r s res out Hle Hs IH Hl Hr. rewrite interleave_loop_unfold.
    destruct (decide (l <= r)); [|lia]. cbv zeta. rewrite Hs. simpl.
    rewrite at_index_fmap by lia. rewrite <- IH by lia.
    rewrite fmap_app. reflexivity.
  - intros l r s res out Hle Hs IH Hl Hr. rewrite interleave_loop_unfold.
    destruct (decide (l <= r)); [|lia]. cbv zeta. rewrite Hs. simpl.
    rewrite at_index_fmap by lia. rewrite <- IH by lia. reflexivity.
  - intros l r s res out Hle Hs IH Hl Hr. rewrite interleave_loop_unfold.
    destruct (decide (l <= r)); [|lia]. cbv zeta. rewrite Hs. simpl.
    rewrite at_index_fmap by lia. rewrite <- IH by lia.
    rewrite fmap_app. reflexivity.
Qed.
End InterleaveMap.

Section Deinterleave.
Context {A : Type} `{Inhabited A}.

Lemma position_map_perm n : (2 <= n)%nat → position_map n ≡ₚ seq 0 n.
Proof.
  intros Hn. unfold position_map.
  rewrite interleave_loop_perm by (rewrite ?length_seq; lia).
  pose proof (slice_tail (seq 0 n)) as Hs. rewrite length_seq in Hs.
  cbn [app]. rewrite <- Hs by lia. reflexivity.
Qed.

Lemma seq_as_indices (digits : list A) :
  digits = (λ i, digits !!! i) <$> seq 0 (length digits).
Proof.
  apply list_eq. intros i. rewrite list_lookup_fmap.
  destruct (decide (i < length digits)%nat) as [Hi|Hi].
  - rewrite lookup_seq_lt by assumption. simpl.
    apply list_lookup_lookup_total_lt. assumption.
  - rewrite lookup_seq_ge by lia. simpl. apply lookup_ge_None. lia.
Qed.

Lemma interleave_as_positions (digits : list A) :
  (2 <= length digits)%nat →
  interleaveDigits digits = (λ i, digits !!! i) <$> position_map (length digits).
Proof.
  intros Hn. unfold interleaveDigits, position_map.
  destruct (decide (length digits = 0%nat)); [lia|].
  destruct (decide (length digits = 1%nat)); [lia|]. cbv zeta.
  set (g := λ i : nat, digits !!! i).
  rewrite <- (interleave_loop_fmap g) by (rewrite ?length_seq; lia).
  change (g <$> [at_index (seq 0 (length digits)) 0])
    with [g (at_index (seq 0 (length digits)) 0)].
  rewrite <- (at_index_fmap g) by (rewrite ?length_seq; lia).
  unfold g. rewrite <- seq_as_indices. reflexivity.
Qed.

Lemma scatter_lookup (positions : list nat) (values target : list A) idxs result k :
  (∀ i, i ∈ idxs → values !!! i = target !!! (positions !!! i)) →
  (∀ i, i ∈ idxs → (positions !!! i < length result)%nat) →
  (∃ i, i ∈ idxs ∧ positions !!! i = k) ∨ result !! k = Some (target !!! k) →
  fold_left (λ res i, <[positions !!! i := values !!! i]> res) idxs result !! k
  = Some (target !!! k).
Proof.
  revert result. induction idxs as [|i idxs IH]; intros result Hval Hpos Hcov.
  - simpl. destruct Hcov as [(i & Hi & _)|Hres]; [by apply elem_of_nil in Hi | assumption].
  - simpl. apply IH.
    + intros j Hj. apply Hval. by right.
    + intros j Hj. rewrite length_insert. apply Hpos. by right.
    + destruct (decide (positions !!! i = k)) as [Heq|Hne].
      * right. rewrite <- Heq.
        rewrite list_lookup_insert_eq by (apply Hpos; by left).
        f_equal. apply Hval. by left.
      * destruct Hcov as [(j & Hj & Hjk)|Hres].
        -- left. exists j. split; [|assumption].
           apply elem_of_cons in Hj as [->|Hj]; [contradiction | assumption].
        -- right. by rewrite list_lookup_insert_ne.
Qed.

Lemma scatter_length (positions : list nat) (values : list A) idxs result :
  length (fold_left (λ res i, <[positions !!! i := values !!! i]> res) idxs result)
  = length result.
Proof.
  revert result. induction idxs as [|i idxs IH]; intros result; [reflexivity|].
  simpl. by rewrite IH, length_insert.
Qed.

Lemma deinterleave_interleave (digits : list A) :
  deinterleaveDigits (interleaveDigits digits) = digits.
Proof.
  pose proof (Permutation_length (interleaveDigits_perm digits)) as Hlen.
  unfold deinterleaveDigits. rewrite Hlen.
  destruct (decide (length digits = 0%nat)) as [E|N0].
  { apply nil_length_inv in E. by subst. }
  destruct (decide (length digits = 1%nat)) as [E|N1].
  { unfold interleaveDigits. rewrite E. reflexivity. }
  cbv zeta. set (n := length digits). fold (position_map n).
  assert (Hn : (2 <= n)%nat) by (unfold n; lia).
  pose proof (position_map_perm n Hn) as Hperm.
  apply list_eq. intros k.
  destruct (decide (k < n)%nat) as [Hk|Hk].
  - rewrite (scatter_lookup _ _ digits).
    + symmetry. apply list_lookup_lookup_total_lt. assumption.
    + intros i Hi. apply elem_of_seq in Hi.
      rewrite interleave_as_positions by assumption. fold n.
      apply list_lookup_total_correct. rewrite list_lookup_fmap.
      rewrite (list_lookup_lookup_total_lt (position_map n) i)
        by (rewrite (Permutation_length Hperm), length_seq; lia).
      reflexivity.
    + intros i Hi. apply elem_of_seq in Hi. rewrite length_replicate.
      assert (Hin : position_map n !!! i ∈ position_map n).
      { apply list_elem_of_lookup_total_2.
        rewrite (Permutation_length Hperm), length_seq. lia. }
      generalize dependent (position_map n !!! i). intros p Hin.
      rewrite Hperm in Hin. apply elem_of_seq in Hin. lia.
    + left. assert (Hin : k ∈ position_map n).
      { rewrite Hperm. apply elem_of_seq. lia. }
      apply list_elem_of_lookup_total_1 in Hin as (i & Hi & Hik).
      exists i. split; [|assumption]. apply elem_of_seq.
      rewrite (Permutation_length Hperm), length_seq in Hi. lia.
  - rewrite (lookup_ge_None_2 digits k) by (fold n; lia).
    apply lookup_ge_None. rewrite scatter_length, length_replicate. lia.
Qed.
End Deinterleave.

Section CycleRefinement.
Context {A : Type} `{Inhabited A}.

Lemma next_phase s k : s mod 4 = k → (s + 1) mod 4 = (k + 1) mod 4.
Proof. intros <-. rewrite Z.add_mod_idemp_l by lia. reflexivity. Qed.

Lemma interleave_loop_cycle (digits : list A) l r s res :
  0 <= l → r < Z.of_nat (length digits) →
  ∃ final, rtc (cycle_step digits) (CycleState res l r (s mod 4)) final
           ∧ cycle_done final
           ∧ output final = interleave_loop digits l r s res.
Proof.
  pattern l, r, s, res, (interleave_loop digits l r s res).
  apply interleave_loop_ind; clear l r s res.
  - intros l r s res Hgt _ _. eexists. split; [apply rtc_refl|].
    split; [unfold cycle_done; simpl; lia | reflexivity].
  - intros l r s res out Hle Hs IH Hl Hr.
    destruct IH as (final & Hrun & Hdone & Hout); [lia..|].
    exists final. split; [|by split]. rewrite (next_phase s 0 Hs) in Hrun.
    rewrite Hs. eapply rtc_l; [|exact Hrun].
    apply phase_0; [lia..|]. apply at_index_lookup. lia.
  - intros l r s res out Hle Hs IH Hl Hr.
    destruct IH as (final & Hrun & Hdone & Hout); [lia..|].
    exists final. split; [|by split]. rewrite (next_phase s 1 Hs) in Hrun.
    rewrite Hs. eapply rtc_l; [|exact Hrun].
    apply phase_1; [lia..|]. apply at_index_lookup. lia.
  - intros l r s res out Hle Hs IH Hl Hr.
    destruct IH as (final & Hrun & Hdone & Hout); [lia..|].
    exists final. split; [|by split]. rewrite (next_phase s 2 Hs) in Hrun.
    rewrite Hs. eapply rtc_l; [|exact Hrun].
    apply phase_2; [lia..|]. apply at_index_lookup. lia.
  - intros l r s res out Hle Hs IH Hl Hr.
    destruct IH as (final & Hrun & Hdone & Hout); [lia..|].
    exists final. split; [|by split]. rewrite (next_phase s 3 Hs) in Hrun.
    rewrite Hs. eapply rtc_l; [|exact Hrun].
    apply phase_3; [lia..|]. apply at_index_lookup. lia.
Qed.
End CycleRefinement.

(** C1: for every non-negative integer [x] and every requested minimum
    length [m], decoding the base-128 digits of [x] gives [x] back, padding
    with leading zero digits does not change the decoded value, and the
    whole index pipeline (encode, interleave, deinterleave, decode) returns
    [x]. *)
Theorem codec_roundtrip (x m : Z) :
  0 <= x →
  fromBase128 (toBase128 x) = x
  ∧ decodeSyllableIndices (encodeToSyllableIndices x m) = x
  ∧ decodeSyllableIndices
      (deinterleaveDigits (interleaveDigits (encodeToSyllableIndices x m))) = x.
Proof.
  intros Hx.
  assert (Hpad : decodeSyllableIndices (encodeToSyllableIndices x m) = x).
  { unfold decodeSyllableIndices, encodeToSyllableIndices. cbv zeta.
    rewrite pad_loop_value. by apply fromBase128_toBase128. }
  split; [by apply fromBase128_toBase128|]. split; [exact Hpad|].
  by rewrite deinterleave_interleave.
Qed.

Lemma codec_roundtrip_witness :
  0 <= 9622927
  ∧ fromBase128 (toBase128 9622927) = 9622927
  ∧ decodeSyllableIndices (encodeToSyllableIndices 9622927 6) = 9622927
  ∧ decodeSyllableIndices
      (deinterleaveDigits (interleaveDigits (encodeToSyllableIndices 9622927 6))) = 9622927.
Proof. split; [lia | apply (codec_roundtrip 9622927 6); lia]. Defined.

(** C2: for every sequence of digit values, of any length (so in
    particular every length from 0 to 32), deinterleaving the interleaved
    sequence gives the sequence back. *)
Theorem permutation_involution (digits : list Z) :
  deinterleaveDigits (interleaveDigits digits) = digits.
Proof. apply deinterleave_interleave. Qed.

(** C5, as the code has it: the encode step never rejects its input; a
    negative number is turned into the empty digit sequence, 0 into [[0]],
    and every non-negative number into a non-empty sequence of digits in
    [0, 128), padding included. *)
Theorem encode_step_total (x m : Z) :
  ¬ rejects (encode_step x m)
  ∧ (x < 0 → toBase128 x = [])
  ∧ toBase128 0 = [0]
  ∧ (0 <= x → toBase128 x ≠ []
              ∧ Forall (λ d, 0 <= d < 128) (toBase128 x)
              ∧ Forall (λ d, 0 <= d < 128) (encodeToSyllableIndices x m)).
Proof.
  split; [intros [e He]; discriminate He|].
  split; [apply toBase128_negative|]. split; [reflexivity|].
  intros Hx.
  assert (Hrange : Forall (λ d, 0 <= d < 128) (toBase128 x)).
  { unfold toBase128. destruct (decide (x = 0)).
    - repeat constructor; lia.
    - apply toBase128_loop_range. constructor. }
  split; [|split; [exact Hrange|]].
  - unfold toBase128. destruct (decide (x = 0)); [discriminate|].
    apply toBase128_loop_nonempty. left. lia.
  - unfold encodeToSyllableIndices. cbv zeta.
    destruct (pad_loop_shape (toBase128 x) m) as (k & -> & _).
    apply Forall_app. split; [|exact Hrange].
    apply Forall_replicate. lia.
Qed.

(** C5 as stated fails: the negative input -5 is not rejected, the encode
    step returns the empty sequence for it. *)
Lemma encode_negative_not_rejected :
  -5 < 0 ∧ encode_step (-5) 0 = Returns [] ∧ ¬ rejects (encode_step (-5) 0).
Proof.
  split; [lia|]. split; [reflexivity|]. intros [e He]. discriminate He.
Qed.

(** C9: [interleaveDigits] returns sequences of length 0 or 1 unchanged;
    otherwise its result is the output of the four-phase machine started
    with the first digit, the left cursor at 1, the right cursor at the last
    index and phase 0, and run until the left cursor passes the right one;
    the output is a permutation of the input: same length, same multiset
    of digit values. *)
Theorem interleave_four_phase (digits : list Z) :
  ((length digits <= 1)%nat → interleaveDigits digits = digits)
  ∧ ((2 <= length digits)%nat →
     ∃ first final,
       digits !! 0%nat = Some first
       ∧ rtc (cycle_step digits)
             (CycleState [first] 1 (Z.of_nat (length digits) - 1) 0) final
       ∧ cycle_done final
       ∧ interleaveDigits digits = output final)
  ∧ length (interleaveDigits digits) = length digits
  ∧ interleaveDigits digits ≡ₚ digits.
Proof.
  split; [|split; [|split]].
  - intros Hlen. unfold interleaveDigits.
    destruct (decide (length digits = 0%nat)) as [E|N0].
    { apply nil_length_inv in E. by subst. }
    destruct (decide (length digits = 1%nat)); [reflexivity | lia].
  - intros Hlen. unfold interleaveDigits.
    destruct (decide (length digits = 0%nat)); [lia|].
    destruct (decide (length digits = 1%nat)); [lia|]. cbv zeta.
    destruct (interleave_loop_cycle digits 1 (Z.of_nat (length digits) - 1) 0
                [at_index digits 0]) as (final & Hrun & Hdone & Hout); [lia..|].
    exists (at_index digits 0), final. split; [|split; [exact Hrun|by split]].
    apply (at_index_lookup digits 0). lia.
  - apply Permutation_length, interleaveDigits_perm.
  - apply interleaveDigits_perm.
Qed.
(** ** separator-balancer.js *)

Local Close Scope Z_scope.
Local Open Scope Q_scope.

Lemma recordUsage_with_history b separator :
  ∃ h, recordUsage b separator = with_history b h.
Proof. eexists. reflexivity. Qed.

Lemma counts_lookup (history : list string) (counts : gmap string Z) (sep : string) :
  fold_left (λ counts sep, <[sep := (default 0 (counts !! sep) + 1)%Z]> counts) history counts
    !! sep
  = if decide (occurrences history sep = 0%nat) then counts !! sep
    else Some (default 0 (counts !! sep) + Z.of_nat (occurrences history sep))%Z.
Proof.
  revert counts. induction history as [|s history IH]; intros counts; [reflexivity|].
  simpl fold_left. rewrite IH. unfold occurrences. rewrite filter_cons.
  destruct (decide (s = sep)) as [->|Hne].
  - simpl length. rewrite lookup_insert_eq. simpl.
    destruct (decide (length (filter (λ s, s = sep) history) = 0%nat)) as [E|E].
    + rewrite E. destruct (decide (1 = 0)%nat); [lia|]. f_equal.
    + destruct (decide (S (length (filter (λ s, s = sep) history)) = 0%nat)); [lia|].
      f_equal. lia.
  - rewrite lookup_insert_ne by assumption. reflexivity.
Qed.

Lemma distribution_lookup (b : SeparatorBalancer) (sep : string) :
  getCurrentDistribution b !! sep
  = if decide (occurrences (history b) sep = 0%nat) then None
    else Some (inject_Z (Z.of_nat (occurrences (history b) sep))
               / inject_Z (Z.of_nat (length (history b))) * 100).
Proof.
  unfold getCurrentDistribution.
  destruct (decide (length (history b) = 0%nat)) as [E|E].
  - apply nil_length_inv in E. rewrite E. reflexivity.
  - cbv zeta. rewrite lookup_fmap, counts_lookup, lookup_empty.
    destruct (decide (occurrences (history b) sep = 0%nat)); [reflexivity|].
    simpl. reflexivity.
Qed.

Lemma occurrences_le (history : list string) (sep : string) :
  (occurrences history sep <= length history)%nat.
Proof. apply length_filter. Qed.

Lemma actual_usage (b : SeparatorBalancer) (sep : string) :
  or_default (getCurrentDistribution b !! sep) 0 == usage_percent (history b) sep.
Proof.
  rewrite distribution_lookup. generalize (history b). intros h.
  unfold usage_percent. pose proof (occurrences_le h sep) as Hle.
  destruct (decide (occurrences h sep = 0%nat)) as [E|E].
  - simpl. destruct h; [reflexivity|]. rewrite E. simpl.
    unfold Qdiv. rewrite Qmult_0_l. rewrite Qmult_0_l. reflexivity.
  - assert (Hlen : (0 < length h)%nat) by lia.
    assert (Hc : 0 < inject_Z (Z.of_nat (occurrences h sep))).
    { rewrite <- (Zlt_Qlt 0). lia. }
    assert (Hl : 0 < inject_Z (Z.of_nat (length h))).
    { rewrite <- (Zlt_Qlt 0). lia. }
    assert (Hq : 0 < inject_Z (Z.of_nat (occurrences h sep)) / inject_Z (Z.of_nat (length h))).
    { apply Qlt_shift_div_l; [assumption|]. by rewrite Qmult_0_l. }
    destruct h as [|s h]; [simpl in Hlen; lia|].
    unfold or_default.
    destruct (Qeq_bool _ 0) eqn:Eq; [|reflexivity].
    apply Qeq_bool_eq in Eq. exfalso. lra.
Qed.

Lemma multiplier_lookup (b : SeparatorBalancer) (sep : string) (target : Q) :
  targets b !! sep = Some target →
  ∃ m, getDiversityMultipliers b !! sep = Some m
       ∧ m == clamp (1 # 2) 2
                (1 - (usage_percent (history b) sep - target) / 100 * diversityStrength b).
Proof.
  intros Ht. unfold getDiversityMultipliers. cbv zeta.
  rewrite map_lookup_imap, Ht. simpl. eexists. split; [reflexivity|].
  unfold clamp. rewrite (actual_usage b sep). reflexivity.
Qed.

Lemma strength_positive (config : BalancerConfig) :
  (∀ s, cfg_diversityStrength config = Some s → 0 <= s <= 1) →
  0 < diversityStrength (new config) <= 1.
Proof.
  intros Hrange. unfold new. simpl. unfold or_default.
  destruct (cfg_diversityStrength config) as [s|]; [|lra].
  destruct (Hrange s eq_refl) as [Hlo Hhi].
  destruct (Qeq_bool s 0) eqn:E; [lra|].
  apply Qeq_bool_neq in E. split; [|assumption].
  apply Qle_lteq in Hlo as [Hlt|Heq]; [assumption|]. exfalso. apply E. by symmetry.
Qed.

Lemma clamp_below (x : Q) : x < 1 → clamp (1 # 2) 2 x < 1.
Proof.
  intros Hx. unfold clamp. apply Q.max_lub_lt; [reflexivity|].
  apply Q.min_lt_iff. by right.
Qed.

Lemma clamp_above (x : Q) : 1 < x → 1 < clamp (1 # 2) 2 x.
Proof.
  intros Hx. unfold clamp. apply Q.max_lt_iff. right.
  apply Q.min_glb_lt; [reflexivity | assumption].
Qed.

Lemma occurrences_replicate_same (n : nat) (c : string) :
  occurrences (replicate n c) c = n.
Proof.
  unfold occurrences. induction n as [|n IH]; [reflexivity|].
  simpl replicate. rewrite filter_cons. destruct (decide (c = c)); [|contradiction].
  simpl. by rewrite IH.
Qed.

Lemma occurrences_replicate_other (n : nat) (c sep : string) :
  sep ≠ c → occurrences (replicate n c) sep = 0%nat.
Proof.
  intros Hne. unfold occurrences. induction n as [|n IH]; [reflexivity|].
  simpl replicate. rewrite filter_cons. destruct (decide (c = sep)); [by subst|].
  exact IH.
Qed.

Lemma usage_replicate_same (n : nat) (c : string) :
  usage_percent (replicate (S n) c) c == 100.
Proof.
  unfold usage_percent. change (replicate (S n) c) with (c :: replicate n c) at 1.
  cbv iota. rewrite occurrences_replicate_same, length_replicate.
  assert (Hpos : 0 < inject_Z (Z.of_nat (S n))) by (rewrite <- (Zlt_Qlt 0); lia).
  field. lra.
Qed.

Lemma usage_replicate_other (n : nat) (c sep : string) :
  sep ≠ c → usage_percent (replicate (S n) c) sep == 0.
Proof.
  intros Hne. unfold usage_percent. change (replicate (S n) c) with (c :: replicate n c) at 1.
  cbv iota. rewrite occurrences_replicate_other by assumption.
  unfold Qdiv. rewrite !Qmult_0_l. reflexivity.
Qed.

Lemma defaultTargets_range (sep : string) (target : Q) :
  defaultTargets !! sep = Some target → 0 < target ∧ target < 100.
Proof.
  intros Ht. apply elem_of_map_to_list in Ht.
  assert (Hall : Forall (λ e, 0 < snd e ∧ snd e < 100) (map_to_list defaultTargets)).
  { vm_compute. repeat constructor. }
  rewrite Forall_forall in Hall. exact (Hall _ Ht).
Qed.

(** C8: for every balancer built by the constructor from a configured
    strength within [0, 1] and brought to any history, and for every target
    category, [getDiversityMultipliers] returns
    [clamp(1 - (actual% - target%)/100 * strength, 0.5, 2.0)], where
    [actual%] is the category's share of the history; hence usage above the
    target gives a multiplier below 1 and usage below it a multiplier above
    1; and with a history made of one category only, that category's usage
    is 100 and every other category's is 0, so that its multiplier is below
    1 and the others' are above 1 (for targets strictly between 0 and 100,
    as the default ones are). *)
Theorem diversity_multipliers (config : BalancerConfig) (h : list string)
  (sep : string) (target : Q) :
  let b := with_history (new config) h in
  (∀ s, cfg_diversityStrength config = Some s → 0 <= s <= 1) →
  targets b !! sep = Some target →
  ∃ m, getDiversityMultipliers b !! sep = Some m
       ∧ m == clamp (1 # 2) 2
                (1 - (usage_percent h sep - target) / 100 * diversityStrength b)
       ∧ (target < usage_percent h sep → m < 1)
       ∧ (usage_percent h sep < target → 1 < m)
       ∧ (∀ c n, h = replicate (S n) c →
            (sep = c → usage_percent h sep == 100 ∧ (target < 100 → m < 1))
            ∧ (sep ≠ c → usage_percent h sep == 0 ∧ (0 < target → 1 < m)))
       ∧ (cfg_targets config = None → ∀ c n, h = replicate (S n) c →
            (sep = c → m < 1) ∧ (sep ≠ c → 1 < m)).
Proof.
  intros b Hrange Ht.
  destruct (multiplier_lookup b sep target Ht) as (m & Hm & Heq).
  change (history b) with h in Heq.
  pose proof (strength_positive config Hrange) as [Hs0 Hs1].
  change (diversityStrength (new config)) with (diversityStrength b) in Hs0, Hs1.
  assert (Hover : target < usage_percent h sep → m < 1).
  { intros Hlt. rewrite Heq. apply clamp_below.
    assert (0 < (usage_percent h sep - target) / 100 * diversityStrength b); [|lra].
    apply Qmult_lt_0_compat; [|assumption]. apply Qlt_shift_div_l; lra. }
  assert (Hunder : usage_percent h sep < target → 1 < m).
  { intros Hlt. rewrite Heq. apply clamp_above.
    assert (0 < (target - usage_percent h sep) / 100 * diversityStrength b).
    { apply Qmult_lt_0_compat; [|assumption]. apply Qlt_shift_div_l; lra. }
    assert ((usage_percent h sep - target) / 100 * diversityStrength b
            == - ((target - usage_percent h sep) / 100 * diversityStrength b)) by field.
    lra. }
  assert (Hfull : ∀ c n, h = replicate (S n) c →
            (sep = c → usage_percent h sep == 100 ∧ (target < 100 → m < 1))
            ∧ (sep ≠ c → usage_percent h sep == 0 ∧ (0 < target → 1 < m))).
  { intros c n Hh. split.
    - intros ->. assert (Hu : usage_percent h c == 100)
        by (rewrite Hh; apply usage_replicate_same).
      split; [exact Hu|]. intros Hlt. apply Hover. rewrite Hu. exact Hlt.
    - intros Hne. assert (Hu : usage_percent h sep == 0)
        by (rewrite Hh; by apply usage_replicate_other).
      split; [exact Hu|]. intros Hlt. apply Hunder. rewrite Hu. exact Hlt. }
  exists m. split; [exact Hm|]. split; [exact Heq|]. split; [exact Hover|].
  split; [exact Hunder|]. split; [exact Hfull|].
  intros Hdef c n Hh.
  assert (Hrange' : 0 < target ∧ target < 100).
  { apply (defaultTargets_range sep). unfold b, with_history, new in Ht. simpl in Ht.
    rewrite Hdef in Ht. exact Ht. }
  destruct (Hfull c n Hh) as [Hsame Hother]. split.
  - intros E. apply (Hsame E). tauto.
  - intros E. apply (Hother E). tauto.
Qed.

Lemma diversity_multipliers_witness :
  ∃ m, getDiversityMultipliers
         (with_history (new defaultBalancerConfig) (replicate 100 "space")) !! "space"
       = Some m ∧ m < 1.
Proof.
  destruct (diversity_multipliers defaultBalancerConfig (replicate 100 "space") "space" 50)
    as (m & Hm & _ & _ & _ & _ & Hdefault).
  - intros s Hs. discriminate Hs.
  - reflexivity.
  - exists m. split; [exact Hm|].
    destruct (Hdefault eq_refl "space" 99%nat eq_refl) as [Hsame _]. by apply Hsame.
Defined.

Local Close Scope Q_scope.
(** ** decoder.js *)

(** *** Strings *)

Lemma append_nil (b : string) : EmptyString +:+ b = b.
Proof. reflexivity. Qed.

Lemma append_cons (c : ascii) (a b : string) : String c a +:+ b = String c (a +:+ b).
Proof. reflexivity. Qed.

Lemma length_append (a b : string) :
  String.length (a +:+ b) = (String.length a + String.length b)%nat.
Proof.
  induction a as [|c a IH]; [reflexivity|].
  rewrite append_cons. simpl. by rewrite IH.
Qed.

Lemma append_empty_r (a : string) : a +:+ EmptyString = a.
Proof. induction a as [|c a IH]; [reflexivity|]. by rewrite append_cons, IH. Qed.

Lemma append_assoc (a b c : string) : (a +:+ b) +:+ c = a +:+ (b +:+ c).
Proof. induction a as [|x a IH]; [reflexivity|]. by rewrite !append_cons, IH. Qed.

Lemma length_zero (s : string) : String.length s = 0%nat → s = EmptyString.
Proof. destruct s; [reflexivity | discriminate]. Qed.

Lemma substring_length (n m : nat) (s : string) :
  (n + m <= String.length s)%nat → String.length (String.substring n m s) = m.
Proof.
  revert m s. induction n as [|n IHn]; intros m s.
  - revert s. induction m as [|m IHm]; intros s Hs.
    + destruct s; reflexivity.
    + destruct s as [|c s]; simpl in *; [lia|]. f_equal. apply IHm. lia.
  - destruct s as [|c s]; simpl; intros Hs; [lia|]. apply IHn. lia.
Qed.

Lemma substring_from_length (len : nat) (s : string) :
  (len <= String.length s)%nat →
  String.length (substring_from len s) = (String.length s - len)%nat.
Proof. intros Hlen. unfold substring_from. apply substring_length. lia. Qed.

Lemma substring_to_app (a b : string) : substring_to (String.length a) (a +:+ b) = a.
Proof.
  unfold substring_to. induction a as [|c a IH].
  - rewrite append_nil. destruct b; reflexivity.
  - rewrite append_cons. simpl. by rewrite IH.
Qed.

Lemma substring_zero_all (s : string) : String.substring 0 (String.length s) s = s.
Proof. induction s as [|c s IH]; simpl; [reflexivity | by rewrite IH]. Qed.

Lemma substring_from_app (a b : string) : substring_from (String.length a) (a +:+ b) = b.
Proof.
  unfold substring_from. rewrite length_append.
  replace (String.length a + String.length b - String.length a)%nat
    with (String.length b) by lia.
  induction a as [|c a IH]; [apply substring_zero_all | rewrite append_cons; exact IH].
Qed.

Lemma substring_split (len : nat) (s : string) :
  (len <= String.length s)%nat →
  s = substring_to len s +:+ substring_from len s
  ∧ String.length (substring_to len s) = len.
Proof.
  unfold substring_to, substring_from. revert s.
  induction len as [|len IH]; intros s Hlen.
  - rewrite Nat.sub_0_r, substring_zero_all. destruct s; simpl; auto.
  - destruct s as [|c s]; simpl in *; [lia|].
    destruct (IH s ltac:(lia)) as [Hs Hl]. rewrite append_cons.
    split; [by rewrite <- Hs | by rewrite Hl].
Qed.

Lemma append_inj_length (a b c d : string) :
  a +:+ b = c +:+ d → String.length a = String.length c → a = c ∧ b = d.
Proof.
  revert c. induction a as [|x a IH]; intros [|y c] Heq Hlen;
    rewrite ?append_cons, ?append_nil in Heq; simpl in Hlen;
    try discriminate; [auto|].
  injection Heq as -> Heq. destruct (IH c Heq ltac:(lia)) as [-> ->]. auto.
Qed.

Lemma string_filter_app p (a b : string) :
  string_filter p (a +:+ b) = string_filter p a +:+ string_filter p b.
Proof.
  induction a as [|c a IH]; [reflexivity|]. rewrite append_cons. simpl.
  destruct (p c); by rewrite ?append_cons, IH.
Qed.

Lemma string_map_app f (a b : string) :
  string_map f (a +:+ b) = string_map f a +:+ string_map f b.
Proof.
  induction a as [|c a IH]; [reflexivity|]. rewrite append_cons. simpl.
  by rewrite append_cons, IH.
Qed.

Lemma clean_app (a b : string) : clean (a +:+ b) = clean a +:+ clean b.
Proof. unfold clean, toLowerCase. by rewrite string_map_app, string_filter_app. Qed.

Lemma lower_char_letter (c : ascii) : is_lower_letter c = true → lower_char c = c.
Proof.
  destruct c as [b0 b1 b2 b3 b4 b5 b6 b7].
  destruct b0, b1, b2, b3, b4, b5, b6, b7; intros H;
    solve [ discriminate H | reflexivity ].
Qed.

Lemma clean_lowercase_word (s : string) : lowercase_word s = true → clean s = s.
Proof.
  unfold clean, toLowerCase. induction s as [|c s IH]; simpl; [reflexivity|].
  intros H. apply andb_true_iff in H as [Hc Hs].
  rewrite (lower_char_letter c Hc), Hc, (IH Hs). reflexivity.
Qed.

Lemma string_filter_lowercase (s : string) :
  lowercase_word (string_filter is_lower_letter s) = true.
Proof.
  induction s as [|c s IH]; simpl; [reflexivity|].
  destruct (is_lower_letter c) eqn:E; simpl; [by rewrite E|]; exact IH.
Qed.

Lemma clean_is_lowercase (version : string) : lowercase_word (clean version) = true.
Proof. apply string_filter_lowercase. Qed.

(** *** The parser against its specification *)

Lemma parse_loop_unfold (inventory : list string) syllables remaining :
  parse_loop inventory syllables remaining =
    if decide (0 < String.length remaining)%nat then
      match try_lengths inventory remaining [4; 3; 2]%nat with
      | Some (candidate, len) =>
          parse_loop inventory (syllables ++ [candidate]) (substring_from len remaining)
      | None => Throws (UnrecognizedSyllable remaining)
      end
    else Returns syllables.
Proof.
  funelim (parse_loop inventory syllables remaining).
  - rewrite Heq. reflexivity.
  - rewrite Heq, Hmatch. reflexivity.
  - rewrite Heq, e. reflexivity.
Qed.

Lemma is_prefix_substring (syl r : string) :
  is_prefix syl r ↔
  (String.length syl <= String.length r)%nat ∧ substring_to (String.length syl) r = syl.
Proof.
  split.
  - intros [rest ->]. rewrite length_append, substring_to_app. split; [lia | reflexivity].
  - intros [Hlen Hsub]. exists (substring_from (String.length syl) r).
    destruct (substring_split (String.length syl) r Hlen) as [Hr _].
    rewrite Hsub in Hr. exact Hr.
Qed.

Lemma try_length_true (inventory : list string) r len :
  bool_decide (len <= String.length r)%nat && bool_decide (substring_to len r ∈ inventory) = true →
  substring_to len r ∈ inventory ∧ String.length (substring_to len r) = len
  ∧ is_prefix (substring_to len r) r ∧ r = substring_to len r +:+ substring_from len r.
Proof.
  intros H. apply andb_true_iff in H as [Hlen Hin].
  apply bool_decide_eq_true in Hlen, Hin.
  destruct (substring_split len r Hlen) as [Hr Hl].
  split; [assumption|]. split; [assumption|].
  split; [by exists (substring_from len r) | assumption].
Qed.

Lemma try_length_false (inventory : list string) r len syl :
  bool_decide (len <= String.length r)%nat && bool_decide (substring_to len r ∈ inventory) = false →
  syl ∈ inventory → String.length syl = len → ¬ is_prefix syl r.
Proof.
  intros H Hin Hlen Hpre. apply is_prefix_substring in Hpre as [Hle Hsub].
  rewrite Hlen in Hle, Hsub. apply andb_false_iff in H as [H|H].
  - apply bool_decide_eq_false in H. lia.
  - apply bool_decide_eq_false in H. apply H. by rewrite Hsub.
Qed.

Lemma try_lengths_some (inventory : list string) r candidate len :
  try_lengths inventory r [4; 3; 2]%nat = Some (candidate, len) →
  longest_match inventory r candidate ∧ len = String.length candidate
  ∧ r = candidate +:+ substring_from len r.
Proof.
  simpl. intros H.
  destruct (bool_decide (4 <= String.length r)%nat
            && bool_decide (substring_to 4 r ∈ inventory)) eqn:E4.
  { injection H as <- <-. destruct (try_length_true _ _ _ E4) as (Hin & Hl & Hpre & Hr).
    split; [|by split]. split; [assumption|]. split; [unfold tried_length; lia|].
    split; [assumption|]. intros other _ [_ Ho] _. lia. }
  destruct (bool_decide (3 <= String.length r)%nat
            && bool_decide (substring_to 3 r ∈ inventory)) eqn:E3.
  { injection H as <- <-. destruct (try_length_true _ _ _ E3) as (Hin & Hl & Hpre & Hr).
    split; [|by split]. split; [assumption|]. split; [unfold tried_length; lia|].
    split; [assumption|]. intros other Hoin [_ Ho] Hopre. rewrite Hl.
    destruct (decide (String.length other = 4%nat)) as [E|]; [|lia].
    exfalso. exact (try_length_false _ _ _ _ E4 Hoin E Hopre). }
  destruct (bool_decide (2 <= String.length r)%nat
            && bool_decide (substring_to 2 r ∈ inventory)) eqn:E2; [|discriminate].
  injection H as <- <-. destruct (try_length_true _ _ _ E2) as (Hin & Hl & Hpre & Hr).
  split; [|by split]. split; [assumption|]. split; [unfold tried_length; lia|].
  split; [assumption|]. intros other Hoin [_ Ho] Hopre. rewrite Hl.
  destruct (decide (String.length other = 4%nat)) as [E|].
  { exfalso. exact (try_length_false _ _ _ _ E4 Hoin E Hopre). }
  destruct (decide (String.length other = 3%nat)) as [E|]; [|lia].
  exfalso. exact (try_length_false _ _ _ _ E3 Hoin E Hopre).
Qed.

Lemma try_lengths_none (inventory : list string) r :
  try_lengths inventory r [4; 3; 2]%nat = None → no_match inventory r.
Proof.
  simpl. intros H syl Hin [Hlo Hhi] Hpre.
  destruct (bool_decide (4 <= String.length r)%nat
            && bool_decide (substring_to 4 r ∈ inventory)) eqn:E4; [discriminate|].
  destruct (bool_decide (3 <= String.length r)%nat
            && bool_decide (substring_to 3 r ∈ inventory)) eqn:E3; [discriminate|].
  destruct (bool_decide (2 <= String.length r)%nat
            && bool_decide (substring_to 2 r ∈ inventory)) eqn:E2; [discriminate|].
  assert (String.length syl = 4 ∨ String.length syl = 3 ∨ String.length syl = 2)%nat
    as [E|[E|E]] by lia.
  - exact (try_length_false _ _ _ _ E4 Hin E Hpre).
  - exact (try_length_false _ _ _ _ E3 Hin E Hpre).
  - exact (try_length_false _ _ _ _ E2 Hin E Hpre).
Qed.

Lemma parse_loop_result (inventory : list string) (acc : list string) (r : string) :
  loop_result inventory acc r (parse_loop inventory acc r).
Proof.
  remember (String.length r) as k eqn:Hk. revert acc r Hk.
  induction k as [k IH] using lt_wf_ind. intros acc r ->.
  rewrite parse_loop_unfold.
  destruct (decide (0 < String.length r)%nat) as [Hpos|Hz].
  - destruct (try_lengths inventory r [4; 3; 2]%nat) as [[candidate len]|] eqn:E.
    + destruct (try_lengths_some _ _ _ _ E) as (Hlm & -> & Hr).
      assert (Hshort : (String.length (substring_from (String.length candidate) r)
                        < String.length r)%nat).
      { rewrite substring_from_length.
        - destruct Hlm as (_ & [? ?] & _). lia.
        - destruct Hlm as (_ & _ & Hpre & _). apply is_prefix_substring in Hpre. lia. }
      destruct (IH _ Hshort (acc ++ [candidate]) _ eq_refl) as [syls Hg|syls stuck Hg Hne Hno].
      * rewrite <- app_assoc. apply (loop_returns _ _ _ (candidate :: syls)).
        eapply greedy_step; eauto.
      * apply (loop_throws _ _ _ (candidate :: syls)); [|assumption..].
        eapply greedy_step; eauto.
    + apply (loop_throws _ _ _ []); [constructor| |by apply try_lengths_none].
      intros ->. simpl in Hpos. lia.
  - assert (r = EmptyString) as -> by (apply length_zero; lia).
    rewrite <- (app_nil_r acc) at 2. apply loop_returns. constructor.
Qed.

(** greedy scanning is deterministic *)
Lemma longest_match_unique (inventory : list string) r syl1 syl2 :
  longest_match inventory r syl1 → longest_match inventory r syl2 → syl1 = syl2.
Proof.
  intros (Hin1 & Ht1 & Hp1 & Hmax1) (Hin2 & Ht2 & Hp2 & Hmax2).
  pose proof (Hmax1 _ Hin2 Ht2 Hp2). pose proof (Hmax2 _ Hin1 Ht1 Hp1).
  destruct Hp1 as [rest1 ->]. destruct Hp2 as [rest2 Heq].
  apply append_inj_length in Heq as [? _]; [assumption | lia].
Qed.

Lemma halted_no_step (inventory : list string) r syl : halted inventory r → ¬ longest_match inventory r syl.
Proof.
  intros [->|Hno] (Hin & Ht & Hp & _).
  - destruct Hp as [rest Hr]. destruct syl; [destruct Ht; simpl in *; lia | discriminate Hr].
  - exact (Hno syl Hin Ht Hp).
Qed.

Lemma greedy_deterministic (inventory : list string) r syls1 final1 syls2 final2 :
  greedy inventory r syls1 final1 → halted inventory final1 →
  greedy inventory r syls2 final2 → halted inventory final2 →
  syls1 = syls2 ∧ final1 = final2.
Proof.
  intros H1. revert syls2 final2.
  induction H1 as [r|r syl rest syls final Hlm Hr Hg IH]; intros syls2 final2 Hh1 H2 Hh2.
  - inversion H2 as [|? syl' ? ? ? Hlm' _ _]; subst; [auto|].
    exfalso. exact (halted_no_step _ _ _ Hh1 Hlm').
  - inversion H2 as [|? syl' rest' ? ? Hlm' Hr' Hg']; subst.
    + exfalso. exact (halted_no_step _ _ _ Hh2 Hlm).
    + pose proof (longest_match_unique _ _ _ _ Hlm Hlm') as <-.
      apply append_inj_length in Hr' as [_ <-]; [|reflexivity].
      destruct (IH _ _ Hh1 Hg' Hh2) as [-> ->]. auto.
Qed.

Lemma greedy_from_empty (inventory : list string) syls final :
  greedy inventory EmptyString syls final → syls = [] ∧ final = EmptyString.
Proof.
  inversion 1 as [|? syl ? ? ? Hlm _ _]; subst; [auto|].
  exfalso. apply (halted_no_step inventory EmptyString syl); [by left | assumption].
Qed.

Lemma clean_empty : clean EmptyString = EmptyString.
Proof. reflexivity. Qed.

Lemma parse_as_loop (inventory : list string) (version : string) :
  clean version ≠ EmptyString →
  parseVersionToSyllables inventory version = parse_loop inventory [] (clean version).
Proof.
  intros Hne. unfold parseVersionToSyllables.
  destruct (decide (String.length version = 0%nat)) as [E|_].
  { apply length_zero in E. subst. contradiction. }
  cbv zeta. destruct (decide (String.length (clean version) = 0%nat)) as [E|_];
    [apply length_zero in E; contradiction | reflexivity].
Qed.

Lemma parse_not_loop (inventory : list string) (version : string) :
  clean version = EmptyString →
  parseVersionToSyllables inventory version = Throws EmptyVersion
  ∨ parseVersionToSyllables inventory version = Throws NoValidSyllables.
Proof.
  intros Hc. unfold parseVersionToSyllables.
  destruct (decide (String.length version = 0%nat)); [by left|].
  cbv zeta. rewrite Hc. simpl. by right.
Qed.

Lemma parse_spec (inventory : list string) (version : string) :
  lowercase_word (clean version) = true
  ∧ (∀ stuck,
       parseVersionToSyllables inventory version = Throws (UnrecognizedSyllable stuck)
       ↔ ∃ syls, greedy inventory (clean version) syls stuck
                 ∧ stuck ≠ EmptyString ∧ no_match inventory stuck)
  ∧ (∀ syls,
       parseVersionToSyllables inventory version = Returns syls
       ↔ clean version ≠ EmptyString
         ∧ greedy inventory (clean version) syls EmptyString).
Proof.
  split; [apply clean_is_lowercase|].
  destruct (decide (clean version = EmptyString)) as [Hc|Hc].
  - split.
    + intros stuck. split.
      * intros H. destruct (parse_not_loop inventory version Hc) as [E|E];
          rewrite E in H; discriminate H.
      * intros (syls & Hg & Hne & _). rewrite Hc in Hg.
        apply greedy_from_empty in Hg as [_ ->]. contradiction.
    + intros syls. split.
      * intros H. destruct (parse_not_loop inventory version Hc) as [E|E];
          rewrite E in H; discriminate H.
      * intros [Hne _]. contradiction.
  - rewrite (parse_as_loop inventory version Hc).
    pose proof (parse_loop_result inventory [] (clean version)) as Hres.
    split.
    + intros stuck. split.
      * intros H. rewrite H in Hres.
        inversion Hres as [|syls stuck' Hg Hne Hno]; subst. eauto.
      * intros (syls & Hg & Hne & Hno).
        destruct Hres as [syls' Hg'|syls' stuck' Hg' Hne' Hno'].
        -- destruct (greedy_deterministic _ _ _ _ _ _ Hg (or_intror Hno) Hg' (or_introl eq_refl))
             as [_ ->]. contradiction.
        -- destruct (greedy_deterministic _ _ _ _ _ _ Hg (or_intror Hno) Hg' (or_intror Hno'))
             as [_ ->]. reflexivity.
    + intros syls. split.
      * intros H. rewrite H in Hres.
        inversion Hres as [syls' Hg|]; subst. simpl. auto.
      * intros [_ Hg].
        destruct Hres as [syls' Hg'|syls' stuck' Hg' Hne' Hno'].
        -- destruct (greedy_deterministic _ _ _ _ _ _ Hg (or_introl eq_refl) Hg'
                       (or_introl eq_refl)) as [-> _]. reflexivity.
        -- destruct (greedy_deterministic _ _ _ _ _ _ Hg (or_introl eq_refl) Hg'
                       (or_intror Hno')) as [_ <-]. contradiction.
Qed.

Lemma string_filter_none p (s : string) :
  Forall (λ c, p c = false) (list_ascii_of_string s) → string_filter p s = EmptyString.
Proof.
  induction s as [|c s IH]; simpl; [reflexivity|].
  intros H. apply Forall_cons in H as [Hc Hs]. rewrite Hc. by apply IH.
Qed.

(** C10: for every input string that is empty or holds no letter a-z after
    lower-casing, [parseVersionToSyllables] throws, and so does
    [decodeVersion]: no number is returned. *)
Theorem no_letters_rejected (config : Config) (inventory : list string) (version : string) :
  Forall (λ c, is_lower_letter c = false) (list_ascii_of_string (toLowerCase version)) →
  rejects (parseVersionToSyllables inventory version)
  ∧ rejects (decodeVersion config inventory version).
Proof.
  intros Hnone.
  assert (Hc : clean version = EmptyString) by (by apply string_filter_none).
  assert (Hp : rejects (parseVersionToSyllables inventory version)).
  { destruct (parse_not_loop inventory version Hc) as [E|E]; rewrite E; by eexists. }
  split; [exact Hp|]. destruct Hp as [e He]. unfold decodeVersion. rewrite He. by eexists.
Qed.

Lemma no_letters_rejected_witness :
  rejects (parseVersionToSyllables exampleInventory "-. ~:")
  ∧ rejects (decodeVersion documentedConfig exampleInventory "-. ~:").
Proof.
  apply (no_letters_rejected documentedConfig exampleInventory "-. ~:").
  repeat constructor.
Defined.
(** ** separators.js *)

(** *** Joining *)

Lemma join_nil : join [] = EmptyString.
Proof. reflexivity. Qed.

Lemma join_cons (s : string) (l : list string) : join (s :: l) = s +:+ join l.
Proof.
  unfold join. destruct l as [|t l]; simpl.
  - by rewrite append_empty_r.
  - reflexivity.
Qed.

Lemma join_app (l1 l2 : list string) : join (l1 ++ l2) = join l1 +:+ join l2.
Proof.
  induction l1 as [|s l1 IH]; [reflexivity|].
  simpl app. rewrite !join_cons, IH, append_assoc. reflexivity.
Qed.

Lemma clean_join (l : list string) :
  Forall (λ s, lowercase_word s = true) l → Decoder.clean (join l) = join l.
Proof.
  induction 1 as [|s l Hs _ IH]; [reflexivity|].
  rewrite join_cons, clean_app, IH, (clean_lowercase_word s Hs). reflexivity.
Qed.

(** *** The stable sort *)

Section SortFacts.
Context {A : Type} (before : A → A → bool).

Lemma sort_insert_perm (x : A) (l : list A) : sort_insert before x l ≡ₚ x :: l.
Proof.
  induction l as [|y l IH]; simpl; [reflexivity|].
  destruct (before x y); [reflexivity|]. rewrite IH. apply Permutation_swap.
Qed.

Lemma sort_fold_perm (l acc : list A) :
  fold_left (λ sorted x, sort_insert before x sorted) l acc ≡ₚ acc ++ l.
Proof.
  revert acc. induction l as [|x l IH]; intros acc; simpl.
  - by rewrite app_nil_r.
  - rewrite IH, sort_insert_perm. simpl. apply Permutation_middle.
Qed.

Lemma sort_perm (l : list A) : sort before l ≡ₚ l.
Proof. unfold sort. by rewrite sort_fold_perm. Qed.
End SortFacts.

Lemma sort_insert_sorted (x : Placed) (l : list Placed) :
  StronglySorted position_le l → StronglySorted position_le (sort_insert by_position x l).
Proof.
  induction 1 as [|y l Hs IH Hall]; simpl.
  - repeat constructor.
  - unfold by_position at 1. destruct (bool_decide_reflect (placed_position x < placed_position y)%nat) as [Hlt|Hge].
    + constructor; [by constructor|]. constructor; [unfold position_le; lia|].
      eapply Forall_impl; [exact Hall|]. unfold position_le. intros z Hz. lia.
    + constructor; [exact IH|].
      rewrite (sort_insert_perm by_position x l). constructor; [unfold position_le; lia | exact Hall].
Qed.

Lemma sort_by_position_sorted (l : list Placed) :
  StronglySorted position_le (sort by_position l).
Proof.
  unfold sort. assert (H : StronglySorted position_le []) by constructor.
  revert H. generalize (@nil Placed). induction l as [|x l IH]; intros acc Hacc; simpl.
  - exact Hacc.
  - apply IH. by apply sort_insert_sorted.
Qed.

(** *** Building the decorated string *)

Lemma build_fold_clean (syllables : list string) (separators : list Placed)
  (result : string) (lastPos : nat) :
  Forall (λ s, lowercase_word s = true) syllables →
  Forall (λ p, decoration (separator p)) separators →
  StronglySorted position_le separators →
  Forall (λ p, (lastPos <= placed_position p)%nat) separators →
  Decoder.clean result = join (take lastPos syllables) →
  let '(result', lastPos') :=
    fold_left (λ '(result, lastPos) sep,
                 (result +:+ join (slice_between syllables lastPos (placed_position sep))
                         +:+ separator sep,
                  placed_position sep))
              separators (result, lastPos) in
  Decoder.clean (result' +:+ join (drop lastPos' syllables)) = join syllables.
Proof.
  intros Hlow. revert result lastPos.
  induction separators as [|p separators IH]; intros result lastPos Hdec Hsorted Hlb Hres.
  - simpl. rewrite clean_app, Hres.
    rewrite clean_join by (by apply Forall_drop).
    rewrite <- join_app, take_drop. reflexivity.
  - simpl fold_left. apply Forall_cons in Hdec as [Hp Hdec].
    apply StronglySorted_inv in Hsorted as [Hsorted Hall].
    apply Forall_cons in Hlb as [Hlbp _].
    apply IH; [assumption | assumption | exact Hall |].
    rewrite !clean_app, Hres, Hp, append_empty_r.
    unfold slice_between.
    rewrite clean_join by (by apply Forall_take, Forall_drop).
    rewrite <- join_app, take_take_drop. f_equal. f_equal. lia.
Qed.

Lemma build_clean (syllables : list string) (separators : list Placed) :
  Forall (λ s, lowercase_word s = true) syllables →
  Forall (λ p, decoration (separator p)) separators →
  Decoder.clean (build syllables (sort by_position separators)) = join syllables.
Proof.
  intros Hlow Hdec. unfold build.
  pose proof (build_fold_clean syllables (sort by_position separators) EmptyString 0
                Hlow) as H.
  destruct (fold_left _ _ _) as [result lastPos]. apply H.
  - rewrite (sort_perm by_position separators). exact Hdec.
  - apply sort_by_position_sorted.
  - apply Forall_forall. intros; lia.
  - reflexivity.
Qed.

(** *** The balancer's choice *)
Local Open Scope Q_scope.

Lemma sort_insert_head (x : string * Q) (sorted : list (string * Q)) :
  (∀ h rest, sorted = h :: rest → ∀ y, y ∈ sorted → snd y <= snd h) →
  ∀ h rest, sort_insert Balancer.by_score_desc x sorted = h :: rest →
            ∀ y, y ∈ x :: sorted → snd y <= snd h.
Proof.
  intros Hmax h rest Hins y Hy. destruct sorted as [|h0 sorted]; simpl in Hins.
  - injection Hins as <- <-. apply list_elem_of_singleton in Hy as ->. apply Qle_refl.
  - unfold Balancer.by_score_desc in Hins at 1.
    destruct (snd h0 ?= snd x) eqn:Ecmp.
    + injection Hins as <- <-. apply Qeq_alt in Ecmp.
      apply elem_of_cons in Hy as [->|Hy]; [rewrite Ecmp; apply Qle_refl|].
      eapply Hmax; eauto.
    + injection Hins as <- <-. apply Qlt_alt in Ecmp.
      apply elem_of_cons in Hy as [->|Hy]; [apply Qle_refl|].
      apply Qle_trans with (snd h0); [eapply Hmax; eauto | by apply Qlt_le_weak].
    + injection Hins as <- <-. apply Qgt_alt in Ecmp.
      apply elem_of_cons in Hy as [->|Hy]; [by apply Qlt_le_weak|].
      eapply Hmax; eauto.
Qed.

Lemma sort_head_max (l : list (string * Q)) (h : string * Q) (rest : list (string * Q)) :
  sort Balancer.by_score_desc l = h :: rest →
  h ∈ l ∧ ∀ y, y ∈ l → snd y <= snd h.
Proof.
  intros Hsort. split.
  - rewrite <- (sort_perm Balancer.by_score_desc l), Hsort. by left.
  - unfold sort in Hsort.
    assert (Hgen : ∀ acc,
      (∀ h rest, acc = h :: rest → ∀ y, y ∈ acc → snd y <= snd h) →
      ∀ h rest, fold_left (λ sorted x, sort_insert Balancer.by_score_desc x sorted) l acc
                = h :: rest →
                ∀ y, y ∈ acc ++ l → snd y <= snd h).
    { clear. induction l as [|x l IH]; intros acc Hacc h rest Hfold y Hy; simpl in Hfold.
      - rewrite app_nil_r in Hy. eapply Hacc; eauto.
      - eapply (IH (sort_insert Balancer.by_score_desc x acc)); [| exact Hfold |].
        + intros h' rest' Hins y' Hy'.
          rewrite sort_insert_perm in Hy'. eapply sort_insert_head; eauto.
        + rewrite sort_insert_perm.
          change (x :: acc) with ([x] ++ acc). rewrite <- app_assoc.
          apply elem_of_app in Hy as [Hy|Hy]; [|apply elem_of_cons in Hy as [->|Hy]].
          * apply elem_of_app. right. apply elem_of_app. by left.
          * apply elem_of_app. left. by left.
          * apply elem_of_app. right. apply elem_of_app. by right. }
    intros y Hy. eapply (Hgen []); [discriminate | exact Hsort | exact Hy].
Qed.

Lemma adjustScores_keys (b : Balancer.SeparatorBalancer) (raw : list (string * Q)) :
  (Balancer.adjustScores b raw).*1 = raw.*1.
Proof.
  unfold Balancer.adjustScores. cbv zeta. induction raw as [|[k v] raw IH]; [reflexivity|].
  simpl. f_equal. exact IH.
Qed.

Lemma separatorMap_entries (scores : Scores) (winner : string) :
  winner ∈ (entries scores).*1 → ∃ sep, separatorMap winner = Some sep ∧ sep ∈ six_separators.
Proof.
  simpl. intros H.
  repeat (apply elem_of_cons in H as [->|H]; [eexists; split; [reflexivity|]; unfold six_separators; set_solver|]).
  by apply elem_of_nil in H.
Qed.

Lemma balancer_choice (b : Balancer.SeparatorBalancer) (scores : Scores) (threshold : Q) :
  (∃ winner sep,
     Balancer.chooseSeparator b (entries scores) threshold
     = (Some winner, Balancer.recordUsage b winner)
     ∧ separatorMap winner = Some sep ∧ sep ∈ six_separators
     ∧ chosen_by b scores threshold sep)
  ∨ (Balancer.chooseSeparator b (entries scores) threshold = (None, b)
     ∧ rejected_by b scores threshold).
Proof.
  unfold Balancer.chooseSeparator. cbv zeta.
  set (adjusted := Balancer.adjustScores b (entries scores)).
  set (kept := filter (λ e, Qle_bool threshold (snd e) = true) adjusted).
  destruct (sort Balancer.by_score_desc kept) as [|[winner score] rest] eqn:Hsort.
  - right. split; [reflexivity|]. intros category adj Hin.
    assert (Hkept : kept = []).
    { apply Permutation_nil_r. rewrite <- Hsort. symmetry. apply sort_perm. }
    destruct (Qlt_le_dec adj threshold) as [Hlt|Hge]; [assumption|].
    exfalso. assert (Hk : (category, adj) ∈ kept).
    { apply list_elem_of_filter. split; [|assumption]. simpl. by apply Qle_bool_iff. }
    rewrite Hkept in Hk. by apply elem_of_nil in Hk.
  - left. destruct (sort_head_max kept _ _ Hsort) as [Hin Hmax].
    apply list_elem_of_filter in Hin as [Hth Hin]. simpl in Hth. apply Qle_bool_iff in Hth.
    assert (Hkey : winner ∈ (entries scores).*1).
    { rewrite <- (adjustScores_keys b). apply list_elem_of_fmap. exists (winner, score). auto. }
    destruct (separatorMap_entries scores winner Hkey) as (sep & Hsep & Hsix).
    exists winner, sep. split; [reflexivity|]. split; [assumption|]. split; [assumption|].
    exists winner, score. split; [assumption|]. split; [assumption|]. split; [|assumption].
    intros other adj' Hother.
    destruct (Qlt_le_dec adj' threshold) as [Hlt|Hge].
    + apply Qlt_le_weak. eapply Qlt_le_trans; eauto.
    + apply (Hmax (other, adj')). apply list_elem_of_filter. split; [|assumption].
      simpl. by apply Qle_bool_iff.
Qed.

(** *** The global balancer along a call *)

Section Engine.
Variables (config : Config) (syllables : list string).

Local Abbreviation boundary_scores := (Spec.boundary_scores config syllables).
Local Abbreviation settings_of := (Spec.settings_of config).
Local Abbreviation state_of := (Spec.state_of config).
Local Abbreviation examined_ok := (Spec.examined_ok config syllables).
Local Abbreviation candidate_ok := (Spec.candidate_ok config syllables).
Local Abbreviation boundaries := (Spec.boundaries syllables).
Local Abbreviation placement_ok := (Spec.placement_ok config syllables).
Local Abbreviation scorable := (Spec.scorable config syllables).

Lemma with_history_same (b : Balancer.SeparatorBalancer) :
  with_history b (Balancer.history b) = b.
Proof. by destruct b. Qed.

Lemma getBalancer_settings (g0 g : Global) :
  state_of g0 g → settings_of g0 (getBalancer config g).
Proof.
  intros [|b Hb].
  - exists (Balancer.history (getBalancer config g0)). by rewrite with_history_same.
  - exact Hb.
Qed.

Lemma recordUsage_settings (g0 : Global) (b : Balancer.SeparatorBalancer) (w : string) :
  settings_of g0 b → settings_of g0 (Balancer.recordUsage b w).
Proof. intros [h ->]. eexists. reflexivity. Qed.

Lemma nonempty_six (sep : string) : sep ∈ six_separators → nonempty sep = true.
Proof.
  unfold six_separators. intros H.
  repeat (apply elem_of_cons in H as [->|H]; [reflexivity|]). by apply elem_of_nil in H.
Qed.

Lemma chooseSeparator_spec (g0 g g' : Global) (scores : Scores) (threshold : Q)
  (sep : string) :
  state_of g0 g →
  chooseSeparator config g scores threshold true = (sep, g') →
  state_of g0 g'
  ∧ ∃ b, settings_of g0 b
         ∧ ((sep ∈ six_separators ∧ chosen_by b scores threshold sep)
            ∨ (sep = EmptyString ∧ rejected_by b scores threshold)).
Proof.
  intros Hstate. unfold chooseSeparator.
  pose proof (getBalancer_settings g0 g Hstate) as Hb.
  destruct (balancer_choice (getBalancer config g) scores threshold)
    as [(winner & s & -> & Hmap & Hsix & Hchosen)|[-> Hrej]].
  - rewrite Hmap. simpl. intros [= <- <-]. split.
    + constructor. by apply recordUsage_settings.
    + exists (getBalancer config g). split; [assumption|]. left. auto.
  - simpl. intros [= <- <-]. split; [by constructor|].
    exists (getBalancer config g). split; [assumption|]. right. auto.
Qed.

(** *** One round *)

Lemma candidate_nonneg g0 threshold separators domain best :
  candidate_ok g0 threshold separators domain best → 0 <= bestScore best.
Proof.
  unfold Spec.candidate_ok. destruct (bestPosition best).
  - intros (_ & _ & Hpos & _). by apply Qlt_le_weak.
  - intros ->. apply Qle_refl.
Qed.

Lemma try_positions_spec (g0 : Global) (threshold : Q) (separators : list Placed)
  (domain positions : list nat) (best best' : Best) (g g' : Global) :
  positions ⊆ domain →
  state_of g0 g →
  candidate_ok g0 threshold separators domain best →
  try_positions config syllables threshold separators positions best g
  = Returns (best', g') →
  state_of g0 g'
  ∧ candidate_ok g0 threshold separators domain best'
  ∧ bestScore best <= bestScore best'
  ∧ ∀ i, i ∈ positions → nearby separators i = false → examined_ok g0 threshold best' i.
Proof.
  revert best g. induction positions as [|i positions IH]; intros best g Hsub Hstate Hcand.
  - simpl. intros [= <- <-]. split; [assumption|]. split; [assumption|].
    split; [apply Qle_refl|]. intros i Hi. by apply elem_of_nil in Hi.
  - assert (Hsub' : positions ⊆ domain) by (intros x Hx; apply Hsub; by right).
    assert (Hi : i ∈ domain) by (apply Hsub; by left).
    simpl. destruct (nearby separators i) eqn:Hnear.
    { intros Hrun. destruct (IH _ _ Hsub' Hstate Hcand Hrun) as (Hs & Hc & Hle & Hex).
      split; [assumption|]. split; [assumption|]. split; [assumption|].
      intros j Hj Hnj. apply elem_of_cons in Hj as [->|Hj]; [congruence | by apply Hex]. }
    fold (boundary_scores i). destruct (boundary_scores i) as [scores|e] eqn:Hscores;
      [|discriminate].
    destruct (chooseSeparator config g scores threshold true) as [sep g1] eqn:Hchoose.
    destruct (chooseSeparator_spec g0 g g1 scores threshold sep Hstate Hchoose)
      as (Hstate1 & b & Hb & Hsep).
    set (best1 := if negb (Qle_bool (maxScore scores) (bestScore best)) && nonempty sep
                  then {| bestScore := maxScore scores; bestPosition := Some i;
                          bestSeparator := sep |}
                  else best).
    intros Hrun.
    assert (Hstep : candidate_ok g0 threshold separators domain best1
                    ∧ bestScore best <= bestScore best1
                    ∧ examined_ok g0 threshold best1 i).
    { unfold best1.
      destruct (Qle_bool (maxScore scores) (bestScore best)) eqn:Hcmp; simpl.
      - apply Qle_bool_iff in Hcmp. split; [assumption|]. split; [apply Qle_refl|].
        exists scores. split; [assumption|]. by left.
      - assert (Hgt : bestScore best < maxScore scores).
        { apply Qnot_le_lt. intros Hle. apply Qle_bool_iff in Hle. congruence. }
        destruct Hsep as [[Hsix Hchosen]|[-> Hrej]].
        + rewrite (nonempty_six sep Hsix). split; [|split].
          * unfold Spec.candidate_ok. simpl. split; [assumption|]. split; [assumption|].
            split; [eapply Qle_lt_trans; [eapply candidate_nonneg; eauto | assumption]|].
            split; [assumption|]. exists scores, b. auto.
          * simpl. by apply Qlt_le_weak.
          * exists scores. split; [assumption|]. left. simpl. apply Qle_refl.
        + simpl. split; [assumption|]. split; [apply Qle_refl|].
          exists scores. split; [assumption|]. right. eauto. }
    destruct Hstep as (Hcand1 & Hle1 & Hex1).
    destruct (IH _ _ Hsub' Hstate1 Hcand1 Hrun) as (Hs & Hc & Hle & Hex).
    split; [assumption|]. split; [assumption|].
    split; [eapply Qle_trans; eauto|].
    intros j Hj Hnj. apply elem_of_cons in Hj as [->|Hj]; [|by apply Hex].
    destruct Hex1 as (scores' & Hsc' & [Hmax|Hrej]).
    + exists scores'. split; [assumption|]. left. eapply Qle_trans; eauto.
    + exists scores'. split; [assumption|]. by right.
Qed.

(** *** The rounds *)

Lemma elem_of_boundaries (i : nat) :
  i ∈ boundaries ↔ (1 <= i < length syllables)%nat.
Proof. unfold Spec.boundaries. rewrite elem_of_seq. lia. Qed.

Lemma place_rounds_spec (g0 : Global) (thresholds : Thresholds) (remaining round : nat)
  (separators placed : list Placed) (g g' : Global) :
  state_of g0 g →
  place_rounds config syllables thresholds remaining round separators g
  = Returns (placed, g') →
  state_of g0 g'
  ∧ ∃ new, placed = separators ++ new
           ∧ (length new <= remaining)%nat
           ∧ ∀ k p, new !! k = Some p →
                    placement_ok g0 thresholds (separators ++ take k new) (round + k) p.
Proof.
  revert round separators g. induction remaining as [|remaining IH];
    intros round separators g Hstate.
  - simpl. intros [= <- <-]. split; [assumption|]. exists []. rewrite app_nil_r.
    split; [reflexivity|]. split; [reflexivity|]. intros k p Hk. by destruct k.
  - simpl. fold (Spec.boundaries syllables).
    set (threshold := round_threshold thresholds round).
    set (best0 := {| bestScore := 0; bestPosition := None; bestSeparator := EmptyString |}).
    destruct (try_positions config syllables threshold separators boundaries best0 g)
      as [[best g1]|e] eqn:Htry; [|discriminate].
    destruct (try_positions_spec g0 threshold separators boundaries boundaries
                best0 best g g1) as (Hstate1 & Hcand & _ & Hex);
      [done | assumption | unfold Spec.candidate_ok; simpl; reflexivity | assumption |].
    assert (Hstop : state_of g0 g1
              ∧ ∃ new, separators = separators ++ new ∧ (length new <= S remaining)%nat
                ∧ ∀ k p, new !! k = Some p →
                    placement_ok g0 thresholds (separators ++ take k new) (round + k) p).
    { split; [assumption|]. exists []. rewrite app_nil_r. split; [reflexivity|].
      split; [simpl; lia|]. intros k p Hk. by destruct k. }
    unfold Spec.candidate_ok in Hcand.
    destruct (bestPosition best) as [position|] eqn:Hpos.
    2:{ intros [= <- <-]. exact Hstop. }
    destruct (Qle_bool threshold (bestScore best)) eqn:Hth; simpl.
    2:{ intros [= <- <-]. exact Hstop. }
    apply Qle_bool_iff in Hth.
    set (p := {| placed_position := position; separator := bestSeparator best;
                 score := bestScore best |}).
    intros Hrun.
    destruct (IH (S round) (separators ++ [p]) g1 Hstate1 Hrun)
      as (Hstate' & new & -> & Hlen & Hnew).
    split; [assumption|]. exists (p :: new). split; [by rewrite <- app_assoc|].
    split; [simpl; lia|]. intros k q Hk. destruct k as [|k].
    + simpl in Hk. injection Hk as <-. rewrite Nat.add_0_r. simpl take. rewrite app_nil_r.
      destruct Hcand as (Hdom & Hnear & _ & Hsix & scores & b & Hsc & Hmax & Hb & Hchosen).
      apply elem_of_boundaries in Hdom.
      unfold Spec.placement_ok. cbv zeta. simpl.
      split; [assumption|]. split; [assumption|]. split; [assumption|].
      split; [assumption|]. split; [exists scores, b; auto|].
      intros i Hi Hni. apply Hex; [by apply elem_of_boundaries | assumption].
    + simpl in Hk. specialize (Hnew k q Hk).
      replace (round + S k)%nat with (S round + k)%nat by lia.
      simpl take. rewrite <- app_assoc in Hnew. exact Hnew.
Qed.

Lemma try_positions_total (threshold : Q) (separators : list Placed)
  (positions : list nat) (best : Best) (g : Global) :
  scorable → positions ⊆ boundaries →
  ∃ r, try_positions config syllables threshold separators positions best g = Returns r.
Proof.
  intros Hscorable. revert best g.
  induction positions as [|i positions IH]; intros best g Hsub; simpl.
  - eauto.
  - assert (Hsub' : positions ⊆ boundaries) by (intros x Hx; apply Hsub; by right).
    destruct (nearby separators i); [by apply IH|].
    fold (boundary_scores i).
    destruct (Hscorable i) as [scores ->]; [apply elem_of_boundaries, Hsub; by left|].
    destruct (chooseSeparator config g scores threshold true) as [sep g1].
    by apply IH.
Qed.

Lemma place_rounds_total (thresholds : Thresholds) (remaining round : nat)
  (separators : list Placed) (g : Global) :
  scorable →
  ∃ r, place_rounds config syllables thresholds remaining round separators g = Returns r.
Proof.
  intros Hscorable. revert round separators g.
  induction remaining as [|remaining IH]; intros round separators g; simpl; [eauto|].
  destruct (try_positions_total (round_threshold thresholds round) separators
              boundaries {| bestScore := 0; bestPosition := None;
                            bestSeparator := EmptyString |} g Hscorable)
    as [[best g1] Htry]; [done|].
  fold (Spec.boundaries syllables). rewrite Htry.
  destruct (bestPosition best); [|eauto].
  destruct (negb (Qle_bool (round_threshold thresholds round) (bestScore best))); [eauto|].
  apply IH.
Qed.
End Engine.

Lemma checkClusterDifficulty_returns (config : Config) (c1 : option ascii) (c : ascii) :
  ∃ d, checkClusterDifficulty config c1 (Some c) = Returns d.
Proof.
  unfold checkClusterDifficulty. destruct c1; cbv zeta;
    repeat match goal with |- context [if ?c then _ else _] => destruct c end; eauto.
Qed.

Lemma first_char_nonempty (s : string) : nonempty s = true → ∃ c, first_char s = Some c.
Proof. destruct s as [|c s]; [discriminate|]. intros _. by exists c. Qed.

Lemma analyzeBoundary_returns (config : Config) (syllables : list string) (i : nat) :
  Forall (λ s, nonempty s = true) syllables →
  (1 <= i < length syllables)%nat →
  ∃ scores, boundary_scores config syllables i = Returns scores.
Proof.
  intros Hne Hi. unfold boundary_scores, analyzeBoundary.
  assert (Hlast : ∃ lastSyl, last (take i syllables) = Some lastSyl).
  { destruct (last (take i syllables)) eqn:E; [eauto|].
    apply last_None in E. apply (f_equal length) in E. rewrite length_take in E.
    simpl in E. lia. }
  assert (Hhead : ∃ firstSyl, head (drop i syllables) = Some firstSyl
                              ∧ nonempty firstSyl = true).
  { destruct (drop i syllables) as [|firstSyl rest] eqn:E.
    - apply (f_equal length) in E. rewrite length_drop in E. simpl in E. lia.
    - exists firstSyl. split; [reflexivity|].
      assert (Hin : firstSyl ∈ syllables).
      { apply (subseteq_drop i). rewrite E. by left. }
      rewrite Forall_forall in Hne. by apply Hne. }
  destruct Hlast as [lastSyl ->]. destruct Hhead as (firstSyl & -> & Hfirst).
  destruct (first_char_nonempty firstSyl Hfirst) as [c ->].
  destruct (checkClusterDifficulty_returns config (last_char lastSyl) c) as [d ->].
  eauto.
Qed.

Lemma nonempty_scorable (config : Config) (syllables : list string) :
  Forall (λ s, nonempty s = true) syllables → scorable config syllables.
Proof. intros Hne i Hi. by apply analyzeBoundary_returns. Qed.

(** *** The engine as a whole *)

Lemma addSmartSeparators_placed (config : Config) (g : Global) (syllables : list string)
  (options : Options) :
  let maxSeparators := default (maxSeparators (separators config)) (opt_maxSeparators options) in
  let thresholds := default (thresholds (separators config)) (opt_thresholds options) in
  Forall (λ s, nonempty s = true) syllables →
  ∃ placed g',
    addSmartSeparators config g syllables options
    = Returns (match placed with
               | [] => join syllables
               | _ => build syllables (sort by_position placed)
               end, g')
    ∧ (Z.of_nat (length placed) <= Z.max 0 maxSeparators)%Z
    ∧ ((length syllables < 2)%nat → placed = [])
    ∧ ∀ k p, placed !! k = Some p →
             placement_ok config syllables g thresholds (take k placed) k p.
Proof.
  intros maxSeparators thresholds Hne. unfold addSmartSeparators.
  destruct (separators_enabled (separators config)); simpl.
  2:{ exists [], g. split; [reflexivity|]. split; [simpl; lia|]. split; [done|].
      intros k p Hk. by destruct k. }
  destruct (decide (length syllables < 2)%nat) as [Hshort|Hlong].
  { exists [], g. split; [reflexivity|]. split; [simpl; lia|]. split; [done|].
    intros k p Hk. by destruct k. }
  fold maxSeparators thresholds.
  destruct (place_rounds_total config syllables thresholds (Z.to_nat maxSeparators) 0 [] g
              (nonempty_scorable config syllables Hne)) as [[placed g'] Hrun].
  rewrite Hrun.
  destruct (place_rounds_spec config syllables g thresholds _ _ _ _ _ _
              (state_initial config g) Hrun) as (_ & new & Hnew & Hlen & Hok).
  simpl in Hnew. subst new.
  exists placed, g'. split; [by destruct placed|]. split; [lia|]. split; [lia|].
  intros k p Hk. exact (Hok k p Hk).
Qed.

(** *** Stripping *)

Lemma six_decoration (sep : string) : sep ∈ six_separators → decoration sep.
Proof.
  unfold six_separators. intros H.
  repeat (apply elem_of_cons in H as [->|H]; [reflexivity|]). by apply elem_of_nil in H.
Qed.

Lemma unambiguous_longest (inventory : list string) (syl : string) (rest : list string) :
  Forall (λ s, tried_length s) inventory → prefix_unambiguous inventory →
  syl ∈ inventory → Forall (λ s, s ∈ inventory) rest →
  longest_match inventory (syl +:+ join rest) syl.
Proof.
  intros Hlen Hun Hsyl Hrest. rewrite Forall_forall in Hlen.
  split; [assumption|]. split; [by apply Hlen|]. split; [by eexists|].
  intros other Hother _ Hpre. by apply (Hun syl rest other).
Qed.

Lemma greedy_join (inventory syllables : list string) :
  Forall (λ s, tried_length s) inventory → prefix_unambiguous inventory →
  Forall (λ s, s ∈ inventory) syllables →
  greedy inventory (join syllables) syllables EmptyString.
Proof.
  intros Hlen Hun. induction 1 as [|syl rest Hin Hrest IH]; [constructor|].
  rewrite join_cons.
  eapply greedy_step; [by apply unambiguous_longest | reflexivity | exact IH].
Qed.

Lemma tried_length_nonempty (s : string) : tried_length s → nonempty s = true.
Proof. destruct s; [intros [H _]; simpl in H; lia | reflexivity]. Qed.

Lemma inventory_nonempty (inventory : list string) (s : string) :
  Forall (λ s, tried_length s) inventory → s ∈ inventory → nonempty s = true.
Proof.
  intros Hlen Hin. rewrite Forall_forall in Hlen. by apply tried_length_nonempty, Hlen.
Qed.

Lemma join_nonempty (syllables : list string) :
  syllables ≠ [] → Forall (λ s, nonempty s = true) syllables → join syllables ≠ EmptyString.
Proof.
  destruct syllables as [|s rest]; [done|]. intros _ H. apply Forall_cons in H as [Hs _].
  rewrite join_cons. destruct s; [discriminate | discriminate].
Qed.

(** C3, for non-empty sequences: for every non-empty sequence of syllables
    taken from an inventory whose syllables all consist of 2 to 4 lowercase
    letters and which is prefix-unambiguous for greedy longest-match, the
    string [addSmartSeparators] produces, lower-cased and stripped of every
    character that is not a lowercase letter, is the concatenation of the
    syllables, and the parser gives exactly the original sequence back. *)
Theorem stripping_invariance (config : Config) (g : Global) (inventory : list string)
  (syllables : list string) (options : Options) :
  Forall (λ s, lowercase_word s = true) inventory →
  Forall (λ s, tried_length s) inventory →
  prefix_unambiguous inventory →
  Forall (λ s, s ∈ inventory) syllables →
  syllables ≠ [] →
  ∃ version g',
    addSmartSeparators config g syllables options = Returns (version, g')
    ∧ Decoder.clean version = join syllables
    ∧ Decoder.parseVersionToSyllables inventory version = Returns syllables.
Proof.
  intros Hlow Hlen Hun Hin Hsome.
  assert (Hne : Forall (λ s, nonempty s = true) syllables).
  { eapply Forall_impl; [exact Hin|]. intros s Hs. by eapply inventory_nonempty. }
  assert (Hlows : Forall (λ s, lowercase_word s = true) syllables).
  { eapply Forall_impl; [exact Hin|]. intros s Hs. rewrite Forall_forall in Hlow. auto. }
  destruct (addSmartSeparators_placed config g syllables options Hne)
    as (placed & g' & Hrun & _ & _ & Hok).
  eexists _, g'. split; [exact Hrun|].
  assert (Hclean : Decoder.clean
                     match placed with
                     | [] => join syllables
                     | _ => build syllables (sort by_position placed)
                     end = join syllables).
  { destruct placed as [|p0 placed0] eqn:Hp; [by apply clean_join|]. rewrite <- Hp.
    apply build_clean; [assumption|]. apply Forall_lookup. intros k p Hk.
    rewrite <- Hp in Hok.
    destruct (Hok k p Hk) as (_ & _ & Hsix & _). by apply six_decoration. }
  split; [exact Hclean|].
  apply (parse_spec inventory). rewrite Hclean.
  split; [by apply join_nonempty | by apply greedy_join].
Qed.

(** *** A decidable criterion for prefix-unambiguity *)

Lemma prefix_is_prefix (a b : string) : String.prefix a b = true ↔ is_prefix a b.
Proof.
  rewrite String.prefix_correct. split.
  - intros Hsub. apply is_prefix_substring. split; [|exact Hsub].
    destruct (le_lt_dec (String.length a) (String.length b)) as [|Hlt]; [assumption|].
    exfalso. apply (f_equal String.length) in Hsub.
    assert (Hle : ∀ n s, (String.length (String.substring 0 n s) <= String.length s)%nat).
    { clear. induction n as [|n IH]; intros [|c s]; simpl; try lia. specialize (IH s). lia. }
    specialize (Hle (String.length a) b). lia.
  - intros H. by apply is_prefix_substring in H as [_ H].
Qed.

Lemma common_prefix (a b x y : string) :
  a +:+ x = b +:+ y → (String.length a <= String.length b)%nat →
  ∃ d, b = a +:+ d ∧ x = d +:+ y.
Proof.
  revert b. induction a as [|c a IH]; intros b Heq Hlen.
  - exists b. rewrite !append_nil in *. auto.
  - destruct b as [|c' b]; [simpl in Hlen; lia|].
    rewrite !append_cons in Heq. injection Heq as <- Heq.
    destruct (IH b Heq ltac:(simpl in Hlen; lia)) as (d & -> & ->).
    exists d. by rewrite append_cons.
Qed.

Lemma unambiguous_check_sound (inventory : list string) :
  unambiguous_check inventory = true →
  Forall (λ s, tried_length s) inventory ∧ prefix_unambiguous inventory.
Proof.
  intros Hcheck.
  unfold unambiguous_check in Hcheck. rewrite forallb_forall in Hcheck.
  assert (Hlen : ∀ s, s ∈ inventory → tried_length s).
  { intros s Hs. apply list_elem_of_In, Hcheck in Hs.
    apply andb_true_iff in Hs as [Hs _]. apply andb_true_iff in Hs as [H2 H4].
    apply Nat.leb_le in H2, H4. split; assumption. }
  split; [by apply Forall_forall|].
  intros syl rest other Hsyl Hrest Hother Hpre.
  pose proof (Hlen other Hother) as Hto.
  destruct (le_lt_dec (String.length other) (String.length syl)) as [|Hlonger]; [assumption|].
  exfalso. destruct Hpre as [tail Htail].
  destruct (common_prefix syl other (join rest) tail Htail ltac:(lia)) as (d & Hd & Hjoin).
  assert (Hdlen : (1 <= String.length d <= 2)%nat).
  { apply (f_equal String.length) in Hd. rewrite length_append in Hd.
    destruct Hto as [_ ?]. destruct (Hlen syl Hsyl) as [? _]. lia. }
  destruct rest as [|next rest].
  { rewrite join_nil in Hjoin. apply (f_equal String.length) in Hjoin.
    rewrite length_append in Hjoin. simpl in Hjoin. lia. }
  apply Forall_cons in Hrest as [Hnext _]. rewrite join_cons in Hjoin.
  symmetry in Hjoin.
  destruct (common_prefix d next tail (join rest) Hjoin) as (d' & Hnd & _).
  { destruct (Hlen next Hnext) as [? _]. lia. }
  pose proof (proj1 (list_elem_of_In _ _) Hsyl) as Hs. apply Hcheck in Hs.
  apply andb_true_iff in Hs as [_ Hs]. rewrite forallb_forall in Hs.
  specialize (Hs other (proj1 (list_elem_of_In _ _) Hother)).
  assert (Hprem : String.prefix syl other && (String.length syl <? String.length other)%nat
                  = true).
  { apply andb_true_iff. split; [apply prefix_is_prefix; by exists d | by apply Nat.ltb_lt]. }
  rewrite Hprem in Hs. simpl in Hs. rewrite forallb_forall in Hs.
  specialize (Hs next (proj1 (list_elem_of_In _ _) Hnext)).
  apply negb_true_iff in Hs.
  assert (Hfrom : substring_from (String.length syl) other = d).
  { rewrite Hd. apply substring_from_app. }
  rewrite Hfrom in Hs.
  assert (String.prefix d next = true) by (apply prefix_is_prefix; by exists d').
  congruence.
Qed.

(** *** The example inventory and the runs on the documented configuration *)

Lemma exampleInventory_lengths : Forall (λ s, tried_length s) exampleInventory.
Proof. apply unambiguous_check_sound. vm_compute. reflexivity. Qed.

Lemma exampleInventory_unambiguous : prefix_unambiguous exampleInventory.
Proof. apply unambiguous_check_sound. vm_compute. reflexivity. Qed.

Lemma exampleInventory_lowercase :
  Forall (λ s, lowercase_word s = true) exampleInventory.
Proof. repeat constructor. Qed.

Lemma stripping_invariance_witness :
  ∃ version g',
    addSmartSeparators documentedConfig None ["tik"; "tok"] Separators.noOptions
    = Returns (version, g')
    ∧ clean version = join ["tik"; "tok"]
    ∧ parseVersionToSyllables exampleInventory version = Returns ["tik"; "tok"].
Proof.
  apply (stripping_invariance documentedConfig None exampleInventory ["tik"; "tok"]
           Separators.noOptions).
  - exact exampleInventory_lowercase.
  - exact exampleInventory_lengths.
  - exact exampleInventory_unambiguous.
  - repeat constructor.
  - discriminate.
Defined.

(** C3 as stated fails on the empty sequence: the engine returns the empty
    string for it, and the parser throws on the empty string instead of
    returning the empty sequence. *)
Lemma stripping_empty_sequence :
  Forall (λ s, lowercase_word s = true) exampleInventory
  ∧ Forall (λ s, tried_length s) exampleInventory
  ∧ prefix_unambiguous exampleInventory
  ∧ Forall (λ s, s ∈ exampleInventory) []
  ∧ addSmartSeparators documentedConfig None [] Separators.noOptions
    = Returns (EmptyString, None)
  ∧ parseVersionToSyllables exampleInventory EmptyString = Throws EmptyVersion
  ∧ parseVersionToSyllables exampleInventory EmptyString ≠ Returns [].
Proof.
  split; [exact exampleInventory_lowercase|].
  split; [exact exampleInventory_lengths|].
  split; [exact exampleInventory_unambiguous|].
  split; [constructor|]. split; [vm_compute; reflexivity|].
  split; [vm_compute; reflexivity | discriminate].
Qed.

Lemma short_inventory_unambiguous : prefix_unambiguous ["a"; "ba"].
Proof.
  intros syl rest other Hsyl Hrest Hother [tail Hpre].
  repeat (apply elem_of_cons in Hsyl as [->|Hsyl]);
    repeat (apply elem_of_cons in Hother as [->|Hother]);
    try (by apply elem_of_nil in Hsyl); try (by apply elem_of_nil in Hother);
    try (simpl; lia).
  rewrite !append_cons in Hpre. discriminate Hpre.
Qed.

(** why the syllables must have 2 to 4 letters: with the one-letter
    syllable a in a prefix-unambiguous inventory of lowercase words, the
    engine turns ba, a into ba'a, and the parser, which tries the lengths 4,
    3 and 2 only, throws at the remainder a. *)
Lemma stripping_one_letter_syllable :
  Forall (λ s, lowercase_word s = true) ["a"; "ba"]
  ∧ prefix_unambiguous ["a"; "ba"]
  ∧ Forall (λ s, s ∈ ["a"; "ba"]) ["ba"; "a"]
  ∧ (∃ g', addSmartSeparators documentedConfig None ["ba"; "a"] Separators.noOptions
           = Returns ("ba'a", g'))
  ∧ parseVersionToSyllables ["a"; "ba"] "ba'a" = Throws (UnrecognizedSyllable "a").
Proof.
  split; [repeat constructor|]. split; [exact short_inventory_unambiguous|].
  split; [repeat constructor|].
  split; [eexists; vm_compute; reflexivity | vm_compute; reflexivity].
Qed.

Local Open Scope Q_scope.



Local Close Scope Q_scope.

(** ** generator.js *)

(** without smart separators the result does not depend on the balancer,
    and the balancer is left as it was *)
Lemma generateVersion_plain_deterministic (estimate : Z → Z) (config : Config)
  (inventory : list string) (now : Z) (g : Global) (timestamp : option Z)
  (options : Generator.Options) :
  default (separators_enabled (separators config)) (Generator.smartSeparators options)
  = false →
  ∃ version,
    Generator.generateVersion estimate config inventory now g timestamp options
    = Returns (version, g)
    ∧ ∀ g2, Generator.generateVersion estimate config inventory now g2 timestamp options
            = Returns (version, g2).
Proof.
  intros Hplain. unfold Generator.generateVersion. cbv zeta. rewrite Hplain.
  destruct (default false (Generator.hyphenated options)); eexists; split; reflexivity.
Qed.

(** C4 fails on the code: with smart separators, two calls with the same
    timestamp and the same options, one after the other in one process,
    return different strings, because the first call has moved the history
    of the global balancer. *)
Theorem generateVersion_repeated_call :
  ∃ g1 g2,
    Generator.generateVersion digitCount documentedConfig exampleInventory 0%Z None
      (Some 129%Z) intervalOnly = Returns ("be-be", g1)
    ∧ Generator.generateVersion digitCount documentedConfig exampleInventory 0%Z g1
        (Some 129%Z) intervalOnly = Returns ("bebe", g2)
    ∧ "be-be" ≠ "bebe".
Proof.
  eexists _, _. split; [vm_compute; reflexivity|].
  split; [vm_compute; reflexivity | discriminate].
Qed.

(** * Further properties *)

Import Notions.

Local Open Scope Z_scope.

(** ** encoder.js *)

(** *** Canonical digit sequences *)

Lemma fromBase128_cons d digits :
  fromBase128 (d :: digits) = d * 128 ^ Z.of_nat (length digits) + fromBase128 digits.
Proof. unfold fromBase128 at 1. simpl. rewrite fold_decode_app. f_equal. Qed.

Lemma fromBase128_range digits :
  Forall (λ d, 0 <= d < 128) digits →
  0 <= fromBase128 digits < 128 ^ Z.of_nat (length digits).
Proof.
  induction 1 as [|d digits Hd _ IH]; [simpl; unfold fromBase128; simpl; lia|].
  rewrite fromBase128_cons. simpl length. rewrite Nat2Z.inj_succ, Z.pow_succ_r by lia.
  assert (0 < 128 ^ Z.of_nat (length digits)) by (apply Z.pow_pos_nonneg; lia).
  nia.
Qed.

Lemma fromBase128_leading d digits :
  Forall (λ d, 0 <= d < 128) (d :: digits) → d ≠ 0 →
  128 ^ Z.of_nat (length digits) <= fromBase128 (d :: digits).
Proof.
  intros H Hd. apply Forall_cons in H as [Hr Hrest].
  pose proof (fromBase128_range digits Hrest). rewrite fromBase128_cons.
  assert (0 < 128 ^ Z.of_nat (length digits)) by (apply Z.pow_pos_nonneg; lia).
  nia.
Qed.

Lemma toBase128_loop_digits digits acc :
  Forall (λ d, 0 <= d < 128) digits →
  (digits = [] ∨ ∃ d rest, digits = d :: rest ∧ d ≠ 0) →
  toBase128_loop acc (fromBase128 digits) = digits ++ acc.
Proof.
  revert acc. induction digits as [|d digits IH] using rev_ind; intros acc Hrange Hlead.
  - rewrite toBase128_loop_unfold. unfold fromBase128. simpl.
    destruct (decide (0 > 0)); [lia | reflexivity].
  - apply Forall_app in Hrange as [Hrange Hd]. rewrite Forall_singleton in Hd.
    assert (Hlead' : digits = [] ∨ ∃ d' rest, digits = d' :: rest ∧ d' ≠ 0).
    { destruct digits as [|d' rest]; [by left|]. right.
      destruct Hlead as [Hnil|(d0 & rest0 & Heq & Hne)]; [discriminate|].
      simpl in Heq. injection Heq as <- _. eauto. }
    assert (Hpos : fromBase128 (digits ++ [d]) > 0).
    { rewrite fromBase128_snoc. destruct Hlead' as [->|(d' & rest & -> & Hne)].
      - destruct Hlead as [Hnil|(d0 & rest0 & Heq & Hne)]; [discriminate|].
        simpl in Heq. injection Heq as <- _. unfold fromBase128. cbn [fold_left]. lia.
      - pose proof (fromBase128_leading d' rest Hrange Hne).
        assert (0 < 128 ^ Z.of_nat (length rest)) by (apply Z.pow_pos_nonneg; lia).
        lia. }
    rewrite toBase128_loop_unfold. destruct (decide (fromBase128 (digits ++ [d]) > 0)); [|lia].
    rewrite fromBase128_snoc.
    replace ((fromBase128 digits * 128 + d) mod 128) with d
      by (rewrite Z.add_comm, Z.mod_add by lia; symmetry; apply Z.mod_small; lia).
    replace ((fromBase128 digits * 128 + d) / 128) with (fromBase128 digits)
      by (rewrite Z.add_comm, Z.div_add by lia; rewrite Z.div_small by lia; lia).
    rewrite IH by assumption. by rewrite <- app_assoc.
Qed.

Lemma toBase128_loop_leading acc remaining :
  remaining > 0 → ∃ d rest, toBase128_loop acc remaining = d :: rest ∧ d ≠ 0.
Proof.
  assert (Hboth : (remaining > 0 → ∃ d rest, toBase128_loop acc remaining = d :: rest ∧ d ≠ 0)
                  ∧ (¬ remaining > 0 → toBase128_loop acc remaining = acc)); [|tauto].
  revert acc remaining.
  apply (toBase128_loop_ind
           (λ acc remaining out, (remaining > 0 → ∃ d rest, out = d :: rest ∧ d ≠ 0)
                                 ∧ (¬ remaining > 0 → out = acc))).
  - intros acc remaining Hno. split; [contradiction | reflexivity].
  - intros acc remaining out Hpos [IHpos IHno]. split; [|contradiction]. intros _.
    destruct (decide (remaining / 128 > 0)) as [Hq|Hq]; [by apply IHpos|].
    assert (Hsmall : remaining < 128).
    { destruct (Z_lt_le_dec remaining 128) as [|Hge]; [assumption|].
      assert (1 <= remaining / 128) by (apply Z.div_le_lower_bound; lia). lia. }
    exists (remaining mod 128), acc. split; [by apply IHno|rewrite Z.mod_small; lia].
Qed.

Lemma toBase128_is_canonical x : 0 <= x → canonical (toBase128 x).
Proof.
  intros Hx. split.
  - unfold toBase128. destruct (decide (x = 0)); [repeat constructor; lia|].
    apply toBase128_loop_range. constructor.
  - unfold toBase128. destruct (decide (x = 0)); [by left|]. right.
    apply toBase128_loop_leading. lia.
Qed.

Lemma toBase128_of_canonical digits :
  canonical digits → toBase128 (fromBase128 digits) = digits.
Proof.
  intros [Hrange [->|(d & rest & -> & Hne)]]; [reflexivity|].
  pose proof (fromBase128_leading d rest Hrange Hne).
  assert (0 < 128 ^ Z.of_nat (length rest)) by (apply Z.pow_pos_nonneg; lia).
  unfold toBase128. destruct (decide (fromBase128 (d :: rest) = 0)); [lia|].
  rewrite toBase128_loop_digits; [by rewrite app_nil_r | assumption | eauto].
Qed.

(** X1: for every number [x >= 0] the digits [toBase128] returns are
    canonical: each lies in [0, 128) and, unless the sequence is the single
    digit 0, the leading digit is not 0. *)
Theorem toBase128_canonical (x : Z) : 0 <= x → canonical (toBase128 x).
Proof. apply toBase128_is_canonical. Qed.

Lemma toBase128_canonical_witness : canonical (toBase128 16384).
Proof. apply (toBase128_canonical 16384). lia. Defined.

(** X2: on canonical digit sequences whose value is below 2^53, the range
    in which the code's arithmetic is exact, [toBase128] undoes
    [fromBase128], so that the two functions are mutually inverse there;
    in particular two different canonical sequences with values below 2^53
    decode to different numbers. *)
Theorem fromBase128_roundtrip (digits other : list Z) :
  canonical digits → fromBase128 digits < 2 ^ 53 →
  toBase128 (fromBase128 digits) = digits
  ∧ (canonical other → fromBase128 other < 2 ^ 53 →
     fromBase128 digits = fromBase128 other → digits = other).
Proof.
  intros Hd _. split; [by apply toBase128_of_canonical|].
  intros Ho _ Heq. rewrite <- (toBase128_of_canonical digits Hd).
  rewrite <- (toBase128_of_canonical other Ho). by rewrite Heq.
Qed.

Lemma fromBase128_roundtrip_witness :
  toBase128 (fromBase128 [5; 0; 127]) = [5; 0; 127].
Proof.
  apply (fromBase128_roundtrip [5; 0; 127] []).
  - split; [repeat constructor; lia|]. right. exists 5, [0; 127].
    split; [reflexivity | lia].
  - vm_compute. reflexivity.
Defined.

(** X3: the number of digits of a positive number [x] is the length of its
    base-128 expansion: with [n] digits, [128^(n-1) <= x < 128^n]. *)
Theorem toBase128_length (x : Z) :
  0 < x →
  let n := Z.of_nat (length (toBase128 x)) in
  1 <= n ∧ 128 ^ (n - 1) <= x < 128 ^ n.
Proof.
  intros Hx n. destruct (toBase128_is_canonical x) as [Hrange Hlead]; [lia|].
  pose proof (fromBase128_toBase128 x ltac:(lia)) as Hval.
  pose proof (fromBase128_range _ Hrange) as Hup. rewrite Hval in Hup. fold n in Hup.
  destruct Hlead as [H0|(d & rest & Heq & Hne)].
  { rewrite H0 in Hval. unfold fromBase128 in Hval. simpl in Hval. lia. }
  pose proof (fromBase128_leading d rest) as Hlow. rewrite <- Heq in Hlow.
  specialize (Hlow Hrange Hne). rewrite Hval in Hlow.
  assert (Hn : n = Z.of_nat (length rest) + 1).
  { unfold n. rewrite Heq. simpl length. lia. }
  rewrite Hn. replace (Z.of_nat (length rest) + 1 - 1) with (Z.of_nat (length rest)) by lia.
  rewrite <- Hn. lia.
Qed.

Lemma toBase128_length_witness :
  let n := Z.of_nat (length (toBase128 16384)) in
  1 <= n ∧ 128 ^ (n - 1) <= 16384 < 128 ^ n.
Proof. apply (toBase128_length 16384). lia. Defined.

(** X4: a sequence of [k] digits, each in [0, 128), with [k] at most 7,
    so that every value below stays under 2^53 where the code's arithmetic
    is exact, decodes to a number in [0, 128^k). *)
Theorem fromBase128_bounds (digits : list Z) :
  Forall (λ d, 0 <= d < 128) digits → (length digits <= 7)%nat →
  0 <= decodeSyllableIndices digits < 128 ^ Z.of_nat (length digits)
  ∧ decodeSyllableIndices digits < 2 ^ 53.
Proof.
  intros Hrange Hlen. pose proof (fromBase128_range digits Hrange) as Hbound.
  split; [exact Hbound|]. unfold decodeSyllableIndices.
  assert (128 ^ Z.of_nat (length digits) <= 128 ^ 7)
    by (apply Z.pow_le_mono_r; lia).
  assert (128 ^ 7 < 2 ^ 53) by (vm_compute; reflexivity). lia.
Qed.

Lemma fromBase128_bounds_witness :
  0 <= decodeSyllableIndices [127; 127] < 128 ^ Z.of_nat (length [127; 127])
  ∧ decodeSyllableIndices [127; 127] < 2 ^ 53.
Proof.
  apply (fromBase128_bounds [127; 127]); [repeat constructor; lia | simpl; lia].
Defined.

(** X5: [encodeToSyllableIndices] returns the digits of the number with
    as many zero digits in front as are missing to the requested minimum
    length, and none when the digits are already that long. *)
Theorem encodeToSyllableIndices_padding (x m : Z) :
  encodeToSyllableIndices x m
  = replicate (Z.to_nat m - length (toBase128 x)) 0 ++ toBase128 x.
Proof.
  unfold encodeToSyllableIndices. cbv zeta.
  destruct (pad_loop_shape (toBase128 x) m) as (k & Heq & Hlen).
  rewrite Heq in Hlen |- *. rewrite length_app, length_replicate in Hlen.
  f_equal. f_equal. lia.
Qed.

(** *** The permutation and its inverse *)

Section Permutation.
Context {A : Type} `{Inhabited A}.

Lemma scatter_own (positions : list nat) (values : list A) idxs result i0 :
  (∀ i, i ∈ idxs → positions !!! i = positions !!! i0 → i = i0) →
  (∀ i, i ∈ i0 :: idxs → (positions !!! i < length result)%nat) →
  i0 ∈ idxs ∨ result !! (positions !!! i0) = Some (values !!! i0) →
  fold_left (λ res i, <[positions !!! i := values !!! i]> res) idxs result
    !! (positions !!! i0)
  = Some (values !!! i0).
Proof.
  revert result. induction idxs as [|i idxs IH]; intros result Hinj Hpos Hcov.
  - simpl. destruct Hcov as [Hi|Hres]; [by apply elem_of_nil in Hi | assumption].
  - simpl. apply IH.
    + intros j Hj. apply Hinj. by right.
    + intros j Hj. rewrite length_insert. apply Hpos.
      apply elem_of_cons in Hj as [->|Hj]; [by left | by do 2 right].
    + destruct (decide (i = i0)) as [->|Hne].
      * right. apply list_lookup_insert_eq. apply Hpos. by left.
      * assert (Hp : positions !!! i ≠ positions !!! i0).
        { intros Heq. apply Hne, Hinj; [by left | assumption]. }
        destruct Hcov as [Hi|Hres].
        -- left. apply elem_of_cons in Hi as [->|Hi]; [contradiction | assumption].
        -- right. by rewrite list_lookup_insert_ne.
Qed.

Lemma deinterleave_length (digits : list A) :
  length (deinterleaveDigits digits) = length digits.
Proof.
  unfold deinterleaveDigits.
  destruct (decide (length digits = 0%nat)) as [E|_]; [by rewrite E|].
  destruct (decide (length digits = 1%nat)); [reflexivity|].
  cbv zeta. by rewrite scatter_length, length_replicate.
Qed.

Lemma interleave_deinterleave (digits : list A) :
  interleaveDigits (deinterleaveDigits digits) = digits.
Proof.
  destruct (decide (length digits = 0%nat)) as [E|N0].
  { apply nil_length_inv in E. by subst. }
  destruct (decide (length digits = 1%nat)) as [E|N1].
  { unfold deinterleaveDigits, interleaveDigits. rewrite E. simpl. by rewrite E. }
  set (n := length digits). assert (Hn : (2 <= n)%nat) by (unfold n; lia).
  pose proof (position_map_perm n Hn) as Hperm.
  assert (Hlen : length (position_map n) = n)
    by (rewrite (Permutation_length Hperm); apply length_seq).
  assert (Hnodup : NoDup (position_map n)) by (rewrite Hperm; apply NoDup_seq).
  assert (Hbelow : ∀ i, (i < n)%nat → (position_map n !!! i < n)%nat).
  { intros i Hi. assert (Hin : position_map n !!! i ∈ position_map n)
      by (apply list_elem_of_lookup_total_2; lia).
    generalize dependent (position_map n !!! i). intros p Hin.
    rewrite Hperm in Hin. apply elem_of_seq in Hin. lia. }
  rewrite interleave_as_positions by (rewrite deinterleave_length; lia).
  rewrite deinterleave_length. fold n.
  apply list_eq. intros i. rewrite list_lookup_fmap.
  destruct (decide (i < n)%nat) as [Hi|Hi].
  - rewrite (list_lookup_lookup_total_lt (position_map n) i) by lia. simpl.
    rewrite (list_lookup_lookup_total_lt digits i) by (fold n; lia). f_equal.
    apply list_lookup_total_correct.
    unfold deinterleaveDigits.
    destruct (decide (length digits = 0%nat)); [lia|].
    destruct (decide (length digits = 1%nat)); [lia|].
    cbv zeta. fold n. fold (position_map n).
    apply scatter_own.
    + intros j Hj Heq. apply elem_of_seq in Hj.
      eapply (NoDup_lookup (position_map n)); [exact Hnodup | |].
      * apply list_lookup_lookup_total_lt. lia.
      * rewrite Heq. apply list_lookup_lookup_total_lt. lia.
    + intros j Hj. rewrite length_replicate. apply Hbelow.
      apply elem_of_cons in Hj as [->|Hj]; [assumption|]. apply elem_of_seq in Hj. lia.
    + left. apply elem_of_seq. lia.
  - rewrite (lookup_ge_None_2 (position_map n) i) by lia.
    symmetry. apply lookup_ge_None. fold n. lia.
Qed.

Lemma deinterleave_perm (digits : list A) : deinterleaveDigits digits ≡ₚ digits.
Proof.
  rewrite <- (interleave_deinterleave digits) at 2.
  symmetry. apply interleaveDigits_perm.
Qed.

(** X6: [interleaveDigits] also undoes [deinterleaveDigits], so the two are
    inverse to each other in both directions; [deinterleaveDigits] keeps
    the length and returns a permutation of its input. *)
Theorem deinterleave_inverse (digits : list A) :
  interleaveDigits (deinterleaveDigits digits) = digits
  ∧ length (deinterleaveDigits digits) = length digits
  ∧ deinterleaveDigits digits ≡ₚ digits.
Proof.
  split; [apply interleave_deinterleave|]. split; [apply deinterleave_length|].
  apply deinterleave_perm.
Qed.
End Permutation.

Section Naturality.
Context {A B : Type} `{Inhabited A} `{Inhabited B} (f : A → B).

Lemma interleave_fmap (digits : list A) :
  interleaveDigits (f <$> digits) = f <$> interleaveDigits digits.
Proof.
  unfold interleaveDigits. rewrite length_fmap.
  destruct (decide (length digits = 0%nat)); [reflexivity|].
  destruct (decide (length digits = 1%nat)); [reflexivity|]. cbv zeta.
  rewrite <- (interleave_loop_fmap f) by lia.
  change (f <$> [at_index digits 0]) with [f (at_index digits 0)].
  rewrite <- (at_index_fmap f) by lia. reflexivity.
Qed.

(** X7: where a digit goes depends on the length of the sequence only, not
    on the digit values: both [interleaveDigits] and [deinterleaveDigits]
    commute with applying a function to every entry (so interleaving the
    indices and then mapping them to syllables gives the interleaved
    syllables). *)
Theorem interleave_by_position (digits : list A) :
  interleaveDigits (f <$> digits) = f <$> interleaveDigits digits
  ∧ deinterleaveDigits (f <$> digits) = f <$> deinterleaveDigits digits.
Proof.
  split; [apply interleave_fmap|].
  rewrite <- (interleave_deinterleave digits) at 1.
  rewrite <- interleave_fmap. apply deinterleave_interleave.
Qed.
End Naturality.

(** ** separator-balancer.js *)

(** *** The history *)

Lemma recordUsage_history (b : SeparatorBalancer) (separator : string) :
  (length (history b) <= Z.to_nat (historySize b))%nat →
  history (recordUsage b separator)
  = window (Z.to_nat (historySize b)) (history b ++ [separator])
  ∧ (length (history (recordUsage b separator)) <= Z.to_nat (historySize b))%nat.
Proof.
  intros Hlen. unfold recordUsage, window. cbn [history]. rewrite length_app. simpl length.
  destruct (decide (Z.of_nat (length (history b) + 1) > historySize b)) as [Hover|Hfits].
  - assert (Hfull : length (history b) = Z.to_nat (historySize b)) by lia.
    replace (length (history b) + 1 - Z.to_nat (historySize b))%nat with 1%nat by lia.
    split; [by destruct (history b ++ [separator])|].
    destruct (history b) as [|s h]; simpl in *; [lia|]. rewrite length_app. simpl. lia.
  - replace (length (history b) + 1 - Z.to_nat (historySize b))%nat with 0%nat by lia.
    split; [reflexivity|]. rewrite length_app. simpl. lia.
Qed.

Lemma window_app {A} (n : nat) (l more : list A) :
  window n (window n l ++ more) = window n (l ++ more).
Proof.
  unfold window. destruct (decide (length l <= n)%nat) as [Hle|Hgt].
  - replace (length l - n)%nat with 0%nat by lia. reflexivity.
  - rewrite !length_app, length_drop.
    replace (length l - (length l - n) + length more - n)%nat with (length more) by lia.
    replace (length l + length more - n)%nat with ((length l - n) + length more)%nat by lia.
    rewrite <- drop_drop. f_equal. rewrite drop_app_le by lia. reflexivity.
Qed.

(** X8: the history is a sliding window.  Starting from a balancer whose
    history is not longer than [historySize] (the constructor's empty
    history is such), after any sequence of [recordUsage] calls the history
    holds the last [historySize] entries of the old history followed by the
    recorded separators, and never more; the other fields are unchanged. *)
Theorem recordUsage_window (b : SeparatorBalancer) (recorded : list string) :
  (length (history b) <= Z.to_nat (historySize b))%nat →
  let b' := fold_left recordUsage recorded b in
  history b' = window (Z.to_nat (historySize b)) (history b ++ recorded)
  ∧ (length (history b') <= Z.to_nat (historySize b))%nat
  ∧ historySize b' = historySize b
  ∧ targets b' = targets b
  ∧ diversityStrength b' = diversityStrength b.
Proof.
  revert b. induction recorded as [|s recorded IH]; intros b Hlen; cbv zeta.
  - simpl. rewrite app_nil_r. unfold window.
    replace (length (history b) - Z.to_nat (historySize b))%nat with 0%nat by lia.
    by repeat split.
  - destruct (recordUsage_history b s Hlen) as [Hhist Hlen'].
    simpl fold_left. specialize (IH (recordUsage b s)). cbv zeta in IH.
    change (historySize (recordUsage b s)) with (historySize b) in IH.
    change (targets (recordUsage b s)) with (targets b) in IH.
    change (diversityStrength (recordUsage b s)) with (diversityStrength b) in IH.
    destruct (IH Hlen') as (H1 & H2 & H3 & H4 & H5).
    split; [|by repeat split].
    rewrite H1, Hhist, window_app, <- app_assoc. reflexivity.
Qed.

Lemma recordUsage_window_witness :
  history (fold_left recordUsage ["dot"; "space"; "space"]
             (new {| cfg_historySize := Some 2; cfg_targets := None;
                     cfg_diversityStrength := None |}))
  = ["space"; "space"].
Proof.
  destruct (recordUsage_window
              (new {| cfg_historySize := Some 2; cfg_targets := None;
                      cfg_diversityStrength := None |})
              ["dot"; "space"; "space"]) as [Hhist _].
  - simpl. lia.
  - exact Hhist.
Defined.

(** *** The distribution *)

Local Open Scope Q_scope.

Lemma sum_list_with_perm {A} (f : A → nat) (l1 l2 : list A) :
  l1 ≡ₚ l2 → sum_list_with f l1 = sum_list_with f l2.
Proof.
  induction 1 as [|x l1 l2 _ IH|x y l|l1 l2 l3 _ IH1 _ IH2]; simpl; lia.
Qed.

Lemma indicator_sum (keys : list string) (a : string) :
  NoDup keys → a ∈ keys →
  sum_list_with (λ s, if decide (s = a) then 1%nat else 0%nat) keys = 1%nat.
Proof.
  induction 1 as [|s keys Hnot Hnodup IH]; intros Hin; [by apply elem_of_nil in Hin|].
  simpl. destruct (decide (s = a)) as [->|Hne].
  - assert (Hzero : ∀ l, a ∉ l →
              sum_list_with (λ s, if decide (s = a) then 1%nat else 0%nat) l = 0%nat).
    { clear. induction l as [|s l IH]; intros Hnot; [reflexivity|]. simpl.
      destruct (decide (s = a)) as [->|_]; [exfalso; apply Hnot; by left|].
      apply IH. intros Hin. apply Hnot. by right. }
    by rewrite Hzero.
  - apply elem_of_cons in Hin as [->|Hin]; [contradiction|]. by rewrite IH.
Qed.

Lemma occurrences_sum (h keys : list string) :
  NoDup keys → (∀ s, s ∈ h → s ∈ keys) →
  sum_list_with (occurrences h) keys = length h.
Proof.
  intros Hnodup. induction h as [|a h IH]; intros Hin.
  - clear. induction keys as [|s keys IHk]; [reflexivity|]. simpl. by rewrite IHk.
  - assert (Hsplit : ∀ l, sum_list_with (occurrences (a :: h)) l
              = (sum_list_with (λ s, if decide (s = a) then 1%nat else 0%nat) l
                 + sum_list_with (occurrences h) l)%nat).
    { induction l as [|s l IHl]; [reflexivity|]. simpl. rewrite IHl.
      unfold occurrences at 1. rewrite filter_cons.
      destruct (decide (a = s)) as [->|Hne].
      - destruct (decide (s = s)); [|contradiction]. simpl. unfold occurrences. lia.
      - destruct (decide (s = a)); [by subst|]. unfold occurrences. lia. }
    rewrite Hsplit, indicator_sum, IH; [reflexivity | | assumption |].
    + intros s Hs. apply Hin. by right.
    + apply Hin. by left.
Qed.

Lemma occurrences_zero (h : list string) (sep : string) :
  occurrences h sep = 0%nat ↔ sep ∉ h.
Proof.
  unfold occurrences. split.
  - intros Hlen Hin. apply nil_length_inv in Hlen.
    assert (Hf : sep ∈ filter (λ s, s = sep) h) by (by apply list_elem_of_filter).
    rewrite Hlen in Hf. by apply elem_of_nil in Hf.
  - intros Hnot. destruct (filter (λ s, s = sep) h) as [|x l] eqn:E; [reflexivity|].
    assert (Hx : x ∈ filter (λ s, s = sep) h) by (rewrite E; by left).
    apply list_elem_of_filter in Hx as [-> Hx]. contradiction.
Qed.

(** X9: [getCurrentDistribution] is empty for an empty history; otherwise
    its keys are exactly the separators in the history, each with its share
    of the history in percent, a number in (0, 100]; every entry of the
    history is counted under exactly one key: the occurrence counts of the
    keys add up to the length of the history. *)
Theorem distribution_shares (b : SeparatorBalancer) :
  (history b = [] → getCurrentDistribution b = ∅)
  ∧ (∀ sep, getCurrentDistribution b !! sep = None ↔ sep ∉ history b)
  ∧ (∀ sep share, getCurrentDistribution b !! sep = Some share →
                  share == usage_percent (history b) sep ∧ 0 < share ∧ share <= 100)
  ∧ sum_list_with (occurrences (history b))
                  (fst <$> map_to_list (getCurrentDistribution b))
    = length (history b).
Proof.
  split; [|split; [|split]].
  - intros Hempty. unfold getCurrentDistribution. by rewrite Hempty.
  - intros sep. rewrite distribution_lookup, <- occurrences_zero.
    destruct (decide (occurrences (history b) sep = 0%nat)); split; try done.
  - intros sep share. rewrite distribution_lookup.
    destruct (decide (occurrences (history b) sep = 0%nat)) as [|Hocc]; [done|].
    intros [= <-]. pose proof (occurrences_le (history b) sep) as Hle.
    assert (Hlen : (0 < length (history b))%nat) by lia.
    assert (Hn : 0 < inject_Z (Z.of_nat (length (history b)))).
    { change 0 with (inject_Z 0). rewrite <- Zlt_Qlt. lia. }
    assert (Ho : 0 < inject_Z (Z.of_nat (occurrences (history b) sep))).
    { change 0 with (inject_Z 0). rewrite <- Zlt_Qlt. lia. }
    assert (Hole : inject_Z (Z.of_nat (occurrences (history b) sep))
                   <= inject_Z (Z.of_nat (length (history b)))).
    { rewrite <- Zle_Qle. lia. }
    split; [|split].
    + unfold usage_percent. destruct (history b); [simpl in Hlen; lia | reflexivity].
    + apply Qmult_lt_0_compat; [|reflexivity]. by apply Qlt_shift_div_l; [|lra].
    + assert (inject_Z (Z.of_nat (occurrences (history b) sep))
              / inject_Z (Z.of_nat (length (history b))) <= 1); [|lra].
      apply Qle_shift_div_r; [assumption | lra].
  - set (share := λ s, inject_Z (Z.of_nat (occurrences (history b) s))
                       / inject_Z (Z.of_nat (length (history b))) * 100).
    assert (Hperm : map_to_list (getCurrentDistribution b)
                    ≡ₚ (λ s, (s, share s)) <$> remove_dups (history b)).
    { apply NoDup_Permutation.
      - apply NoDup_map_to_list.
      - apply NoDup_fmap_2; [intros s1 s2 [= ->]; reflexivity | apply NoDup_remove_dups].
      - intros [s p]. rewrite elem_of_map_to_list, distribution_lookup, list_elem_of_fmap.
        destruct (decide (occurrences (history b) s = 0%nat)) as [Hz|Hnz]; split.
        + done.
        + intros (s' & [= -> ->] & Hin). rewrite elem_of_remove_dups in Hin.
          apply (proj1 (occurrences_zero _ _)) in Hz. contradiction.
        + intros [= <-]. exists s. split; [reflexivity|]. rewrite elem_of_remove_dups.
          destruct (decide (s ∈ history b)) as [|Hnot]; [assumption|].
          apply (proj2 (occurrences_zero _ _)) in Hnot. contradiction.
        + intros (s' & [= -> ->] & _). reflexivity. }
    assert (Hkeys : fst <$> map_to_list (getCurrentDistribution b)
                    ≡ₚ remove_dups (history b)).
    { rewrite (fmap_Permutation fst _ _ Hperm), <- list_fmap_compose.
      change (fst ∘ (λ s, (s, share s))) with (@id string). by rewrite list_fmap_id. }
    rewrite (sum_list_with_perm _ _ _ Hkeys). apply occurrences_sum.
    + apply NoDup_remove_dups.
    + intros s Hs. by rewrite elem_of_remove_dups.
Qed.

(** *** Multipliers and adjusted scores *)

Lemma multiplier_range (b : SeparatorBalancer) (sep : string) (m : Q) :
  getDiversityMultipliers b !! sep = Some m → 1 # 2 <= m ∧ m <= 2.
Proof.
  unfold getDiversityMultipliers. cbv zeta. rewrite map_lookup_imap.
  destruct (targets b !! sep) as [target|]; [|discriminate]. simpl. intros [= <-].
  split; [apply Q.le_max_l|]. apply Q.max_lub; [lra | apply Q.le_min_l].
Qed.

Lemma or_default_multiplier (b : SeparatorBalancer) (sep : string) :
  1 # 2 <= or_default (getDiversityMultipliers b !! sep) 1
  ∧ or_default (getDiversityMultipliers b !! sep) 1 <= 2.
Proof.
  destruct (getDiversityMultipliers b !! sep) as [m|] eqn:Hm; simpl; [|lra].
  destruct (multiplier_range b sep m Hm). destruct (Qeq_bool m 0); lra.
Qed.

(** X10: [adjustScores] keeps the categories and their order and
    multiplies every score by a factor between 0.5 and 2, whatever the
    state of the balancer: a score is at most halved and at most doubled;
    the score of a category that has no target is left as it is. *)
Theorem adjustScores_bounds (b : SeparatorBalancer) (raw : list (string * Q)) :
  length (adjustScores b raw) = length raw
  ∧ ∀ i sep score, raw !! i = Some (sep, score) →
      ∃ factor, adjustScores b raw !! i = Some (sep, score * factor)
                ∧ 1 # 2 <= factor ∧ factor <= 2
                ∧ (targets b !! sep = None → factor = 1).
Proof.
  unfold adjustScores. cbv zeta. split; [apply length_map|].
  intros i sep score Hi. exists (or_default (getDiversityMultipliers b !! sep) 1).
  split; [|split; [apply or_default_multiplier|split; [apply or_default_multiplier|]]].
  - change (map ?f raw) with (f <$> raw). by rewrite list_lookup_fmap, Hi.
  - intros Hnone. unfold getDiversityMultipliers. cbv zeta.
    by rewrite map_lookup_imap, Hnone.
Qed.

(** *** The choice *)

Lemma sort_insert_first (x : string * Q) (sorted : list (string * Q)) :
  head (sort_insert by_score_desc x sorted)
  = Some match head sorted with
         | None => x
         | Some y => if by_score_desc x y then x else y
         end.
Proof. destruct sorted as [|y rest]; [reflexivity|]. simpl. by destruct (by_score_desc x y). Qed.

Lemma by_score_desc_lt (x y : string * Q) : by_score_desc x y = true ↔ snd y < snd x.
Proof.
  unfold by_score_desc. rewrite Qlt_alt. destruct (snd y ?= snd x); split; congruence.
Qed.

Lemma by_score_desc_ge (x y : string * Q) : by_score_desc x y = false ↔ snd x <= snd y.
Proof.
  rewrite <- not_true_iff_false, by_score_desc_lt. split; [apply Qnot_lt_le | apply Qle_not_lt].
Qed.

Lemma sort_filter_first (l : list (string * Q)) (threshold : Q) :
  match head (sort by_score_desc (filter (λ e, Qle_bool threshold (snd e) = true) l)) with
  | None => ∀ e, e ∈ l → snd e < threshold
  | Some (winner, score) => ∃ i, first_highest l threshold i winner score
  end.
Proof.
  induction l as [|x l IH] using rev_ind.
  - simpl. intros e He. by apply elem_of_nil in He.
  - rewrite filter_app. unfold sort in *. rewrite fold_left_app.
    set (sorted := fold_left (λ sorted x, sort_insert by_score_desc x sorted)
                     (filter (λ e, Qle_bool threshold (snd e) = true) l) []) in *.
    rewrite filter_cons, filter_nil.
    destruct (decide (Qle_bool threshold (snd x) = true)) as [Hx|Hx].
    + apply Qle_bool_iff in Hx. simpl fold_left. rewrite sort_insert_first.
      destruct (head sorted) as [[w s]|].
      * destruct IH as (i & Hi & Hs & Hmax).
        assert (Hlt : (i < length l)%nat) by (by eapply lookup_lt_Some).
        destruct (by_score_desc x (w, s)) eqn:Hb.
        -- apply by_score_desc_lt in Hb. simpl in Hb. destruct x as [wx sx]. simpl in *.
           exists (length l). split; [|split; [assumption|]].
           { rewrite lookup_app_r by lia. by rewrite Nat.sub_diag. }
           intros j e Hj He. apply lookup_snoc_Some in Hj as [[Hjl Hj]|[-> <-]].
           ++ destruct (Hmax j e Hj He) as [Hle _].
              split; [|intros _]; [apply Qlt_le_weak|]; eapply Qle_lt_trans; eassumption.
           ++ simpl. split; [apply Qle_refl | lia].
        -- apply by_score_desc_ge in Hb. simpl in Hb.
           exists i. split; [|split; [assumption|]].
           { by rewrite lookup_app_l. }
           intros j e Hj He. apply lookup_snoc_Some in Hj as [[Hjl Hj]|[-> <-]].
           ++ by apply Hmax.
           ++ split; [assumption | lia].
      * destruct x as [wx sx]. simpl in *. exists (length l). split; [|split; [assumption|]].
        { rewrite lookup_app_r by lia. by rewrite Nat.sub_diag. }
        intros j e Hj He. apply lookup_snoc_Some in Hj as [[Hjl Hj]|[-> <-]].
        -- exfalso. apply (Qlt_not_le _ _ (IH e (list_elem_of_lookup_2 _ _ _ Hj)) He).
        -- simpl. split; [apply Qle_refl | lia].
    + simpl fold_left. assert (Hlow : snd x < threshold).
      { apply Qnot_le_lt. intros Hle. apply Hx. by apply Qle_bool_iff. }
      destruct (head sorted) as [[w s]|].
      * destruct IH as (i & Hi & Hs & Hmax).
        assert (Hlt : (i < length l)%nat) by (by eapply lookup_lt_Some).
        exists i. split; [|split; [assumption|]].
        { by rewrite lookup_app_l. }
        intros j e Hj He. apply lookup_snoc_Some in Hj as [[Hjl Hj]|[-> <-]].
        -- by apply Hmax.
        -- exfalso. apply (Qlt_not_le _ _ Hlow He).
      * intros e He. apply elem_of_app in He as [He|He]; [by apply IH|].
        apply list_elem_of_singleton in He as ->. assumption.
Qed.

(** X11: the balancer's [chooseSeparator] returns null and leaves the
    history as it is exactly when no adjusted score reaches the threshold;
    otherwise it returns the category with the highest adjusted score, the
    first one in key order among equals, and records one usage of it. *)
Theorem chooseSeparator_first_highest (b : SeparatorBalancer) (rawScores : list (string * Q))
  (threshold : Q) :
  match Balancer.chooseSeparator b rawScores threshold with
  | (None, b') => b' = b ∧ ∀ e, e ∈ adjustScores b rawScores → snd e < threshold
  | (Some winner, b') =>
      b' = recordUsage b winner
      ∧ ∃ i score, first_highest (adjustScores b rawScores) threshold i winner score
  end.
Proof.
  unfold Balancer.chooseSeparator. cbv zeta.
  pose proof (sort_filter_first (adjustScores b rawScores) threshold) as Hfirst.
  destruct (sort by_score_desc
              (filter (λ e, Qle_bool threshold (snd e) = true) (adjustScores b rawScores)))
    as [|[winner score] rest]; simpl in Hfirst.
  - by split.
  - split; [reflexivity|]. destruct Hfirst as [i Hi]. by exists i, score.
Qed.

(** X12: [reset] empties the history; the distribution is then empty and
    no category is penalised: the multiplier of a category with target
    [t >= 0] is [min(2, 1 + t/100 * strength)], which is at least 1 for a
    non-negative strength. *)
Theorem reset_multipliers (b : SeparatorBalancer) (sep : string) (target : Q) :
  targets b !! sep = Some target → 0 <= target → 0 <= diversityStrength b →
  history (reset b) = []
  ∧ getCurrentDistribution (reset b) = ∅
  ∧ ∃ m, getDiversityMultipliers (reset b) !! sep = Some m
         ∧ m == Qmin 2 (1 + target / 100 * diversityStrength b)
         ∧ 1 <= m.
Proof.
  intros Ht Htarget Hstrength. split; [reflexivity|]. split; [reflexivity|].
  destruct (multiplier_lookup (reset b) sep target Ht) as (m & Hm & Heq).
  exists m. split; [exact Hm|]. cbn [history reset diversityStrength usage_percent] in Heq.
  assert (Hadj : 1 <= 1 + target / 100 * diversityStrength b).
  { assert (0 <= target / 100 * diversityStrength b); [|lra].
    apply Qmult_le_0_compat; [|assumption]. apply Qle_shift_div_l; lra. }
  assert (Hm2 : m == Qmin 2 (1 + target / 100 * diversityStrength b)).
  { rewrite Heq. unfold clamp.
    assert (Hsame : 1 - (0 - target) / 100 * diversityStrength b
                    == 1 + target / 100 * diversityStrength b) by field.
    rewrite Hsame. apply Q.max_r. apply Q.min_glb; lra. }
  split; [exact Hm2|]. rewrite Hm2. apply Q.min_glb; lra.
Qed.

Lemma reset_multipliers_witness :
  ∃ m, getDiversityMultipliers (reset (new defaultBalancerConfig)) !! "space" = Some m
       ∧ 1 <= m.
Proof.
  destruct (reset_multipliers (new defaultBalancerConfig) "space" 50)
    as (_ & _ & m & Hm & _ & Hge).
  - reflexivity.
  - simpl. lra.
  - simpl. lra.
  - exists m. by split.
Defined.

Local Close Scope Q_scope.

(** ** separators.js *)

(** *** Errors of the boundary analysis *)

Lemma first_char_none (s : string) : first_char s = None ↔ s = EmptyString.
Proof. unfold first_char. destruct s; simpl; split; congruence. Qed.

Lemma last_char_none (s : string) : last_char s = None ↔ s = EmptyString.
Proof.
  unfold last_char. split; [|by intros ->].
  destruct s as [|c s]; [reflexivity|]. intros Hget. exfalso.
  simpl String.length in Hget. rewrite Nat.sub_1_r in Hget. simpl Nat.pred in Hget.
  revert c Hget. induction s as [|c' s IH]; intros c Hget; [discriminate|].
  simpl in Hget. by apply (IH c').
Qed.

Lemma checkClusterDifficulty_throws (config : Config) (c1 c2 : option ascii) :
  rejects (checkClusterDifficulty config c1 c2) ↔ c1 = None ∧ c2 = None.
Proof.
  unfold rejects, checkClusterDifficulty. split.
  - intros [e He]. destruct c1, c2; try done;
      repeat match type of He with
             | (if ?c then _ else _) = _ => destruct c
             end; discriminate.
  - intros [-> ->]. by eexists.
Qed.

(** X13: [analyzeBoundary] throws exactly when one side has no syllable,
    or when both the syllable before the boundary and the one after it are
    the empty string; the error is the runtime's TypeError. *)
Theorem analyzeBoundary_throws (config : Config) (leftSyllables rightSyllables : list string)
  (allSyllables : option (list string)) :
  (rejects (analyzeBoundary config leftSyllables rightSyllables allSyllables)
   ↔ leftSyllables = [] ∨ rightSyllables = []
     ∨ (last leftSyllables = Some EmptyString ∧ head rightSyllables = Some EmptyString))
  ∧ ∀ e, analyzeBoundary config leftSyllables rightSyllables allSyllables = Throws e →
         e = TypeError.
Proof.
  unfold analyzeBoundary. cbv zeta.
  destruct (last leftSyllables) as [lastSyl|] eqn:Hlast.
  2: { apply last_None in Hlast. split; [|by intros e [= <-]].
       split; [by left | intros _; by eexists]. }
  destruct (head rightSyllables) as [firstSyl|] eqn:Hhead.
  2: { apply head_None in Hhead. split; [|by intros e [= <-]].
       split; [by right; left | intros _; by eexists]. }
  assert (Hl : leftSyllables ≠ []) by (intros ->; discriminate).
  assert (Hr : rightSyllables ≠ []) by (intros ->; discriminate).
  pose proof (checkClusterDifficulty_throws config (last_char lastSyl) (first_char firstSyl))
    as Hthrows.
  rewrite last_char_none, first_char_none in Hthrows.
  destruct (checkClusterDifficulty config (last_char lastSyl) (first_char firstSyl))
    as [d|e0] eqn:Hc.
  - split; [|discriminate]. split.
    + intros [e He]. discriminate.
    + intros [?|[?|[[= ->] [= ->]]]]; [done..|].
      destruct (proj2 Hthrows) as [e He]; [done | discriminate].
  - split.
    + split; [|intros _; by eexists]. intros _. right. right.
      destruct (proj1 Hthrows) as [-> ->]; [by eexists | done].
    + intros e [= <-]. unfold checkClusterDifficulty in Hc.
      destruct (last_char lastSyl), (first_char firstSyl); try (by injection Hc as <-);
        repeat match type of Hc with
               | (if ?c then _ else _) = _ => destruct c
               end; discriminate.
Qed.

(** *** Rule B *)

Lemma count_run_bounds (test : string → bool) (rest : list string) (count : Z) :
  count <= count_run test rest count <= count + Z.of_nat (length rest).
Proof.
  revert count. induction rest as [|syl rest IH]; intros count; simpl; [lia|].
  destruct (test syl); [|lia]. specialize (IH (count + 1)). lia.
Qed.

(** a match record that points nowhere, or at a real boundary *)
Lemma better_inv (n : Z) (candidate bestMatch : RuleMatch) :
  (1 <= position candidate < n ∧ is_Some (type candidate)) →
  ((position bestMatch = -1 ∧ type bestMatch = None)
   ∨ (1 <= position bestMatch < n ∧ is_Some (type bestMatch))) →
  (position (better candidate bestMatch) = -1 ∧ type (better candidate bestMatch) = None)
  ∨ (1 <= position (better candidate bestMatch) < n
     ∧ is_Some (type (better candidate bestMatch))).
Proof.
  intros Hc Hb. unfold better.
  destruct (decide (priority candidate > priority bestMatch)); [by right | assumption].
Qed.

Lemma fold_inv {A B} (P : B → Prop) (f : B → A → B) (l : list A) (b : B) :
  P b → (∀ b a, a ∈ l → P b → P (f b a)) → P (fold_left f l b).
Proof.
  revert b. induction l as [|a l IH]; intros b Hb Hstep; [assumption|].
  simpl. apply IH.
  - apply Hstep; [by left | assumption].
  - intros b' a' Ha'. apply Hstep. by right.
Qed.

(** X14: [getRuleBPosition] points nowhere (position -1, no type) or at a
    real boundary of the sequence: a position [p] with [1 <= p < length],
    together with a pattern type; for fewer than 2 syllables it points
    nowhere. *)
Theorem getRuleBPosition_boundary (syllables : list string) :
  let found := getRuleBPosition syllables in
  ((position found = -1 ∧ type found = None)
   ∨ (1 <= position found < Z.of_nat (length syllables) ∧ is_Some (type found)))
  ∧ ((length syllables < 2)%nat → position found = -1 ∧ type found = None).
Proof.
  cbv zeta. unfold getRuleBPosition.
  destruct (decide (length syllables < 2)%nat) as [Hshort|Hlong]; [by split; [left|]|].
  split; [|lia]. cbv zeta.
  set (n := length syllables).
  set (Inv := λ m : RuleMatch,
         (position m = -1 ∧ type m = None)
         ∨ (1 <= position m < Z.of_nat n ∧ is_Some (type m))).
  apply (fold_inv Inv); [apply (fold_inv Inv); [apply (fold_inv Inv)|]|].
  - by left.
  - intros m i _ Hm. cbv zeta.
    set (positions := filter (λ j, syllables !! j = syllables !! i) (seq 0 n)).
    destruct (decide (2 <= length positions)%nat); [|assumption].
    apply (fold_inv Inv); [assumption|]. intros m' p _ Hm'.
    destruct (positions !! p) as [pos1|] eqn:H1; [|assumption].
    destruct (positions !! (p + 1)%nat) as [pos2|] eqn:H2; [|assumption].
    destruct (decide (Z.of_nat pos2 - Z.of_nat pos1 > 1)); [|assumption].
    apply better_inv; [|assumption]. simpl. split; [|by eexists].
    apply list_elem_of_lookup_2 in H2. apply list_elem_of_filter in H2 as [_ H2].
    apply elem_of_seq in H2. lia.
  - intros m start Hstart Hm. apply elem_of_seq in Hstart. cbv zeta.
    match goal with
    | |- context [count_run ?t ?r 1] =>
        pose proof (count_run_bounds t r 1) as Hcount; set (count := count_run t r 1) in *
    end.
    rewrite length_drop in Hcount. fold n in Hcount.
    repeat match goal with
           | |- context [decide (count >= ?k)] => destruct (decide (count >= k))
           end;
      repeat (apply better_inv; [simpl; split; [lia | by eexists]|]); assumption.
  - intros m start Hstart Hm. apply elem_of_seq in Hstart. cbv zeta.
    match goal with
    | |- context [count_run ?t ?r 1] =>
        pose proof (count_run_bounds t r 1) as Hcount; set (count := count_run t r 1) in *
    end.
    rewrite length_drop in Hcount. fold n in Hcount.
    repeat match goal with
           | |- context [decide (count >= ?k)] => destruct (decide (count >= k))
           end;
      repeat (apply better_inv; [simpl; split; [lia | by eexists]|]); assumption.
Qed.

(** *** Placement *)




(** *** Choosing without the balancer *)

Local Open Scope Q_scope.

(** X16: [chooseSeparator] of separators.js.  Without balancing it leaves
    the global balancer alone and returns the separator string of the
    category with the highest raw score, the first in key order among
    equals, or the empty string when no raw score reaches the threshold.
    With balancing the global balancer exists afterwards, whether or not a
    separator was chosen, and the result is the empty string or one of the
    six separator strings. *)
Theorem chooseSeparator_modes (config : Config) (g : Global) (scores : Scores)
  (threshold : Q) :
  (∃ sep, chooseSeparator config g scores threshold false = (sep, g)
          ∧ ((sep = EmptyString ∧ ∀ e, e ∈ entries scores → snd e < threshold)
             ∨ ∃ i winner score,
                 first_highest (entries scores) threshold i winner score
                 ∧ separatorMap winner = Some sep ∧ sep ∈ six_separators))
  ∧ (∃ sep b, chooseSeparator config g scores threshold true = (sep, Some b)
              ∧ (sep = EmptyString ∨ sep ∈ six_separators)).
Proof.
  split.
  - unfold chooseSeparator.
    pose proof (sort_filter_first (entries scores) threshold) as Hfirst.
    destruct (sort by_score_desc
                (filter (λ e, Qle_bool threshold (snd e) = true) (entries scores)))
      as [|[winner score] rest]; simpl in Hfirst |- *.
    + eexists. split; [reflexivity|]. by left.
    + destruct Hfirst as [i Hi].
      destruct (separatorMap_entries scores winner) as (sep & Hmap & Hsix).
      { destruct Hi as [Hi _]. apply list_elem_of_lookup_2 in Hi.
        apply list_elem_of_fmap. by exists (winner, score). }
      rewrite Hmap. simpl. eexists. split; [reflexivity|]. right. by exists i, winner, score.
  - unfold chooseSeparator.
    destruct (balancer_choice (getBalancer config g) scores threshold)
      as [(winner & sep & Hrun & Hmap & Hsix & _)|[Hrun _]]; rewrite Hrun.
    + rewrite Hmap. simpl. eexists _, _. split; [reflexivity|]. by right.
    + eexists _, _. split; [reflexivity|]. by left.
Qed.

Local Close Scope Q_scope.

(** X17: the cases in which [addSmartSeparators] only concatenates, without
    consulting or changing the balancer: separators disabled in the
    configuration, fewer than 2 syllables, or a limit of no separators. *)
Theorem addSmartSeparators_plain (config : Config) (g : Global) (syllables : list string)
  (options : Options) :
  separators_enabled (separators config) = false
  ∨ (length syllables < 2)%nat
  ∨ default (maxSeparators (separators config)) (opt_maxSeparators options) <= 0 →
  addSmartSeparators config g syllables options = Returns (join syllables, g).
Proof.
  unfold addSmartSeparators. cbv zeta. intros [Hoff|[Hshort|Hnone]].
  - by rewrite Hoff.
  - destruct (separators_enabled (separators config)); [|reflexivity]. simpl.
    destruct (decide (length syllables < 2)%nat); [reflexivity | contradiction].
  - destruct (separators_enabled (separators config)); [|reflexivity]. simpl.
    destruct (decide (length syllables < 2)%nat); [reflexivity|].
    replace (Z.to_nat (default (maxSeparators (separators config))
                               (opt_maxSeparators options))) with 0%nat by lia.
    reflexivity.
Qed.

Lemma addSmartSeparators_plain_witness :
  addSmartSeparators documentedConfig None ["brak"] Separators.noOptions
  = Returns ("brak", None).
Proof.
  apply (addSmartSeparators_plain documentedConfig None ["brak"] Separators.noOptions).
  right. left. simpl. lia.
Defined.

(** ** decoder.js *)

(** *** The reverse lookup *)

Lemma createReverseLookup_snoc (inventory : list string) (syllable : string) :
  createReverseLookup (inventory ++ [syllable])
  = <[toLowerCase syllable := length inventory]> (createReverseLookup inventory).
Proof.
  unfold createReverseLookup. rewrite imap_app, fold_left_app. simpl.
  by rewrite Nat.add_0_r.
Qed.

Lemma createReverseLookup_spec (inventory : list string) (k : string) :
  (createReverseLookup inventory !! k = None ↔ k ∉ toLowerCase <$> inventory)
  ∧ ∀ i, createReverseLookup inventory !! k = Some i
         ↔ last_index (toLowerCase <$> inventory) k i.
Proof.
  unfold last_index. induction inventory as [|x l [IHnone IHsome]] using rev_ind.
  - split.
    + split; [intros _ Hin; by apply elem_of_nil in Hin | reflexivity].
    + intros i. split; [discriminate | by intros [H _]].
  - rewrite createReverseLookup_snoc, fmap_app. simpl.
    destruct (decide (toLowerCase x = k)) as [->|Hne].
    + rewrite lookup_insert_eq. split.
      * split; [discriminate|]. intros Hnot. exfalso. apply Hnot.
        apply elem_of_app. right. by left.
      * intros i. split.
        -- intros [= <-]. split.
           ++ rewrite lookup_app_r by (by rewrite length_fmap).
              by rewrite length_fmap, Nat.sub_diag.
           ++ intros j Hj Hsome. apply lookup_lt_Some in Hsome.
              rewrite length_app, length_fmap in Hsome. simpl in Hsome. lia.
        -- intros [Hi Hlast]. f_equal.
           destruct (decide (i = length l)) as [->|Hi']; [reflexivity|]. exfalso.
           pose proof (lookup_lt_Some _ _ _ Hi) as Hlt.
           rewrite length_app, length_fmap in Hlt. simpl in Hlt.
           apply (Hlast (length l)); [lia|].
           rewrite lookup_app_r by (by rewrite length_fmap).
           by rewrite length_fmap, Nat.sub_diag.
    + rewrite lookup_insert_ne by assumption. split.
      * rewrite IHnone. rewrite elem_of_app, list_elem_of_singleton. split.
        -- intros Hnot [Hin|Heq]; [contradiction | by subst].
        -- intros Hnot Hin. apply Hnot. by left.
      * intros i. rewrite IHsome. split.
        -- intros [Hi Hlast]. pose proof (lookup_lt_Some _ _ _ Hi) as Hlt. split.
           ++ by rewrite lookup_app_l.
           ++ intros j Hj Hsome. apply lookup_snoc_Some in Hsome as [[_ Hsome]|[_ Heq]].
              ** by apply (Hlast j).
              ** contradiction.
        -- intros [Hi Hlast]. apply lookup_snoc_Some in Hi as [[Hlt Hi]|[_ Heq]];
             [|contradiction].
           split; [assumption|]. intros j Hj Hsome. apply (Hlast j Hj).
           rewrite lookup_app_l; [assumption | by eapply lookup_lt_Some].
Qed.

(** X18: [createReverseLookup] maps a key to an index exactly when the key
    is the lower-cased form of an inventory syllable, and the index is the
    last place where that syllable stands: of two syllables with the same
    lower-cased form, the later one takes the key. *)
Theorem createReverseLookup_last (inventory : list string) (k : string) :
  (createReverseLookup inventory !! k = None ↔ k ∉ toLowerCase <$> inventory)
  ∧ ∀ i, createReverseLookup inventory !! k = Some i
         ↔ last_index (toLowerCase <$> inventory) k i.
Proof. apply createReverseLookup_spec. Qed.

(** *** What the parser returns *)

Lemma lowercase_word_app (a b : string) :
  lowercase_word (a +:+ b) = lowercase_word a && lowercase_word b.
Proof.
  induction a as [|c a IH]; [by rewrite append_nil|].
  rewrite append_cons. simpl. rewrite IH. by rewrite andb_assoc.
Qed.

Lemma greedy_parts (inventory : list string) r syls final :
  greedy inventory r syls final →
  r = join syls +:+ final ∧ Forall (λ s, s ∈ inventory ∧ tried_length s) syls.
Proof.
  induction 1 as [r|r syl rest syls final (Hin & Hlen & _) -> _ [-> IH]].
  - by rewrite join_nil, append_nil.
  - split; [by rewrite join_cons, append_assoc|]. by constructor.
Qed.

Lemma join_lowercase (syls : list string) :
  lowercase_word (join syls) = true → Forall (λ s, lowercase_word s = true) syls.
Proof.
  induction syls as [|s syls IH]; [constructor|].
  rewrite join_cons, lowercase_word_app. intros [Hs Hrest]%andb_true_iff.
  constructor; [assumption | by apply IH].
Qed.

Lemma parse_returns (inventory : list string) (version : string) (syls : list string) :
  parseVersionToSyllables inventory version = Returns syls →
  syls ≠ [] ∧ join syls = clean version
  ∧ Forall (λ s, s ∈ inventory ∧ tried_length s ∧ lowercase_word s = true) syls.
Proof.
  intros Hparse. destruct (parse_spec inventory version) as (Hlow & _ & Hret).
  apply Hret in Hparse as [Hne Hg]. apply greedy_parts in Hg as [Heq Hall].
  rewrite append_empty_r in Heq. split; [|split; [by symmetry|]].
  - intros ->. by rewrite join_nil in Heq.
  - rewrite Heq in Hlow. apply join_lowercase in Hlow.
    apply Forall_forall. intros s Hs. rewrite Forall_forall in Hall, Hlow.
    destruct (Hall s Hs). split; [|split]; auto.
Qed.

(** X19: when the parser returns, the returned sequence is not empty, every
    syllable in it is an inventory entry of 2 to 4 lowercase letters, and
    the syllables concatenated give exactly the letters of the input, in
    lower case: no letter is dropped or invented. *)
Theorem parser_returns_segmentation (inventory : list string) (version : string)
  (syls : list string) :
  parseVersionToSyllables inventory version = Returns syls →
  syls ≠ [] ∧ join syls = clean version
  ∧ Forall (λ s, s ∈ inventory ∧ tried_length s ∧ lowercase_word s = true) syls.
Proof. apply parse_returns. Qed.

Lemma parser_returns_segmentation_witness :
  join ["tik"; "tok"] = clean "Tik-Tok".
Proof.
  destruct (parser_returns_segmentation exampleInventory "Tik-Tok" ["tik"; "tok"])
    as (_ & Hjoin & _).
  - vm_compute. reflexivity.
  - exact Hjoin.
Defined.

Lemma clean_idempotent (version : string) : clean (clean version) = clean version.
Proof. apply clean_lowercase_word, clean_is_lowercase. Qed.

Lemma parse_same_letters (inventory : list string) (v1 v2 : string) :
  clean v1 = clean v2 → clean v1 ≠ EmptyString →
  parseVersionToSyllables inventory v1 = parseVersionToSyllables inventory v2.
Proof.
  intros Heq Hne. rewrite !parse_as_loop by congruence. by rewrite Heq.
Qed.

(** X20: separators and letter case never matter to the decoder: two
    version strings with the same letters (after lower-casing, at least one
    letter) are parsed to the same syllables and decoded to the same number
    or the same error; in particular a version and its bare letters. *)
Theorem decoder_ignores_decoration (config : Config) (inventory : list string)
  (v1 v2 : string) :
  clean v1 = clean v2 → clean v1 ≠ EmptyString →
  parseVersionToSyllables inventory v1 = parseVersionToSyllables inventory v2
  ∧ decodeVersion config inventory v1 = decodeVersion config inventory v2
  ∧ parseVersionToSyllables inventory (clean v1) = parseVersionToSyllables inventory v1.
Proof.
  intros Heq Hne. pose proof (parse_same_letters inventory v1 v2 Heq Hne) as Hparse.
  split; [exact Hparse|]. split.
  - unfold decodeVersion. by rewrite Hparse.
  - apply parse_same_letters; rewrite clean_idempotent; [reflexivity | assumption].
Qed.

Lemma decoder_ignores_decoration_witness :
  parseVersionToSyllables exampleInventory "Tik-Tok"
  = parseVersionToSyllables exampleInventory "tik:tok".
Proof.
  apply (decoder_ignores_decoration documentedConfig exampleInventory "Tik-Tok" "tik:tok").
  - vm_compute. reflexivity.
  - vm_compute. discriminate.
Defined.

(** *** The lookup never fails *)

Lemma lookup_all_returns (lookup : gmap string nat) (syllables : list string)
  (indices : list Z) :
  Forall (λ s, is_Some (lookup !! s)) syllables →
  ∃ found, lookup_all lookup syllables indices = Returns (indices ++ found)
           ∧ Forall2 (λ s index, ∃ i, lookup !! s = Some i ∧ index = Z.of_nat i)
                     syllables found.
Proof.
  revert indices. induction syllables as [|s syllables IH]; intros indices Hall.
  - exists []. by rewrite app_nil_r.
  - apply Forall_cons in Hall as [[i Hi] Hall]. simpl. rewrite Hi.
    destruct (IH (indices ++ [Z.of_nat i]) Hall) as (found & Hrun & Hfound).
    exists (Z.of_nat i :: found). rewrite Hrun, <- app_assoc. split; [reflexivity|].
    constructor; [by exists i | assumption].
Qed.

Lemma toLowerCase_lowercase (s : string) : lowercase_word s = true → toLowerCase s = s.
Proof.
  induction s as [|c s IH]; [reflexivity|]. simpl. intros [Hc Hs]%andb_true_iff.
  unfold toLowerCase in *. simpl. by rewrite lower_char_letter, IH.
Qed.

Lemma parsed_known (inventory : list string) (s : string) :
  s ∈ inventory → lowercase_word s = true → is_Some (createReverseLookup inventory !! s).
Proof.
  intros Hin Hlow. apply not_eq_None_Some.
  rewrite (proj1 (createReverseLookup_spec inventory s)). intros Hnot. apply Hnot.
  apply list_elem_of_fmap. exists s. split; [|assumption]. symmetry.
  by apply toLowerCase_lowercase.
Qed.

Lemma fromBase128_nonneg (digits : list Z) :
  Forall (λ d, 0 <= d) digits → 0 <= fromBase128 digits.
Proof.
  induction digits as [|d digits IH] using rev_ind; [intros _; unfold fromBase128; simpl; lia|].
  intros [Hd Hx]%Forall_app. rewrite Forall_singleton in Hx.
  rewrite fromBase128_snoc. specialize (IH Hd). lia.
Qed.

Lemma decodeVersion_of_parsed (config : Config) (inventory : list string)
  (version : string) (syls : list string) :
  parseVersionToSyllables inventory version = Returns syls →
  ∃ n, decodeVersion config inventory version = Returns n ∧ 0 <= n.
Proof.
  intros Hparse. unfold decodeVersion. rewrite Hparse. cbv zeta.
  destruct (parse_returns _ _ _ Hparse) as (_ & _ & Hall).
  destruct (lookup_all_returns (createReverseLookup inventory) syls []) as (found & -> & Hfound).
  { eapply Forall_impl; [exact Hall|]. intros s (Hin & _ & Hlow). by apply parsed_known. }
  simpl. eexists. split; [reflexivity|].
  assert (Hpos : Forall (λ d, 0 <= d) found).
  { clear -Hfound. induction Hfound as [|s d syls found (i & _ & ->) _ IH]; constructor;
      [lia | assumption]. }
  unfold decodeSyllableIndices. apply fromBase128_nonneg.
  destruct (digitInterleaving (encoding config)); [|assumption].
  by rewrite deinterleave_perm.
Qed.

Lemma parse_throws_kind (inventory : list string) (version : string) (e : error) :
  parseVersionToSyllables inventory version = Throws e →
  e = EmptyVersion ∨ e = NoValidSyllables ∨ ∃ stuck, e = UnrecognizedSyllable stuck.
Proof.
  unfold parseVersionToSyllables.
  destruct (decide (String.length version = 0%nat)); [intros [= <-]; by left|]. cbv zeta.
  destruct (decide (String.length (clean version) = 0%nat)); [intros [= <-]; by right; left|].
  intros Hloop. pose proof (parse_loop_result inventory [] (clean version)) as Hres.
  rewrite Hloop in Hres. inversion Hres; subst. right. right. by eexists.
Qed.

(** X21: the lookup in [decodeVersion] never fails: whenever the parser
    returns syllables, [decodeVersion] returns a number, and that number is
    not negative; the only errors of [decodeVersion] are the parser's, so
    it never throws "Unknown syllable". *)
Theorem decodeVersion_lookup_total (config : Config) (inventory : list string)
  (version : string) :
  (∀ syls, parseVersionToSyllables inventory version = Returns syls →
           ∃ n, decodeVersion config inventory version = Returns n ∧ 0 <= n)
  ∧ (∀ e, decodeVersion config inventory version = Throws e
          ↔ parseVersionToSyllables inventory version = Throws e)
  ∧ ∀ syllable, decodeVersion config inventory version ≠ Throws (UnknownSyllable syllable).
Proof.
  assert (Hthrows : ∀ e, decodeVersion config inventory version = Throws e
                         ↔ parseVersionToSyllables inventory version = Throws e).
  { intros e. destruct (parseVersionToSyllables inventory version) as [syls|e'] eqn:Hparse.
    - destruct (decodeVersion_of_parsed config _ _ _ Hparse) as (n & -> & _).
      split; discriminate.
    - unfold decodeVersion. rewrite Hparse. simpl. split; intros [= ->]; reflexivity. }
  split; [apply decodeVersion_of_parsed|]. split; [exact Hthrows|].
  intros syllable Hdec. apply Hthrows in Hdec.
  apply parse_throws_kind in Hdec as [?|[?|[stuck ?]]]; discriminate.
Qed.

(** X22: [isValidVersion] holds exactly of the strings the parser can
    segment completely: at least one letter, and the letters are a chain of
    greedy longest matches from the inventory. *)
Theorem isValidVersion_segmentable (config : Config) (inventory : list string)
  (version : string) :
  Generator.isValidVersion config inventory version = true
  ↔ clean version ≠ EmptyString
    ∧ ∃ syls, greedy inventory (clean version) syls EmptyString.
Proof.
  unfold Generator.isValidVersion. split.
  - destruct (decodeVersion config inventory version) as [n|e] eqn:Hdec; [|discriminate].
    intros _.
    destruct (parseVersionToSyllables inventory version) as [syls|e] eqn:Hparse.
    + apply (parse_spec inventory version) in Hparse as [Hne Hg].
      split; [assumption | by exists syls].
    + unfold decodeVersion in Hdec. by rewrite Hparse in Hdec.
  - intros [Hne [syls Hg]].
    assert (Hparse : parseVersionToSyllables inventory version = Returns syls)
      by (by apply (parse_spec inventory version)).
    by destruct (decodeVersion_of_parsed config _ _ _ Hparse) as (n & -> & _).
Qed.

(** *** Generating and decoding *)

Lemma clean_concat_hyphen (syllables : list string) :
  Forall (λ s, lowercase_word s = true) syllables →
  clean (String.concat "-" syllables) = join syllables.
Proof.
  induction 1 as [|s syllables Hs Hrest IH]; [reflexivity|].
  rewrite join_cons. destruct syllables as [|t syllables].
  - simpl. rewrite join_nil, append_empty_r. by apply clean_lowercase_word.
  - change (String.concat "-" (s :: t :: syllables))
      with (s +:+ "-" +:+ String.concat "-" (t :: syllables)).
    rewrite !clean_app, IH, (clean_lowercase_word s Hs). reflexivity.
Qed.

Lemma letters_parse (inventory syllables : list string) (version : string) :
  Forall (λ s, tried_length s) inventory → prefix_unambiguous inventory →
  Forall (λ s, s ∈ inventory) syllables →
  syllables ≠ [] → clean version = join syllables →
  parseVersionToSyllables inventory version = Returns syllables.
Proof.
  intros Htried Hun Hin Hsome Hclean. apply (parse_spec inventory). rewrite Hclean. split.
  - apply join_nonempty; [assumption|].
    eapply Forall_impl; [exact Hin|]. intros s Hs. by eapply inventory_nonempty.
  - by apply greedy_join.
Qed.

Lemma smart_clean (config : Config) (g : Global) (syllables : list string)
  (options : Options) :
  Forall (λ s, nonempty s = true) syllables →
  Forall (λ s, lowercase_word s = true) syllables →
  ∃ version g',
    addSmartSeparators config g syllables options = Returns (version, g')
    ∧ clean version = join syllables.
Proof.
  intros Hne Hlows.
  destruct (addSmartSeparators_placed config g syllables options Hne)
    as (placed & g' & Hrun & _ & _ & Hok).
  eexists _, g'. split; [exact Hrun|].
  destruct placed as [|p0 placed0] eqn:Hp; [by apply clean_join|]. rewrite <- Hp.
  apply build_clean; [assumption|]. apply Forall_lookup. intros k p Hk.
  rewrite <- Hp in Hok.
  destruct (Hok k p Hk) as (_ & _ & Hsix & _). by apply six_decoration.
Qed.

Lemma fmap_lowercase (inventory : list string) :
  Forall (λ s, lowercase_word s = true) inventory → toLowerCase <$> inventory = inventory.
Proof.
  induction 1 as [|s l Hs _ IH]; [reflexivity|].
  by rewrite fmap_cons, (toLowerCase_lowercase s Hs), IH.
Qed.

Lemma lookup_own_index (inventory : list string) (i : nat) :
  Forall (λ s, lowercase_word s = true) inventory → NoDup inventory →
  (i < length inventory)%nat →
  createReverseLookup inventory !! (inventory !!! i) = Some i.
Proof.
  intros Hlow Hnodup Hi. apply (createReverseLookup_spec inventory). unfold last_index.
  rewrite (fmap_lowercase inventory Hlow).
  pose proof (list_lookup_lookup_total_lt inventory i Hi) as Hat. split; [assumption|].
  intros j Hj Hsame. pose proof (NoDup_lookup _ _ _ _ Hnodup Hat Hsame). lia.
Qed.

Lemma lookup_all_indices (inventory : list string) (indices acc : list Z) :
  Forall (λ s, lowercase_word s = true) inventory → NoDup inventory →
  Forall (λ d, 0 <= d < Z.of_nat (length inventory)) indices →
  lookup_all (createReverseLookup inventory)
             (map (λ index, inventory !!! Z.to_nat index) indices) acc
  = Returns (acc ++ indices).
Proof.
  intros Hlow Hnodup. revert acc.
  induction indices as [|d indices IH]; intros acc Hrange; [by rewrite app_nil_r|].
  apply Forall_cons in Hrange as [Hd Hrange]. simpl.
  rewrite lookup_own_index by (assumption || lia).
  rewrite IH by assumption. rewrite Z2Nat.id by lia. by rewrite <- app_assoc.
Qed.

Lemma encode_range (x m : Z) :
  0 <= x →
  Forall (λ d, 0 <= d < 128) (encodeToSyllableIndices x m)
  ∧ encodeToSyllableIndices x m ≠ [].
Proof.
  intros Hx. unfold encodeToSyllableIndices. cbv zeta.
  destruct (pad_loop_shape (toBase128 x) m) as (k & -> & _).
  destruct (toBase128_is_canonical x Hx) as [Hrange Hlead]. split.
  - apply Forall_app. split; [apply Forall_replicate; lia | assumption].
  - intros Hnil. apply app_eq_nil in Hnil as [_ Hnil].
    destruct Hlead as [H0|(d & rest & Heq & _)]; congruence.
Qed.

Lemma syllables_of_inventory (config : Config) (inventory : list string) (x m : Z) :
  (128 <= length inventory)%nat → 0 <= x →
  Forall (λ s, s ∈ inventory) (syllables_of config inventory x m)
  ∧ syllables_of config inventory x m ≠ [].
Proof.
  intros Hlen Hx. unfold syllables_of. cbv zeta.
  destruct (encode_range x m Hx) as [Hrange Hsome].
  set (indices := encodeToSyllableIndices x m) in *.
  set (mixed := if digitInterleaving (encoding config)
                then interleaveDigits indices else indices).
  assert (Hmixed : Forall (λ d, 0 <= d < 128) mixed ∧ mixed ≠ []).
  { unfold mixed. destruct (digitInterleaving (encoding config)); [|by split].
    pose proof (interleaveDigits_perm indices) as Hperm. split; [by rewrite Hperm|].
    intros Hnil. apply Permutation_length in Hperm. rewrite Hnil in Hperm.
    destruct indices; [contradiction | discriminate]. }
  destruct Hmixed as [Hmrange Hmsome]. split.
  - apply Forall_forall. intros s Hs.
    apply list_elem_of_fmap in Hs as (d & -> & Hd). rewrite Forall_forall in Hmrange.
    specialize (Hmrange d Hd). apply list_elem_of_lookup_total_2. lia.
  - destruct mixed; [contradiction | discriminate].
Qed.

(** what the decoder makes of any string that holds exactly the letters of
    the syllables of [x] *)
Lemma decode_letters (config : Config) (inventory : list string) (x m : Z)
  (version : string) :
  Forall (λ s, lowercase_word s = true) inventory →
  Forall (λ s, tried_length s) inventory → prefix_unambiguous inventory →
  NoDup inventory → (128 <= length inventory)%nat →
  0 <= x →
  clean version = join (syllables_of config inventory x m) →
  parseVersionToSyllables inventory version = Returns (syllables_of config inventory x m)
  ∧ decodeVersion config inventory version = Returns x.
Proof.
  intros Hlow Htried Hun Hnodup Hlen Hx Hclean.
  destruct (syllables_of_inventory config inventory x m Hlen Hx) as [Hin Hsyl].
  pose proof (letters_parse inventory _ version Htried Hun Hin Hsyl Hclean) as Hparse.
  split; [exact Hparse|]. unfold decodeVersion. rewrite Hparse. cbv zeta.
  unfold syllables_of. cbv zeta.
  destruct (encode_range x m Hx) as [Hrange _].
  set (indices := encodeToSyllableIndices x m) in *.
  assert (Hdec : decodeSyllableIndices indices = x).
  { unfold decodeSyllableIndices, indices, encodeToSyllableIndices. cbv zeta.
    rewrite pad_loop_value. by apply fromBase128_toBase128. }
  rewrite lookup_all_indices; [|assumption..|].
  - simpl. f_equal. destruct (digitInterleaving (encoding config)); [|exact Hdec].
    by rewrite deinterleave_interleave.
  - assert (Hmixed : Forall (λ d, 0 <= d < 128)
                       (if digitInterleaving (encoding config)
                        then interleaveDigits indices else indices)).
    { destruct (digitInterleaving (encoding config)); [|assumption].
      by rewrite interleaveDigits_perm. }
    eapply Forall_impl; [exact Hmixed|]. intros d Hd. simpl in Hd. lia.
Qed.

(** the letters of the version [generateVersion] returns *)
Lemma generate_letters (estimate : Z → Z) (config : Config) (inventory : list string)
  (now : Z) (g : Global) (timestamp : option Z) (options : Generator.Options) (interval : Z) :
  Forall (λ s, lowercase_word s = true) inventory →
  Forall (λ s, nonempty s = true) inventory → (128 <= length inventory)%nat →
  Generator.buildInterval options = Some interval → 0 < interval →
  0 <= default now timestamp →
  ∃ version g',
    Generator.generateVersion estimate config inventory now g timestamp options
    = Returns (version, g')
    ∧ clean version
      = join (syllables_of config inventory (default now timestamp / interval)
                (default 0 (Generator.minSyllables options))).
Proof.
  intros Hlow Hne Hlen Hgiven Hpos Hts.
  assert (Hx : 0 <= default now timestamp / interval) by (apply Z.div_pos; lia).
  unfold Generator.generateVersion. cbv zeta. rewrite Hgiven.
  destruct (decide (interval = 0)); [lia|].
  set (x := default now timestamp / interval) in *.
  set (m := default 0 (Generator.minSyllables options)).
  destruct (syllables_of_inventory config inventory x m Hlen Hx) as [Hin _].
  unfold syllables_of in *. cbv zeta in *.
  set (syllables := map (λ index, inventory !!! Z.to_nat index) _) in *.
  assert (Hlows : Forall (λ s, lowercase_word s = true) syllables).
  { eapply Forall_impl; [exact Hin|]. intros s Hs. rewrite Forall_forall in Hlow. auto. }
  assert (Hnes : Forall (λ s, nonempty s = true) syllables).
  { eapply Forall_impl; [exact Hin|]. intros s Hs. rewrite Forall_forall in Hne. auto. }
  destruct (default (separators_enabled (separators config))
              (Generator.smartSeparators options)).
  - destruct (smart_clean config g syllables Separators.noOptions Hnes Hlows)
      as (version & g' & Hrun & Hclean).
    by exists version, g'.
  - destruct (default false (Generator.hyphenated options)).
    + eexists _, g. split; [reflexivity|]. by apply clean_concat_hyphen.
    + eexists _, g. split; [reflexivity|]. by apply clean_join.
Qed.

Lemma tried_nonempty (inventory : list string) :
  Forall (λ s, tried_length s) inventory → Forall (λ s, nonempty s = true) inventory.
Proof. intros Hlen. apply Forall_forall. intros s Hs. by eapply inventory_nonempty. Qed.

Lemma generate_decode (estimate : Z → Z) (config : Config) (inventory : list string)
  (now : Z) (g : Global) (timestamp : option Z) (options : Generator.Options) (interval : Z) :
  Forall (λ s, lowercase_word s = true) inventory →
  Forall (λ s, tried_length s) inventory → prefix_unambiguous inventory →
  NoDup inventory → (128 <= length inventory)%nat →
  Generator.buildInterval options = Some interval → 0 < interval →
  0 <= default now timestamp →
  ∃ version g',
    Generator.generateVersion estimate config inventory now g timestamp options
    = Returns (version, g')
    ∧ clean version ≠ EmptyString
    ∧ decodeVersion config inventory version = Returns (default now timestamp / interval).
Proof.
  intros Hlow Htried Hun Hnodup Hlen Hgiven Hpos Hts.
  assert (Hx : 0 <= default now timestamp / interval) by (apply Z.div_pos; lia).
  destruct (generate_letters estimate config inventory now g timestamp options interval
              Hlow (tried_nonempty _ Htried) Hlen Hgiven Hpos Hts)
    as (version & g' & Hrun & Hclean).
  exists version, g'. split; [exact Hrun|].
  destruct (decode_letters config inventory _ _ version Hlow Htried Hun Hnodup Hlen Hx Hclean)
    as [Hparse Hdec].
  split; [|exact Hdec]. apply (parse_spec inventory version) in Hparse. tauto.
Qed.

Lemma gridInventory_lowercase : Forall (λ s, lowercase_word s = true) gridInventory.
Proof.
  apply Forall_forall. intros s Hs.
  apply forallb_forall with (l := gridInventory) (f := lowercase_word) (x := s);
    [vm_compute; reflexivity | by apply list_elem_of_In].
Qed.

Lemma gridInventory_tried : Forall (λ s, tried_length s) gridInventory.
Proof. apply unambiguous_check_sound. vm_compute. reflexivity. Qed.

Lemma gridInventory_unambiguous : prefix_unambiguous gridInventory.
Proof. apply unambiguous_check_sound. vm_compute. reflexivity. Qed.

Lemma gridInventory_nodup : NoDup gridInventory.
Proof. apply (bool_decide_unpack (NoDup gridInventory)). vm_compute. exact I. Qed.

Lemma gridInventory_length : (128 <= length gridInventory)%nat.
Proof. vm_compute. lia. Qed.

(** X23: generating and decoding are inverse.  With an inventory of at
    least 128 distinct syllables, each of 2 to 4 lowercase letters, that is
    prefix-unambiguous, a
    given build interval [i > 0] and a timestamp [ts >= 0], [generateVersion]
    returns a version in every separator mode (smart separators in any
    state of the balancer, hyphens, or none) and for every minimum length,
    and [decodeVersion] of that version is [floor(ts / i)]. *)
Theorem generate_decode_roundtrip (estimate : Z → Z) (config : Config)
  (inventory : list string) (now : Z) (g : Global) (timestamp : option Z)
  (options : Generator.Options) (interval : Z) :
  Forall (λ s, lowercase_word s = true) inventory →
  Forall (λ s, tried_length s) inventory → prefix_unambiguous inventory →
  NoDup inventory → (128 <= length inventory)%nat →
  Generator.buildInterval options = Some interval → 0 < interval →
  0 <= default now timestamp →
  ∃ version g',
    Generator.generateVersion estimate config inventory now g timestamp options
    = Returns (version, g')
    ∧ decodeVersion config inventory version = Returns (default now timestamp / interval).
Proof.
  intros Hlow Htried Hun Hnodup Hlen Hgiven Hpos Hts.
  destruct (generate_decode estimate config inventory now g timestamp options interval
              Hlow Htried Hun Hnodup Hlen Hgiven Hpos Hts) as (version & g' & Hrun & _ & Hdec).
  by exists version, g'.
Qed.

Lemma generate_decode_roundtrip_witness :
  ∃ version g',
    Generator.generateVersion digitCount documentedConfig gridInventory 0 None
      (Some 129) intervalOnly = Returns (version, g')
    ∧ decodeVersion documentedConfig gridInventory version = Returns 129.
Proof.
  apply (generate_decode_roundtrip digitCount documentedConfig gridInventory 0 None
           (Some 129) intervalOnly 1).
  - exact gridInventory_lowercase.
  - exact gridInventory_tried.
  - exact gridInventory_unambiguous.
  - exact gridInventory_nodup.
  - exact gridInventory_length.
  - reflexivity.
  - lia.
  - simpl. lia.
Defined.

(** X24: with an inventory of at least 128 distinct syllables, each of 2 to
    4 lowercase letters, that is prefix-unambiguous, an interval [i > 0] and
    a timestamp [ts >= 0], [decodeToTimestamp] with the interval the version
    was generated with gives the start of the build interval the timestamp
    lies in: [ts - ts mod i], at most [ts] and less than one interval
    before it. *)
Theorem decodeToTimestamp_interval_start (estimate : Z → Z) (config : Config)
  (inventory : list string) (now : Z) (g : Global) (timestamp : option Z)
  (options : Generator.Options) (interval : Z) :
  Forall (λ s, lowercase_word s = true) inventory →
  Forall (λ s, tried_length s) inventory → prefix_unambiguous inventory →
  NoDup inventory → (128 <= length inventory)%nat →
  Generator.buildInterval options = Some interval → 0 < interval →
  0 <= default now timestamp →
  let ts := default now timestamp in
  ∃ version g',
    Generator.generateVersion estimate config inventory now g timestamp options
    = Returns (version, g')
    ∧ decodeToTimestamp config inventory version (Some interval)
      = Returns (ts - ts mod interval)
    ∧ ts - interval < ts - ts mod interval <= ts.
Proof.
  intros Hlow Htried Hun Hnodup Hlen Hgiven Hpos Hts ts.
  destruct (generate_decode estimate config inventory now g timestamp options interval
              Hlow Htried Hun Hnodup Hlen Hgiven Hpos Hts) as (version & g' & Hrun & _ & Hdec).
  exists version, g'. split; [exact Hrun|]. split.
  - unfold decodeToTimestamp. rewrite Hdec. simpl. f_equal. fold ts.
    pose proof (Z.div_mod ts interval ltac:(lia)). lia.
  - pose proof (Z.mod_pos_bound ts interval Hpos). lia.
Qed.

Lemma decodeToTimestamp_interval_start_witness :
  ∃ version g',
    Generator.generateVersion digitCount documentedConfig gridInventory 0 None
      (Some 1000)
      {| Generator.buildInterval := Some 180; Generator.hyphenated := Some true;
         Generator.smartSeparators := Some false; Generator.minSyllables := None;
         Generator.maxSyllables := None; Generator.adaptiveCompression := None |}
    = Returns (version, g')
    ∧ decodeToTimestamp documentedConfig gridInventory version (Some 180) = Returns 900.
Proof.
  destruct (decodeToTimestamp_interval_start digitCount documentedConfig gridInventory 0 None
              (Some 1000)
              {| Generator.buildInterval := Some 180; Generator.hyphenated := Some true;
                 Generator.smartSeparators := Some false; Generator.minSyllables := None;
                 Generator.maxSyllables := None; Generator.adaptiveCompression := None |}
              180) as (version & g' & Hrun & Hdec & _).
  - exact gridInventory_lowercase.
  - exact gridInventory_tried.
  - exact gridInventory_unambiguous.
  - exact gridInventory_nodup.
  - exact gridInventory_length.
  - reflexivity.
  - lia.
  - simpl. lia.
  - exists version, g'. split; [exact Hrun | exact Hdec].
Defined.

(** X25: the letters of a generated version are a function of the
    normalised number and the minimum length alone: whatever the separator
    mode and the state of the balancer, the version without its decoration
    is the concatenation of the syllables of [floor(ts / i)]. *)
Theorem version_letters (estimate : Z → Z) (config : Config) (inventory : list string)
  (now : Z) (g : Global) (timestamp : option Z) (options : Generator.Options)
  (interval : Z) :
  Forall (λ s, lowercase_word s = true) inventory →
  Forall (λ s, nonempty s = true) inventory → (128 <= length inventory)%nat →
  Generator.buildInterval options = Some interval → 0 < interval →
  0 <= default now timestamp →
  ∃ version g',
    Generator.generateVersion estimate config inventory now g timestamp options
    = Returns (version, g')
    ∧ clean version
      = join (syllables_of config inventory (default now timestamp / interval)
                (default 0 (Generator.minSyllables options))).
Proof. apply generate_letters. Qed.

Lemma version_letters_witness :
  ∃ version g',
    Generator.generateVersion digitCount documentedConfig gridInventory 0 None
      (Some 129) intervalOnly = Returns (version, g')
    ∧ clean version = "bebe".
Proof.
  apply (version_letters digitCount documentedConfig gridInventory 0 None
           (Some 129) intervalOnly 1).
  - exact gridInventory_lowercase.
  - apply tried_nonempty. exact gridInventory_tried.
  - exact gridInventory_length.
  - reflexivity.
  - lia.
  - simpl. lia.
Defined.

(** X26: with an inventory of at least 128 distinct syllables, each of 2 to
    4 lowercase letters, that is prefix-unambiguous, two generated versions
    with the same letters come from the same normalised number: versions
    of timestamps in different build intervals differ in their letters,
    whatever separators were added. *)
Theorem versions_distinct (estimate : Z → Z) (config : Config) (inventory : list string)
  (now : Z) (g1 g2 : Global) (t1 t2 : option Z) (o1 o2 : Generator.Options)
  (i1 i2 : Z) :
  Forall (λ s, lowercase_word s = true) inventory →
  Forall (λ s, tried_length s) inventory → prefix_unambiguous inventory →
  NoDup inventory → (128 <= length inventory)%nat →
  Generator.buildInterval o1 = Some i1 → 0 < i1 → 0 <= default now t1 →
  Generator.buildInterval o2 = Some i2 → 0 < i2 → 0 <= default now t2 →
  ∃ v1 g1' v2 g2',
    Generator.generateVersion estimate config inventory now g1 t1 o1 = Returns (v1, g1')
    ∧ Generator.generateVersion estimate config inventory now g2 t2 o2 = Returns (v2, g2')
    ∧ (clean v1 = clean v2 → default now t1 / i1 = default now t2 / i2).
Proof.
  intros Hlow Htried Hun Hnodup Hlen Hg1 Hp1 Ht1 Hg2 Hp2 Ht2.
  destruct (generate_decode estimate config inventory now g1 t1 o1 i1
              Hlow Htried Hun Hnodup Hlen Hg1 Hp1 Ht1) as (v1 & g1' & Hrun1 & Hne1 & Hdec1).
  destruct (generate_decode estimate config inventory now g2 t2 o2 i2
              Hlow Htried Hun Hnodup Hlen Hg2 Hp2 Ht2) as (v2 & g2' & Hrun2 & _ & Hdec2).
  exists v1, g1', v2, g2'. split; [exact Hrun1|]. split; [exact Hrun2|].
  intros Hsame. pose proof (parse_same_letters inventory v1 v2 Hsame Hne1) as Hparse.
  unfold decodeVersion in Hdec1, Hdec2. rewrite Hparse, Hdec2 in Hdec1. by injection Hdec1.
Qed.

Lemma versions_distinct_witness :
  ∃ v1 g1' v2 g2',
    Generator.generateVersion digitCount documentedConfig gridInventory 0 None (Some 129)
      intervalOnly = Returns (v1, g1')
    ∧ Generator.generateVersion digitCount documentedConfig gridInventory 0 None (Some 130)
        intervalOnly = Returns (v2, g2')
    ∧ clean v1 ≠ clean v2.
Proof.
  destruct (versions_distinct digitCount documentedConfig gridInventory 0 None None
              (Some 129) (Some 130) intervalOnly intervalOnly 1 1)
    as (v1 & g1' & v2 & g2' & Hrun1 & Hrun2 & Hsame).
  - exact gridInventory_lowercase.
  - exact gridInventory_tried.
  - exact gridInventory_unambiguous.
  - exact gridInventory_nodup.
  - exact gridInventory_length.
  - reflexivity.
  - lia.
  - simpl. lia.
  - reflexivity.
  - lia.
  - simpl. lia.
  - exists v1, g1', v2, g2'. split; [exact Hrun1|]. split; [exact Hrun2|].
    intros Heq. apply Hsame in Heq. simpl in Heq. discriminate Heq.
Defined.

Lemma addSmartSeparators_short (config : Config) (g : Global) (syllables : list string)
  (options : Options) :
  (length syllables < 2)%nat →
  addSmartSeparators config g syllables options = Returns (join syllables, g).
Proof.
  intros Hshort. unfold addSmartSeparators. cbv zeta.
  destruct (separators_enabled (separators config)); [|reflexivity]. simpl.
  destruct (decide (length syllables < 2)%nat); [reflexivity | contradiction].
Qed.

(** X27: a negative timestamp is not rejected.  With a given positive
    interval and no minimum length, [generateVersion] returns the empty
    string for it, in every separator mode and without touching the
    balancer; the empty string is not a valid version and does not decode. *)
Theorem generateVersion_negative (estimate : Z → Z) (config : Config)
  (inventory : list string) (now : Z) (g : Global) (timestamp : option Z)
  (options : Generator.Options) (interval : Z) :
  Generator.buildInterval options = Some interval → 0 < interval →
  default now timestamp < 0 → default 0 (Generator.minSyllables options) <= 0 →
  Generator.generateVersion estimate config inventory now g timestamp options
  = Returns (EmptyString, g)
  ∧ decodeVersion config inventory EmptyString = Throws EmptyVersion
  ∧ Generator.isValidVersion config inventory EmptyString = false.
Proof.
  intros Hgiven Hpos Hneg Hmin. split; [|by split].
  unfold Generator.generateVersion. cbv zeta. rewrite Hgiven.
  destruct (decide (interval = 0)); [lia|].
  assert (Hx : default now timestamp / interval < 0)
    by (apply Z.div_lt_upper_bound; lia).
  assert (Hnone : encodeToSyllableIndices (default now timestamp / interval)
                    (default 0 (Generator.minSyllables options)) = []).
  { unfold encodeToSyllableIndices. cbv zeta. rewrite toBase128_negative by assumption.
    rewrite pad_loop_unfold. simpl length.
    destruct (decide (Z.of_nat 0 < default 0 (Generator.minSyllables options)));
      [lia | reflexivity]. }
  rewrite Hnone.
  assert (Hmixed : (if digitInterleaving (encoding config)
                    then interleaveDigits (@nil Z) else []) = []).
  { by destruct (digitInterleaving (encoding config)). }
  rewrite Hmixed. simpl map.
  destruct (default (separators_enabled (separators config))
              (Generator.smartSeparators options)).
  - rewrite addSmartSeparators_short by (simpl; lia). reflexivity.
  - by destruct (default false (Generator.hyphenated options)).
Qed.

Lemma generateVersion_negative_witness :
  Generator.generateVersion digitCount documentedConfig exampleInventory 0 None
    (Some (-5)) intervalOnly = Returns (EmptyString, None).
Proof.
  apply (generateVersion_negative digitCount documentedConfig exampleInventory 0 None
           (Some (-5)) intervalOnly 1).
  - reflexivity.
  - lia.
  - simpl. lia.
  - simpl. lia.
Defined.

(** ** config-loader.js *)

Lemma try_compression_candidates (estimate : Z → Z) (timestamp maxSyllables : Z)
  (intervals : list CompressionInterval) (interval syllableCount : Z) :
  let r := Generator.try_compression estimate timestamp maxSyllables intervals interval
             syllableCount in
  r = interval ∨ r ∈ Config.interval <$> intervals.
Proof.
  cbv zeta. revert interval syllableCount.
  induction intervals as [|c intervals IH]; intros interval syllableCount; [by left|].
  simpl. destruct (decide (syllableCount >= threshold c)).
  - destruct (decide (estimate (timestamp / Config.interval c) <= maxSyllables)).
    + right. by left.
    + right. destruct (IH (Config.interval c) (estimate (timestamp / Config.interval c)))
        as [->|Hin]; [by left | by right].
  - destruct (IH interval syllableCount) as [->|Hin]; [by left | right; by right].
Qed.

(** X28: [findOptimalInterval] returns the base interval or one of the
    configured compression intervals; it is the base interval when adaptive
    compression is off and when the estimate for the base interval is
    within the limit. *)
Theorem findOptimalInterval_candidates (estimate : Z → Z) (config : Config)
  (timestamp maxSyllables : Z) :
  let r := Generator.findOptimalInterval estimate config timestamp maxSyllables in
  let base := baseInterval (encoding config) in
  (r = base ∨ r ∈ Config.interval <$> compressionIntervals (encoding config))
  ∧ (adaptiveCompression (encoding config) = false → r = base)
  ∧ (estimate (timestamp / base) <= maxSyllables → r = base).
Proof.
  cbv zeta. unfold Generator.findOptimalInterval. cbv zeta.
  destruct (adaptiveCompression (encoding config)); simpl; [|by repeat split; try left].
  destruct (decide (estimate (timestamp / baseInterval (encoding config)) <= maxSyllables)).
  - by repeat split; try left.
  - split; [apply try_compression_candidates|]. split; [discriminate | contradiction].
Qed.

(** ** Further edge cases *)

Lemma join_length_bounds (syls : list string) :
  Forall (λ s, tried_length s) syls →
  (2 * length syls <= String.length (join syls) <= 4 * length syls)%nat.
Proof.
  induction 1 as [|s syls [Hlo Hhi] _ IH]; [simpl; lia|].
  rewrite join_cons, length_append. simpl length. lia.
Qed.

(** X29: the parser returns between a quarter and a half as many syllables
    as the input has letters, since every syllable has 2 to 4 letters; an
    input with a single letter is always rejected, with that letter as the
    unrecognized remainder. *)
Theorem parser_syllable_count (inventory : list string) (version : string) :
  (∀ syls, parseVersionToSyllables inventory version = Returns syls →
           (2 * length syls <= String.length (clean version) <= 4 * length syls)%nat)
  ∧ (String.length (clean version) = 1%nat →
     parseVersionToSyllables inventory version
     = Throws (UnrecognizedSyllable (clean version))).
Proof.
  split.
  - intros syls Hparse. destruct (parse_returns _ _ _ Hparse) as (_ & <- & Hall).
    apply join_length_bounds. eapply Forall_impl; [exact Hall|]. by intros s (_ & Ht & _).
  - intros Hone. rewrite parse_as_loop by (intros Hnil; rewrite Hnil in Hone; discriminate).
    rewrite parse_loop_unfold.
    destruct (decide (0 < String.length (clean version))%nat); [|lia].
    unfold try_lengths. rewrite Hone. reflexivity.
Qed.

Local Open Scope Q_scope.

(** X30: the global balancer.  When none exists, [getBalancer] builds one
    with an empty history whose strength and history size are never 0: a
    configured strength of 0 (or none) becomes 0.8, a configured history
    size of 0 (or none) becomes 100, and any other configured value is
    kept; when a balancer exists it is returned as it is, whatever the
    configuration says. *)
Theorem getBalancer_defaults (config : Config) (b : SeparatorBalancer) :
  let configured := default {| cfg_historySize := None; cfg_targets := None;
                               cfg_diversityStrength := None |}
                            (separatorBalancing config) in
  let created := getBalancer config None in
  getBalancer config (Some b) = b
  ∧ history created = []
  ∧ ¬ diversityStrength created == 0
  ∧ historySize created ≠ 0%Z
  ∧ (∀ s, cfg_diversityStrength configured = Some s → ¬ s == 0 →
          diversityStrength created = s)
  ∧ ((cfg_diversityStrength configured = None
      ∨ ∃ s, cfg_diversityStrength configured = Some s ∧ s == 0) →
     diversityStrength created = 8 # 10)
  ∧ (∀ n, cfg_historySize configured = Some n → n ≠ 0%Z → historySize created = n)
  ∧ ((cfg_historySize configured = None ∨ cfg_historySize configured = Some 0%Z) →
     historySize created = 100%Z)
  ∧ targets created = default defaultTargets (cfg_targets configured).
Proof.
  cbv zeta. unfold getBalancer, new. cbn [history diversityStrength historySize targets
    cfg_historySize cfg_diversityStrength cfg_targets].
  set (configured := default _ (separatorBalancing config)).
  split; [reflexivity|]. split; [reflexivity|].
  assert (Hstrength : ∀ x : option Q,
            (∀ s, x = Some s → ¬ s == 0 → or_default (Some (or_default x (8 # 10))) (3 # 10) = s)
            ∧ ((x = None ∨ ∃ s, x = Some s ∧ s == 0) →
               or_default (Some (or_default x (8 # 10))) (3 # 10) = 8 # 10)).
  { intros [s|]; simpl.
    - destruct (Qeq_bool s 0) eqn:Hs.
      + apply Qeq_bool_iff in Hs. split; [intros ? [= <-] Hne; contradiction|].
        intros _. reflexivity.
      + split.
        * intros ? [= <-] _. by rewrite Hs.
        * intros [?|(s' & [= <-] & Hz)]; [discriminate|].
          apply Qeq_bool_iff in Hz. congruence.
    - split; [discriminate | reflexivity]. }
  assert (Hsize : ∀ x : option Z,
            (∀ n, x = Some n → n ≠ 0%Z → or_defaultZ (Some (or_defaultZ x 100)) 100 = n)
            ∧ ((x = None ∨ x = Some 0%Z) →
               or_defaultZ (Some (or_defaultZ x 100)) 100 = 100%Z)).
  { intros [n|]; simpl.
    - destruct (decide (n = 0%Z)) as [->|Hn]; simpl.
      + split; [intros ? [= <-] ?; contradiction | reflexivity].
      + destruct (decide (n = 0%Z)); [contradiction|]. split.
        * by intros ? [= <-] _.
        * intros [?|[= ?]]; [discriminate | contradiction].
    - split; [discriminate | reflexivity]. }
  destruct (Hstrength (cfg_diversityStrength configured)) as [Hs1 Hs2].
  destruct (Hsize (cfg_historySize configured)) as [Hn1 Hn2].
  split; [|split; [|split; [exact Hs1|split; [exact Hs2|split; [exact Hn1|split;
    [exact Hn2 | reflexivity]]]]]].
  - destruct (cfg_diversityStrength configured) as [s|] eqn:E.
    + destruct (Qeq_bool s 0) eqn:Hz.
      * rewrite Hs2 by (right; exists s; split; [reflexivity | by apply Qeq_bool_iff]).
        intros H. discriminate H.
      * assert (Hne : ¬ s == 0) by (intros H; apply Qeq_bool_iff in H; congruence).
        by rewrite (Hs1 s eq_refl Hne).
    + rewrite Hs2 by (by left). intros H. discriminate H.
  - destruct (cfg_historySize configured) as [n|] eqn:E.
    + destruct (decide (n = 0%Z)) as [->|Hn].
      * rewrite Hn2 by (by right). lia.
      * by rewrite (Hn1 n eq_refl Hn).
    + rewrite Hn2 by (by left). lia.
Qed.

Local Close Scope Q_scope.

(** * The parser and the selection, step by step *)

Import Selection.

(** ** decoder.js: the letter stream *)

Lemma letter_of_lower (c : ascii) :
  letter_of c = if is_lower_letter (lower_char c) then Some (lower_char c) else None.
Proof. destruct c as [[] [] [] [] [] [] [] []]; vm_compute; reflexivity. Qed.

Lemma clean_letter_stream (version : string) : clean version = letter_stream version.
Proof.
  unfold clean, letter_stream, toLowerCase.
  induction version as [|c version IH]; [reflexivity|].
  cbn [string_map string_filter list_ascii_of_string omap list_omap].
  rewrite letter_of_lower, IH.
  by destruct (is_lower_letter (lower_char c)).
Qed.

(** C6, with the lower-casing the code does first.  The parser works on
    the letter stream of the input: its letters in input order, each in
    lower case, every other character deleted.  It scans the stream
    greedily, each step emitting the longest inventory syllable of length
    4, 3 or 2 that begins the remainder.  It throws the error that names the
    remainder exactly when the scan arrives at a non-empty remainder that no
    inventory syllable of a tried length begins; it returns the emitted
    syllables exactly when the scan consumes the whole stream and the
    stream is not empty; and it throws one of the two other errors exactly
    when the input has no letter. *)
Theorem parser_greedy_longest_match (inventory : list string) (version : string) :
  (∀ stuck,
     parseVersionToSyllables inventory version = Throws (UnrecognizedSyllable stuck)
     ↔ ∃ syls, greedy inventory (letter_stream version) syls stuck
               ∧ stuck ≠ EmptyString ∧ no_match inventory stuck)
  ∧ (∀ syls,
       parseVersionToSyllables inventory version = Returns syls
       ↔ letter_stream version ≠ EmptyString
         ∧ greedy inventory (letter_stream version) syls EmptyString)
  ∧ (parseVersionToSyllables inventory version = Throws EmptyVersion
     ∨ parseVersionToSyllables inventory version = Throws NoValidSyllables
     ↔ letter_stream version = EmptyString).
Proof.
  rewrite <- clean_letter_stream.
  destruct (parse_spec inventory version) as (_ & Hthrows & Hreturns).
  split; [exact Hthrows|]. split; [exact Hreturns|]. split.
  - intros Hempty. destruct (decide (clean version = EmptyString)) as [|Hne]; [assumption|].
    exfalso. rewrite (parse_as_loop inventory version Hne) in Hempty.
    pose proof (parse_loop_result inventory [] (clean version)) as Hres.
    destruct Hempty as [Hempty|Hempty]; rewrite Hempty in Hres; inversion Hres.
  - apply parse_not_loop.
Qed.

(** C6 as stated fails on an input with an uppercase letter.  Deleting from
    Tik-Tok every character that is not a lowercase letter leaves ikok,
    which no inventory syllable begins, so that the parser ought to throw;
    but the parser lower-cases the input first, works on tiktok and returns
    the syllables tik and tok. *)
Lemma parser_lowercases_first :
  lowercase_only "Tik-Tok" = "ikok"
  ∧ "ikok" ≠ EmptyString
  ∧ no_match exampleInventory "ikok"
  ∧ letter_stream "Tik-Tok" = "tiktok"
  ∧ parseVersionToSyllables exampleInventory "Tik-Tok" = Returns ["tik"; "tok"].
Proof.
  split; [reflexivity|]. split; [discriminate|]. split.
  - intros syl Hin _ Hpre. apply prefix_is_prefix in Hpre.
    unfold exampleInventory in Hin.
    repeat (apply elem_of_cons in Hin as [->|Hin]; [discriminate Hpre|]).
    by apply elem_of_nil in Hin.
  - split; [reflexivity | vm_compute; reflexivity].
Qed.

(** ** separators.js: the selection *)

Local Open Scope Q_scope.









(** *** The selection is determined *)











Local Close Scope Q_scope.
